(** * detect_twins_accounts.py: a shallow embedding and its properties

    The script finds pairs of "twin" accounts in a corpus of messages by
    intersecting two signals: authors that sent the same message, and authors
    whose most frequent words overlap.  The functions of the pipeline are
    embedded below under their own names, in the order of the source.

    Conventions of the embedding.
    - A Python [str] is a [string] of code points below 256; [lower],
      [split] and the punctuation table are Python's on these code points.
    - A line of the corpus is an object whose fields are text: author ids
      are strings.
    - A Python [dict] (and [Counter], [defaultdict]) is an association list in
      insertion order, since the script iterates over keys and values.
    - A Python [set] is a [gset]; the order in which [list(a_set)] lists it
      is an argument of the model ([set_order]).
    - A Python [int] is a [Z].  The arithmetic on [float] is an interface
      ([PyFloat]) whose instance is IEEE binary64, which is what CPython
      runs.
    - An exception is a value of [exn] carried by the [result] monad.
    - [open], [json.loads] and [argparse] are library code: the first two
      are parameters ([library]), the namespace [parse_args] returns is an
      input of [find_twins_accounts]. *)

From Stdlib Require Import ZArith Floats.
From Stdlib Require OrderedTypeEx.
From stdpp Require Import gmap strings list sorting pretty.

Local Open Scope string_scope.
Local Open Scope Z_scope.
Local Open Scope list_scope.

(** Decimal float literals denote the nearest binary64 value, as in
    Python. *)
#[local] Set Warnings "-inexact-float".

(** ** Exceptions *)

Inductive exn : Type :=
  | KeyError (key : string)          (* [d[key]] on a dict without [key] *)
  | AttributeError (name : string)   (* [obj.name] on an object without [name] *)
  | JSONDecodeError                  (* [json.loads] on a text that is not JSON *)
  | OSError                          (* [open] on a file that cannot be opened *)
  | UnicodeDecodeError               (* the file iterator on bytes that are not text *)
  | OtherError (name : string).      (* any other exception, by its class *)

Inductive result (A : Type) : Type :=
  | Ok (a : A)
  | Raise (e : exn).
Arguments Ok {A} a.
Arguments Raise {A} e.

#[export] Instance result_ret : MRet result := @Ok.
#[export] Instance result_bind : MBind result :=
  λ A B f m, match m with Ok a => f a | Raise e => Raise e end.

(** A [for] loop whose body may raise: the loop stops at the first exception. *)
Fixpoint for_each {A S : Type} (body : S → A → result S) (s : S) (l : list A)
  : result S :=
  match l with
  | [] => Ok s
  | x :: l' => s' ← body s x; for_each body s' l'
  end.

(** ** Text: [str.lower], [str.split], [string.punctuation] *)

Module Text.

Definition between (lo hi : N) (c : Ascii.ascii) : bool :=
  let n := Ascii.N_of_ascii c in ((lo <=? n) && (n <=? hi))%N.

(** [str.isspace] on one character: TAB, LF, VT, FF, CR, the four
    separators FS, GS, RS, US, the space, NEL and the no-break space. *)
Definition isspace (c : Ascii.ascii) : bool :=
  between 9 13 c || between 28 32 c || between 133 133 c || between 160 160 c.

(** Membership in [string.punctuation]: the 32 characters
    ! to /, : to @, [ to ` and { to ~. *)
Definition in_punctuation (c : Ascii.ascii) : bool :=
  between 33 47 c || between 58 64 c || between 91 96 c || between 123 126 c.

(** The cased characters are A to Z and the Latin-1 capitals (all of 192
    to 222 but the multiplication sign 215). *)
Definition lower_char (c : Ascii.ascii) : Ascii.ascii :=
  if between 65 90 c || between 192 214 c || between 216 222 c
  then Ascii.ascii_of_N (Ascii.N_of_ascii c + 32) else c.

(** [s.lower()] *)
Fixpoint lower (s : string) : string :=
  match s with
  | EmptyString => EmptyString
  | String c s' => String (lower_char c) (lower s')
  end.

(** [s.translate(str.maketrans('', '', string.punctuation))]: every
    punctuation character is deleted. *)
Fixpoint remove_punctuation (s : string) : string :=
  match s with
  | EmptyString => EmptyString
  | String c s' =>
      if in_punctuation c then remove_punctuation s'
      else String c (remove_punctuation s')
  end.

Definition add_word (w : string) (ws : list string) : list string :=
  if decide (w = EmptyString) then ws else w :: ws.

(** The run of non-space characters [s] starts with, and the words that
    follow it. *)
Fixpoint split_from (s : string) : string * list string :=
  match s with
  | EmptyString => (EmptyString, [])
  | String c s' =>
      let '(w, ws) := split_from s' in
      if isspace c then (EmptyString, add_word w ws) else (String c w, ws)
  end.

(** [s.split()]: the maximal runs of non-space characters, in order. *)
Definition split (s : string) : list string :=
  let '(w, ws) := split_from s in add_word w ws.

End Text.

(** ** Insertion-ordered dictionaries *)

Section dict.
Context {K V : Type} `{EqDecision K}.

(** [d[k]], when [k in d] *)
Fixpoint dict_get (d : list (K * V)) (k : K) : option V :=
  match d with
  | [] => None
  | (k', v) :: d' => if decide (k' = k) then Some v else dict_get d' k
  end.

(** [d[k] = v]: the value is replaced in place, a new key goes last. *)
Fixpoint dict_set (d : list (K * V)) (k : K) (v : V) : list (K * V) :=
  match d with
  | [] => [(k, v)]
  | (k', v') :: d' =>
      if decide (k' = k) then (k, v) :: d' else (k', v') :: dict_set d' k v
  end.

Definition keys (d : list (K * V)) : list K := d.*1.
Definition values (d : list (K * V)) : list V := d.*2.
End dict.

(** [itertools.combinations(l, 2)] *)
Fixpoint combinations2 {A : Type} (l : list A) : list (A * A) :=
  match l with
  | [] => []
  | x :: l' => map (pair x) l' ++ combinations2 l'
  end.

(** ** Records as loaded *)

(** A line of the input file as [json.loads] returns it: an object with
    string fields (author ids are taken to be strings).  Lines that denote
    another JSON value, and fields that are not text, are outside the
    model. *)
Abbreviation json_obj := (gmap string string).

(** [line[key]] *)
Definition getitem (line : json_obj) (key : string) : result string :=
  match line !! key with
  | Some v => Ok v
  | None => Raise (KeyError key)
  end.

(** A Message Record: an object that has both fields. *)
Record message_record : Type := MessageRecord {
  author_id : string;
  message : string
}.

Definition to_json (r : message_record) : json_obj :=
  <["author_id" := author_id r]> {["message" := message r]}.

(** The two library functions [load_data] calls.  [open(path, 'r')] raises
    or returns a file, which is read as it is iterated over: each step
    yields a line or raises, and nothing is read after that.  [json.loads]
    raises or returns the value the text denotes. *)
Record library : Type := Library {
  open_file : string → result (list (result string));
  json_loads : string → result json_obj
}.

(** [load_data]: one [json.loads] per line of the file, in the order of the
    file; the first exception ends the load. *)
Definition load_data (lib : library) (path : string) : result (list json_obj) :=
  f ← open_file lib path;
  mapM (λ line, text ← line; json_loads lib text) f.

(** ** Message Grouper: [create_dict] *)

(** [groups[message]] on a [defaultdict(list)]: a missing key is inserted
    with an empty list. *)
Definition defaultdict_get (groups : list (string * list string)) (message : string)
  : list (string * list string) * list string :=
  match dict_get groups message with
  | Some accounts => (groups, accounts)
  | None => (groups ++ [(message, [])], [])
  end.

(** Lines 61-62, for an author and a lowercased message. *)
Definition add_author (words_more_than : Z) (groups : list (string * list string))
    (author message : string) : list (string * list string) :=
  let '(groups, accounts) := defaultdict_get groups message in
  if bool_decide (author ∉ accounts)
     && bool_decide (words_more_than < Z.of_nat (length (Text.split message)))
  then dict_set groups message (accounts ++ [author])
  else groups.

Definition create_dict (message_dat : list json_obj) (words_more_than : Z)
  : result (list (string * list string)) :=
  for_each (λ groups line,
      text ← getitem line "message";
      let message := Text.lower text in
      author ← getitem line "author_id";
      Ok (add_author words_more_than groups author message))
    [] message_dat.

(** ** Duplicate-Author Extractor *)

Definition find_same_messages (same_messages : list (string * list string))
  : list (list string) :=
  fold_left (λ more_one_author accounts,
      if bool_decide (1 < length accounts)%nat
         && bool_decide (accounts ∉ more_one_author)
      then more_one_author ++ [accounts]
      else more_one_author)
    (values same_messages) [].

Definition find_all_combinations (large : list (list string))
  : list (string * string) :=
  fold_left (λ all_comb accounts, all_comb ++ combinations2 accounts) large [].

(** ** Frequency Modeler: [crete_freq_dict] *)

(** [counter.update([word])], that is [counter[word] = counter.get(word, 0) + 1] *)
Definition counter_update (counter : list (string * Z)) (word : string)
  : list (string * Z) :=
  dict_set counter word (default 0 (dict_get counter word) + 1).

(** Lines 101-105: the loop over the words of one message of [author]. *)
Definition count_words (common : list string) (author : string)
    (freq : list (string * list (string * Z))) (words : list string)
  : list (string * list (string * Z)) :=
  fold_left (λ freq word,
      if decide (word = "") then freq
      else if bool_decide (word ∉ common)
      then dict_set freq author
             (counter_update (default [] (dict_get freq author)) word)
      else freq)
    words freq.

Definition crete_freq_dict (data : list json_obj) (common : list string)
  : result (list (string * list (string * Z))) :=
  for_each (λ freq line,
      author ← getitem line "author_id";
      let freq := if bool_decide (author ∉ keys freq)
                  then dict_set freq author [] else freq in
      text ← getitem line "message";
      let message := Text.remove_punctuation text in
      Ok (count_words common author freq (Text.split (Text.lower message))))
    [] data.

(** ** Vocabulary-Similarity Scorer: [analyse_frequency_dicts] *)

(** The arithmetic the scorer does on [float]. *)
Class PyFloat (F : Type) : Type := {
  float_of_int : Z → F;     (* an [int] operand of a mixed operation *)
  truediv : Z → Z → F;      (* [a / b] on two [int] *)
  fsub : F → F → F;
  fmul : F → F → F;
  fge : F → F → bool        (* [x >= y] *)
}.

(** A decimal literal [num/den] denotes the float nearest to that value,
    which is what the division of the two integers returns. *)
Definition float_literal `{PyFloat F} (num den : Z) : F := truediv num den.

(** Stable sort by decreasing count: [sorted(items, key=itemgetter(1),
    reverse=True)], to which [heapq.nlargest] is equivalent. *)
Fixpoint insert_by_count (x : string * Z) (l : list (string * Z))
  : list (string * Z) :=
  match l with
  | [] => [x]
  | y :: l' => if y.2 <=? x.2 then x :: y :: l' else y :: insert_by_count x l'
  end.

Definition sorted_by_count (items : list (string * Z)) : list (string * Z) :=
  foldr insert_by_count [] items.

(** [counter.most_common(n)]; nothing for [n <= 0]. *)
Definition most_common (counter : list (string * Z)) (n : Z) : list (string * Z) :=
  take (Z.to_nat n) (sorted_by_count counter).

(** [set([word for word, count in counter.most_common(top_k)])] *)
Definition top_words (counter : list (string * Z)) (top_k : Z) : gset string :=
  list_to_set (most_common counter top_k).*1.

(** [sum(counter.values())] *)
Definition total_count (counter : list (string * Z)) : Z :=
  fold_left Z.add (values counter) 0.

(** Lines 129-131.  (With [min_words = 0] the quotient is a division by
    zero, for which Python raises and [truediv] returns an infinity or a
    NaN; the branch is then taken for a negative count only, which no
    Counter built by counting has.) *)
Definition adjusted_threshold `{PyFloat F} (threshold : F)
    (min_words words1_count words2_count : Z) : F :=
  if bool_decide (words1_count < min_words) || bool_decide (words2_count < min_words)
  then fmul threshold
         (fsub (float_of_int 1)
            (truediv (min_words - Z.min words1_count words2_count) min_words))
  else threshold.

(** [itertools.combinations(data_dict.keys(), 2)]: the pairs the scorer
    compares. *)
Definition compared_pairs (data_dict : list (string * list (string * Z)))
  : list (string * string) :=
  combinations2 (keys data_dict).

(** [data_dict[account]] for an [account] taken from [data_dict.keys()]. *)
Definition profile_of (data_dict : list (string * list (string * Z)))
    (account : string) : list (string * Z) :=
  default [] (dict_get data_dict account).

Definition analyse_frequency_dicts `{PyFloat F}
    (data_dict : list (string * list (string * Z)))
    (top_k : Z) (threshold : F) (min_words : Z) : list (string * string) :=
  fold_left (λ suspicious '(account1, account2),
      let top_words1 := top_words (profile_of data_dict account1) top_k in
      let top_words2 := top_words (profile_of data_dict account2) top_k in
      let common_words := top_words1 ∩ top_words2 in
      let words1_count := total_count (profile_of data_dict account1) in
      let words2_count := total_count (profile_of data_dict account2) in
      if decide (size common_words = 0%nat) then suspicious
      else
        let adjusted := adjusted_threshold threshold min_words
                          words1_count words2_count in
        if fge (truediv (Z.of_nat (size common_words)) top_k) adjusted
        then suspicious ++ [(account1, account2)]
        else suspicious)
    (compared_pairs data_dict) [].

(** ** The scorer nothing calls: [find_suspicious] *)

(** The outcome of a run that may divide by zero. *)
Inductive checked (A : Type) : Type :=
  | Returns (a : A)
  | ZeroDivisionError.
Arguments Returns {A} a.
Arguments ZeroDivisionError {A}.

(** Lines 35-47: the body of the loop, for the pairs found so far and one
    pair of accounts. *)
Definition find_suspicious_body `{PyFloat F}
    (dictionary : list (string * list (string * Z))) (coefficient : F)
    (suspicious : list (string * string)) (accounts : string * string)
  : checked (list (string * string)) :=
  let count_common := 10 in
  let '(account1, account2) := accounts in
  if bool_decide ((account1, account2) ∈ suspicious)
     || bool_decide ((account2, account1) ∈ suspicious)
  then Returns suspicious
  else if bool_decide (total_count (profile_of dictionary account1) < 10)
          || bool_decide (total_count (profile_of dictionary account2) < 10)
  then Returns suspicious
  else
    let top_words1 := (most_common (profile_of dictionary account1) count_common).*1 in
    let top_words2 := (most_common (profile_of dictionary account2) count_common).*1 in
    let common_word :=
      size ((list_to_set top_words1 : gset string) ∩ list_to_set top_words2) in
    let max_len := (length top_words1 `max` length top_words2)%nat in
    if decide (max_len = 0%nat) then ZeroDivisionError
    else if fge (truediv (Z.of_nat common_word) (Z.of_nat max_len)) coefficient
    then Returns (suspicious ++ [(account1, account2)])
    else Returns suspicious.

Fixpoint find_suspicious_loop `{PyFloat F}
    (dictionary : list (string * list (string * Z))) (coefficient : F)
    (pairs : list (string * string)) (suspicious : list (string * string))
  : checked (list (string * string)) :=
  match pairs with
  | [] => Returns suspicious
  | accounts :: pairs' =>
      match find_suspicious_body dictionary coefficient suspicious accounts with
      | Returns suspicious' =>
          find_suspicious_loop dictionary coefficient pairs' suspicious'
      | ZeroDivisionError => ZeroDivisionError
      end
  end.

Definition find_suspicious `{PyFloat F}
    (dictionary : list (string * list (string * Z))) (coefficient : F)
  : checked (list (string * string)) :=
  find_suspicious_loop dictionary coefficient (combinations2 (keys dictionary)) [].

(** ** Verdict Combiner: [combine_results] *)

(** [tuple(sorted(i))] for a pair: the two are swapped when the second is
    less than the first. *)
Definition sorted_pair (i : string * string) : string * string :=
  if String.ltb i.2 i.1 then (i.2, i.1) else i.

(** [list(a_set)] lists the elements of the set, each once, in the order of
    its hash table.  That order depends on the hashes of the strings, which
    change from one process to the next, and on how the table was filled:
    the language does not fix it.  The model takes it as an argument, a
    rearrangement of the one listing [elements] gives. *)
Record set_order : Type := SetOrder {
  arrange :> list (string * string) → list (string * string);
  arrange_Permutation : ∀ l, arrange l ≡ₚ l
}.

(** The order of [elements] itself. *)
Definition elements_order : set_order := SetOrder id (λ l, reflexivity l).

Definition combine_results (order : set_order)
    (suspicious_ac all_comb : list (string * string)) : list (string * string) :=
  let set_suspicious : gset (string * string) :=
    list_to_set (sorted_pair <$> suspicious_ac) in
  let set_comb : gset (string * string) :=
    list_to_set (sorted_pair <$> all_comb) in
  let comb := set_suspicious ∩ set_comb in
  order (elements comb).

(** ** Printing: [print_results] *)

(** [pair < pair'] on tuples of two strings: the first components decide
    unless they are equal. *)
Definition pair_ltb (p q : string * string) : bool :=
  if decide (p.1 = q.1) then String.ltb p.2 q.2 else String.ltb p.1 q.1.

(** [sorted(twins_accounts)]: a stable sort by [<]. *)
Fixpoint insert_pair (x : string * string) (l : list (string * string))
  : list (string * string) :=
  match l with
  | [] => [x]
  | y :: l' => if pair_ltb y x then y :: insert_pair x l' else x :: y :: l'
  end.

Definition sorted_pairs (pairs : list (string * string)) : list (string * string) :=
  foldr insert_pair [] pairs.

(** The lines [print_results] writes to the standard output. *)
Definition print_results (twins_accounts : list (string * string)) : list string :=
  ["Twins accounts:";
   "Possibly was detected " +:+ pretty (length twins_accounts)
     +:+ " pairs of twins accounts";
   "---------------"]
  ++ ((λ accounts, accounts.1 +:+ " " +:+ accounts.2) <$> sorted_pairs twins_accounts).

(** ** The pipeline: [find_twins_accounts] *)

Definition common_words : list string :=
  ["+1"; "done"; "thanks"; "hi"; "thank"; ":-)"; "ok"; "please";
   "looks"; "good"; "nice"; "sure"].

(** Lines 167-190: what [find_twins_accounts] does with the loaded data.
    The first component is what has been written to the standard output,
    line by line, when the statements end or raise. *)
Definition find_twins_accounts_from (F : Type) `{PyFloat F} (order : set_order)
    (data_mes : list json_obj) : list string * result unit :=
  match create_dict data_mes 2 with
  | Raise e => ([], Raise e)
  | Ok same_mes =>
      let data_for_freq := data_mes in
      let large_same_mes := find_same_messages same_mes in
      let all_combinations := find_all_combinations large_same_mes in
      let printed := ["Same messages is finding..."] in
      match crete_freq_dict data_for_freq common_words with
      | Raise e => (printed, Raise e)
      | Ok freq_dict =>
          let suspicious_accounts :=
            analyse_frequency_dicts freq_dict 10 (float_literal 7 10 : F) 3 in
          let printed := printed ++ ["Frequency dictionary is creating..."; ""] in
          let twins_result :=
            combine_results order suspicious_accounts all_combinations in
          (printed ++ print_results twins_result, Ok ())
      end
  end.

(** The namespace [parser.parse_args()] returns when it accepts the command
    line: the parser of lines 163-164 declares the one positional argument
    [file_name]. *)
Record Namespace : Type := { file_name : string }.

(** [args.name]: of the names the script may ask for, the namespace has
    [file_name] only. *)
Definition getattr (args : Namespace) (name : string) : result string :=
  if decide (name = "file_name") then Ok (file_name args)
  else Raise (AttributeError name).

(** A run on a command line the parser accepts.  Line 166 asks the
    namespace for [filr_name]. *)
Definition find_twins_accounts (F : Type) `{PyFloat F} (lib : library)
    (order : set_order) (args : Namespace) : list string * result unit :=
  match path ← getattr args "filr_name"; load_data lib path with
  | Raise e => ([], Raise e)
  | Ok data_mes => find_twins_accounts_from F order data_mes
  end.

(** ** An example corpus *)

(** A JSON string literal: the text between two double quotes. *)
Definition json_string (s : string) : string :=
  let quote := Ascii.ascii_of_nat 34 in
  String quote s +:+ String quote EmptyString.

(** The line of a record with both fields, and of one without message. *)
Definition record_line (author text : string) : string :=
  "{" +:+ json_string "author_id" +:+ ": " +:+ json_string author +:+ ", "
  +:+ json_string "message" +:+ ": " +:+ json_string text +:+ "}".

Definition author_only_line (author : string) : string :=
  "{" +:+ json_string "author_id" +:+ ": " +:+ json_string author +:+ "}".

(** One file, [corpus.jsonl], of two lines, and what [json.loads] returns
    on these two lines. *)
Definition example_library : library := {|
  open_file path :=
    if decide (path = "corpus.jsonl")
    then Ok [Ok (record_line "a" "hello world today"); Ok (author_only_line "b")]
    else Raise OSError;
  json_loads text :=
    if decide (text = record_line "a" "hello world today")
    then Ok (to_json (MessageRecord "a" "hello world today"))
    else if decide (text = author_only_line "b")
    then Ok {["author_id" := "b"]}
    else Raise JSONDecodeError
|}.

(** ** The arithmetic *)

(** IEEE 754 binary64, rounding to nearest even: CPython's [float].  The
    quotient of two integers is rounded once, from the exact quotient.
    Where Python raises (a zero divisor, an integer too large for a float)
    the functions below return an infinity or a NaN; on a mapping whose
    counts are not negative the scorer never divides by zero
    ([common_count_top_k_positive], [adjusted_threshold_divisor_positive])
    and its quotients lie between 0 and 1. *)
Module Binary64.

Definition spec_of_int (n : Z) : spec_float :=
  match n with
  | Z0 => S754_zero false
  | Zpos p => S754_finite false p 0
  | Zneg p => S754_finite true p 0
  end.

Definition of_int (n : Z) : float :=
  SF2Prim (binary_normalize prec emax n 0 false).

Definition div_int (a b : Z) : float :=
  SF2Prim (SFdiv prec emax (spec_of_int a) (spec_of_int b)).

#[global] Instance binary64 : PyFloat float := {|
  float_of_int := of_int;
  truediv := div_int;
  fsub := PrimFloat.sub;
  fmul := PrimFloat.mul;
  fge := λ x y, PrimFloat.leb y x
|}.

End Binary64.

(** ** Notions the properties are stated with *)

(** The specification's account of the Duplicate-Author Extractor: the
    author lists are deduplicated by list equality, each kept at its first
    occurrence, and only those of length at least 2 are retained. *)
Fixpoint first_occurrences (ls : list (list string)) : list (list string) :=
  match ls with
  | [] => []
  | l :: ls' => l :: filter (λ l', l' ≠ l) (first_occurrences ls')
  end.

Definition distinct_author_lists (same_messages : list (string * list string))
  : list (list string) :=
  first_occurrences (filter (λ accounts, 2 ≤ length accounts)%nat (values same_messages)).

(** A loaded object that misses one of the two fields. *)
Definition lacks_field (obj : json_obj) : Prop :=
  obj !! "author_id" = None ∨ obj !! "message" = None.

(** The loop of [create_dict] over records that have both fields, from the
    groups built so far. *)
Definition group_records (words_more_than : Z) (data : list message_record)
    (groups : list (string * list string)) : list (string * list string) :=
  fold_left (λ groups r, add_author words_more_than groups
                           (author_id r) (Text.lower (message r)))
    data groups.

(** The words [crete_freq_dict] reads in a text (lines 100-101). *)
Definition tokens (text : string) : list string :=
  Text.split (Text.lower (Text.remove_punctuation text)).

(** The body of the loop of [crete_freq_dict] for a record that has both
    fields, and the loop from the profiles built so far. *)
Definition count_record (common : list string)
    (freq : list (string * list (string * Z))) (r : message_record)
  : list (string * list (string * Z)) :=
  let freq := if bool_decide (author_id r ∉ keys freq)
              then dict_set freq (author_id r) [] else freq in
  count_words common (author_id r) freq (tokens (message r)).

Definition count_records (common : list string) (data : list message_record)
    (freq : list (string * list (string * Z))) : list (string * list (string * Z)) :=
  fold_left (count_record common) data freq.

(** No character of [s] is in [string.punctuation]. *)
Fixpoint punctuation_free (s : string) : bool :=
  match s with
  | EmptyString => true
  | String c s' => negb (Text.in_punctuation c) && punctuation_free s'
  end.

(** Every stored word is outside the stoplist, not empty and free of
    punctuation, and every stored count is positive. *)
Definition clean_profiles (common : list string)
    (freq : list (string * list (string * Z))) : Prop :=
  ∀ author counter word count,
    (author, counter) ∈ freq → (word, count) ∈ counter →
    (word ∉ common) ∧ word ≠ "" ∧ punctuation_free word = true ∧ 0 < count.

(** The number of top-K words two authors of [data_dict] share. *)
Definition common_count (data_dict : list (string * list (string * Z)))
    (top_k : Z) (account1 account2 : string) : nat :=
  size (top_words (profile_of data_dict account1) top_k
        ∩ top_words (profile_of data_dict account2) top_k).

(** The overlap ratio of a pair reaches the adjusted threshold. *)
Definition reaches_threshold `{PyFloat F}
    (data_dict : list (string * list (string * Z)))
    (top_k : Z) (threshold : F) (min_words : Z) (account1 account2 : string) : bool :=
  fge (truediv (Z.of_nat (common_count data_dict top_k account1 account2)) top_k)
      (adjusted_threshold threshold min_words
         (total_count (profile_of data_dict account1))
         (total_count (profile_of data_dict account2))).

(** The total word count of an author, in the words of the specification:
    the sum of the counts over all the words of the profile. *)
Definition word_count (counter : list (string * Z)) : Z :=
  foldr (λ item total, item.2 + total) 0 counter.

(** [word] ranks before [word'] in a Counter: it has a greater count, or the
    same count and an earlier entry. *)
Definition ranks_before (counter : list (string * Z)) (word word' : string) : Prop :=
  ∃ n n', (word, n) ∈ counter ∧ (word', n') ∈ counter
          ∧ (n' < n ∨ (n' = n ∧ ((word, n), (word', n')) ∈ combinations2 counter)).

(** The top-K word set of a Counter, in the words of the specification: the
    K words that rank first (ties broken by insertion order), or all the
    words when there are fewer than K. *)
Definition is_top_k (counter : list (string * Z)) (top_k : Z) (top : gset string)
  : Prop :=
  size top = (Z.to_nat top_k `min` length counter)%nat
  ∧ (∀ word, word ∈ top → word ∈ keys counter)
  ∧ (∀ word word', word' ∈ top → ranks_before counter word word' → word ∈ top).

(** The threshold the specification gives for two authors with total word
    counts [count1] and [count2]: the base threshold, scaled down when one
    of the counts is below [min_words]. *)
Definition spec_adjusted_threshold `{PyFloat F} (threshold : F)
    (min_words count1 count2 : Z) : F :=
  if decide (count1 < min_words ∨ count2 < min_words)
  then fmul threshold
         (fsub (float_of_int 1)
            (truediv (min_words - Z.min count1 count2) min_words))
  else threshold.

(** The words [crete_freq_dict] reads in the messages of an author, in the
    order of the records. *)
Definition author_tokens (data : list message_record) (author : string)
  : list string :=
  concat ((λ r, tokens (message r)) <$> filter (λ r, author_id r = author) data).

(** The number of times [word] occurs in [words]. *)
Definition occurrences (word : string) (words : list string) : nat :=
  length (filter (λ w, w = word) words).

(** The test [find_suspicious] applies to a pair it has not listed yet:
    both accounts have at least 10 words, and the words their top-10 lists
    share, over the length of the longer list, reach the coefficient. *)
Definition suspicious_pair `{PyFloat F}
    (dictionary : list (string * list (string * Z))) (coefficient : F)
    (account1 account2 : string) : Prop :=
  let top_words1 := (most_common (profile_of dictionary account1) 10).*1 in
  let top_words2 := (most_common (profile_of dictionary account2) 10).*1 in
  10 ≤ total_count (profile_of dictionary account1)
  ∧ 10 ≤ total_count (profile_of dictionary account2)
  ∧ fge (truediv
           (Z.of_nat (size ((list_to_set top_words1 : gset string)
                            ∩ list_to_set top_words2)))
           (Z.of_nat (length top_words1 `max` length top_words2)))
        coefficient = true.

(** *** Binary64 values *)

(** The value [m * 2^e] of a mantissa and an exponent, in units of
    [2^-2200]: an integer for every exponent the arithmetic of the scorer
    meets. *)
Definition scaled (m e : Z) : Z := m * 2 ^ (e + 2200).

(** The float 1.0: mantissa [2^52], exponent -52. *)
Definition one_mantissa : positive := 4503599627370496.
Definition SFone64 : spec_float := S754_finite false one_mantissa (-52).

(** [x] is a valid float, not negative and not above the float of mantissa
    [mB] and exponent [eB]. *)
Definition nonneg_below (x : spec_float) (mB : positive) (eB : Z) : Prop :=
  match x with
  | S754_zero false => True
  | S754_finite false m e =>
      bounded prec emax m e = true ∧ (e < eB ∨ (e = eB ∧ Z.pos m ≤ Z.pos mB))
  | _ => False
  end.

(** * Properties *)

(** ** Loops *)

Lemma for_each_total {A B S : Type} (body : S → B → result S) (f : S → A → S)
    (g : A → B) (l : list A) (s : S) :
  (∀ s x, x ∈ l → body s (g x) = Ok (f s x)) →
  for_each body s (g <$> l) = Ok (fold_left f l s).
Proof.
  revert s. induction l as [|x l IH]; intros s Hbody; simpl; [done|].
  rewrite Hbody by left. simpl. apply IH.
  intros s' y Hy. apply Hbody. by right.
Qed.

(** A loop over a list with an element on which the body always raises does
    raise, and the exception is one the body raises. *)
Lemma for_each_raises {A S : Type} (body : S → A → result S) (P : exn → Prop)
    (l : list A) (s : S) :
  (∀ s x e, body s x = Raise e → P e) →
  (∃ x, x ∈ l ∧ ∀ s, ∃ e, body s x = Raise e) →
  ∃ e, for_each body s l = Raise e ∧ P e.
Proof.
  intros HP. revert s. induction l as [|x l IH]; intros s (bad & Hin & Hbad).
  - by apply elem_of_nil in Hin.
  - simpl. destruct (body s x) as [s'|e] eqn:Hx; simpl.
    + apply IH. exists bad. split; [|done].
      apply elem_of_cons in Hin as [->|Hin]; [|done].
      destruct (Hbad s) as [e He]. congruence.
    + exists e. split; [done|]. by eapply HP.
Qed.

Lemma fold_left_extend {A B : Type} (f : A → list B) (l : list A) (acc : list B) :
  fold_left (λ acc x, acc ++ f x) l acc = acc ++ concat (f <$> l).
Proof.
  revert acc. induction l as [|x l IH]; intros acc; simpl.
  - by rewrite app_nil_r.
  - by rewrite IH, app_assoc.
Qed.

Lemma elem_of_concat {A : Type} (x : A) (ls : list (list A)) :
  x ∈ concat ls ↔ ∃ l, x ∈ l ∧ l ∈ ls.
Proof.
  induction ls as [|l ls IH]; simpl.
  - split; [by intros ?%elem_of_nil|]. by intros (l & _ & ?%elem_of_nil).
  - rewrite elem_of_app, IH. setoid_rewrite elem_of_cons. naive_solver.
Qed.

Lemma filter_all {A : Type} (P : A → Prop) `{!∀ x, Decision (P x)} (l : list A) :
  (∀ x, P x) → filter P l = l.
Proof.
  intros HP. induction l as [|x l IH]; [done|].
  by rewrite filter_cons_True, IH.
Qed.

(** ** Dictionaries *)

Section dict_facts.
Context {K V : Type} `{EqDecision K}.
Implicit Types (d : list (K * V)) (k : K) (v : V).

Lemma dict_get_set d k v k' :
  dict_get (dict_set d k v) k' = if decide (k = k') then Some v else dict_get d k'.
Proof.
  induction d as [|[k0 v0] d IH]; simpl.
  - repeat case_decide; congruence.
  - destruct (decide (k0 = k)) as [->|Hne]; simpl.
    + repeat case_decide; congruence.
    + rewrite IH. repeat case_decide; congruence.
Qed.

Lemma dict_get_app d d' k :
  dict_get (d ++ d') k
  = match dict_get d k with Some v => Some v | None => dict_get d' k end.
Proof.
  induction d as [|[k0 v0] d IH]; simpl; [done|]. by case_decide.
Qed.

Lemma dict_get_Some d k v : dict_get d k = Some v → (k, v) ∈ d.
Proof.
  induction d as [|[k0 v0] d IH]; simpl; [done|].
  case_decide as Hk.
  - intros [= ->]. subst. left.
  - intros Hget. right. by apply IH.
Qed.

Lemma dict_get_None d k : dict_get d k = None ↔ k ∉ keys d.
Proof.
  unfold keys. induction d as [|[k0 v0] d IH]; simpl.
  - split; [intros _; apply not_elem_of_nil | done].
  - rewrite not_elem_of_cons. case_decide; [|rewrite IH]; naive_solver.
Qed.

Lemma elem_of_dict_set d k v k' v' :
  (k', v') ∈ dict_set d k v → (k', v') ∈ d ∨ (k', v') = (k, v).
Proof.
  induction d as [|[k0 v0] d IH]; simpl.
  - rewrite list_elem_of_singleton. by right.
  - case_decide; rewrite !elem_of_cons; naive_solver.
Qed.

Lemma keys_dict_set d k v :
  keys (dict_set d k v) = if decide (k ∈ keys d) then keys d else keys d ++ [k].
Proof.
  unfold keys. induction d as [|[k0 v0] d IH].
  - case_decide as Hin; [by apply elem_of_nil in Hin | done].
  - cbn [dict_set]. destruct (decide (k0 = k)) as [->|Hne].
    + rewrite decide_True by (rewrite fmap_cons; left). done.
    + rewrite !fmap_cons, IH. cbn [fst].
      destruct (decide (k ∈ d.*1)) as [Hin|Hout].
      * rewrite decide_True by (by right). done.
      * rewrite decide_False; [done|]. rewrite not_elem_of_cons. naive_solver.
Qed.

End dict_facts.

Lemma values_elem_of {K V : Type} (d : list (K * V)) (k : K) (v : V) :
  (k, v) ∈ d → v ∈ values d.
Proof.
  intros Hin. unfold values. apply list_elem_of_fmap. by exists (k, v).
Qed.

(** ** [itertools.combinations(l, 2)] *)

Lemma elem_of_combinations2 {A : Type} (l : list A) (a b : A) :
  (a, b) ∈ combinations2 l ↔ ∃ l1 l2 l3, l = l1 ++ a :: l2 ++ b :: l3.
Proof.
  induction l as [|x l IH]; simpl.
  - split; [by intros ?%elem_of_nil|]. intros (l1 & l2 & l3 & H). by destruct l1.
  - rewrite elem_of_app, IH, list_elem_of_fmap. split.
    + intros [(y & [= -> ->] & Hy) | (l1 & l2 & l3 & ->)].
      * apply list_elem_of_split in Hy as (l2 & l3 & ->). by exists [], l2, l3.
      * by exists (x :: l1), l2, l3.
    + intros (l1 & l2 & l3 & H). destruct l1 as [|z l1]; simpl in H.
      * injection H as -> ->. left. exists b. split; [done|].
        rewrite elem_of_app. right. left.
      * injection H as -> ->. right. by exists l1, l2, l3.
Qed.

Lemma combinations2_members {A : Type} (l : list A) (a b : A) :
  (a, b) ∈ combinations2 l → a ∈ l ∧ b ∈ l.
Proof.
  rewrite elem_of_combinations2. intros (l1 & l2 & l3 & ->).
  rewrite !elem_of_app, !elem_of_cons, !elem_of_app, !elem_of_cons. tauto.
Qed.

Lemma combinations2_complete {A : Type} (l : list A) (a b : A) :
  a ∈ l → b ∈ l → a ≠ b → (a, b) ∈ combinations2 l ∨ (b, a) ∈ combinations2 l.
Proof.
  induction l as [|x l IH]; [by intros ?%elem_of_nil|].
  rewrite !elem_of_cons. simpl. rewrite !elem_of_app, !list_elem_of_fmap.
  intros [->|Ha] [->|Hb] Hne.
  - done.
  - left. left. by exists b.
  - right. left. by exists a.
  - destruct (IH Ha Hb Hne); [left | right]; by right.
Qed.

Lemma combinations2_length_twice {A : Type} (l : list A) :
  (2 * length (combinations2 l) = length l * (length l - 1))%nat.
Proof.
  induction l as [|x l IH]; simpl; [done|].
  rewrite length_app, length_map. nia.
Qed.

Lemma combinations2_length {A : Type} (l : list A) :
  length (combinations2 l) = (length l * (length l - 1) / 2)%nat.
Proof.
  rewrite <- combinations2_length_twice.
  by rewrite Nat.mul_comm, Nat.div_mul.
Qed.

Lemma combinations2_cons {A : Type} (x : A) (l : list A) :
  combinations2 (x :: l) = map (pair x) l ++ combinations2 l.
Proof. done. Qed.

Lemma combinations2_distinct {A : Type} (l : list A) (a b : A) :
  NoDup l → (a, b) ∈ combinations2 l → a ≠ b.
Proof.
  intros Hnodup (l1 & l2 & l3 & ->)%elem_of_combinations2 ->.
  apply NoDup_app in Hnodup as (_ & _ & Hnodup).
  apply NoDup_cons in Hnodup as [Hfresh _]. apply Hfresh.
  rewrite elem_of_app, elem_of_cons. tauto.
Qed.

Lemma elem_of_combinations2_lookup {A : Type} (l : list A) (a b : A) :
  (a, b) ∈ combinations2 l
  ↔ ∃ i j, (i < j)%nat ∧ l !! i = Some a ∧ l !! j = Some b.
Proof.
  rewrite elem_of_combinations2. split.
  - intros (l1 & l2 & l3 & ->).
    exists (length l1), (length l1 + S (length l2))%nat. split_and!; [lia | |].
    + rewrite lookup_app_r by lia. by rewrite Nat.sub_diag.
    + rewrite lookup_app_r by lia.
      replace (length l1 + S (length l2) - length l1)%nat with (S (length l2)) by lia.
      simpl. rewrite lookup_app_r by lia. by rewrite Nat.sub_diag.
  - intros (i & j & Hlt & Hi & Hj).
    apply list_elem_of_split_length in Hi as (l1 & l2 & -> & ->).
    rewrite lookup_app_r in Hj by lia.
    destruct (j - length l1)%nat as [|k] eqn:Hk; [lia|]. simpl in Hj.
    apply list_elem_of_split_length in Hj as (l3 & l4 & -> & _).
    by exists l1, l3, l4.
Qed.

Lemma combinations2_one_order {A : Type} (l : list A) (a b : A) :
  NoDup l → (a, b) ∈ combinations2 l → (b, a) ∉ combinations2 l.
Proof.
  intros Hnodup (i & j & Hlt & Hi & Hj)%elem_of_combinations2_lookup
    (j' & i' & Hlt' & Hj' & Hi')%elem_of_combinations2_lookup.
  pose proof (NoDup_lookup _ _ _ _ Hnodup Hi Hi').
  pose proof (NoDup_lookup _ _ _ _ Hnodup Hj Hj'). lia.
Qed.

Lemma NoDup_combinations2 {A : Type} (l : list A) :
  NoDup l → NoDup (combinations2 l).
Proof.
  induction 1 as [|x l Hfresh Hnodup IH]; [constructor|].
  rewrite combinations2_cons. apply NoDup_app. split_and!.
  - apply NoDup_fmap_2; [|done]. by intros y y' [= ->].
  - intros [a b] (y & [= -> ->] & Hy)%list_elem_of_fmap
      [Ha _]%combinations2_members. done.
  - done.
Qed.

(** ** Text *)

Lemma isspace_lower_char (c : Ascii.ascii) :
  Text.isspace (Text.lower_char c) = Text.isspace c.
Proof. by destruct c as [[] [] [] [] [] [] [] []]. Qed.

Lemma in_punctuation_lower_char (c : Ascii.ascii) :
  Text.in_punctuation (Text.lower_char c) = Text.in_punctuation c.
Proof. by destruct c as [[] [] [] [] [] [] [] []]. Qed.

Lemma lower_empty (s : string) : Text.lower s = "" ↔ s = "".
Proof. by destruct s. Qed.

Lemma add_word_lower (w : string) (ws : list string) :
  Text.add_word (Text.lower w) (Text.lower <$> ws)
  = Text.lower <$> Text.add_word w ws.
Proof.
  unfold Text.add_word. destruct (decide (w = "")) as [->|Hw]; [done|].
  rewrite decide_False; [done|]. by rewrite lower_empty.
Qed.

Lemma split_from_lower (s : string) :
  Text.split_from (Text.lower s)
  = (Text.lower (Text.split_from s).1, Text.lower <$> (Text.split_from s).2).
Proof.
  induction s as [|c s IH]; simpl; [done|].
  rewrite IH, isspace_lower_char. destruct (Text.split_from s) as [w ws]. simpl.
  destruct (Text.isspace c); simpl; [|done]. by rewrite add_word_lower.
Qed.

(** Lowercasing a text lowercases its words, so it keeps their number. *)
Lemma split_lower (s : string) :
  Text.split (Text.lower s) = Text.lower <$> Text.split s.
Proof.
  unfold Text.split. rewrite split_from_lower.
  destruct (Text.split_from s) as [w ws]. simpl. apply add_word_lower.
Qed.

Lemma split_lower_length (s : string) :
  length (Text.split (Text.lower s)) = length (Text.split s).
Proof. by rewrite split_lower, length_fmap. Qed.

(** ** Records *)

Lemma getitem_message (r : message_record) :
  getitem (to_json r) "message" = Ok (message r).
Proof.
  unfold getitem, to_json.
  rewrite lookup_insert_ne by done. by rewrite lookup_singleton_eq.
Qed.

Lemma getitem_author_id (r : message_record) :
  getitem (to_json r) "author_id" = Ok (author_id r).
Proof. unfold getitem, to_json. by rewrite lookup_insert_eq. Qed.

Lemma parse_lines_Ok (lib : library) (f : list (result string))
    (data : list json_obj) :
  mapM (λ line, text ← line; json_loads lib text) f = Ok data
  ↔ ∃ lines, f = Ok <$> lines
             ∧ Forall2 (λ line obj, json_loads lib line = Ok obj) lines data.
Proof.
  revert data. induction f as [|[line|e] f IH]; intros data; simpl.
  - split.
    + intros [= <-]. exists []. by split; [|constructor].
    + intros (lines & Hf & Hall). destruct lines; [|done].
      by apply Forall2_nil_inv_l in Hall as ->.
  - destruct (json_loads lib line) as [obj|e] eqn:Hline; simpl.
    + destruct (mapM _ f) as [data'|e] eqn:Hrest; simpl.
      * split.
        -- intros [= <-]. destruct (proj1 (IH data') eq_refl) as (lines & -> & Hall).
           exists (line :: lines). split; [done|]. by constructor.
        -- intros (lines & Hf & Hall). destruct lines as [|line' lines]; [done|].
           injection Hf as -> ->.
           apply Forall2_cons_inv_l in Hall as (obj' & data'' & Hobj & Hall & ->).
           assert (Ok data' = Ok data'') as [= ->] by (apply IH; by exists lines).
           rewrite Hline in Hobj. by injection Hobj as ->.
      * split; [done|]. intros (lines & Hf & Hall).
        destruct lines as [|line' lines]; [done|]. injection Hf as -> ->.
        apply Forall2_cons_inv_l in Hall as (obj' & data'' & Hobj & Hall & ->).
        assert (Raise e = Ok data'') as [=] by (apply IH; by exists lines).
    + split; [done|]. intros (lines & Hf & Hall).
      destruct lines as [|line' lines]; [done|]. injection Hf as -> ->.
      apply Forall2_cons_inv_l in Hall as (obj' & data'' & Hobj & _). congruence.
  - split; [done|]. intros (lines & Hf & _). by destruct lines.
Qed.

(** What a load that returns has read: the file opened, every step of the
    iteration yielded a line and [json.loads] returned on every line; the
    objects are those it returned, in the order of the lines. *)
Lemma load_data_Ok (lib : library) (path : string) (data : list json_obj) :
  load_data lib path = Ok data
  ↔ ∃ lines, open_file lib path = Ok (Ok <$> lines)
             ∧ Forall2 (λ line obj, json_loads lib line = Ok obj) lines data.
Proof.
  unfold load_data. destruct (open_file lib path) as [f|e]; simpl.
  - rewrite parse_lines_Ok. split.
    + intros (lines & -> & Hall). by exists lines.
    + intros (lines & [= ->] & Hall). by exists lines.
  - split; [done|]. by intros (lines & [=] & _).
Qed.

(** ** Message Grouper *)

(** On records that have both fields, [create_dict] returns, and its
    result is the fold of lines 61-62. *)
Lemma create_dict_well_formed (data : list message_record) (words_more_than : Z) :
  create_dict (to_json <$> data) words_more_than
  = Ok (group_records words_more_than data []).
Proof.
  unfold create_dict. apply for_each_total. intros groups r _.
  by rewrite getitem_message, getitem_author_id.
Qed.

Lemma add_author_lookup (words_more_than : Z) (groups : list (string * list string))
    (author text text' : string) :
  dict_get (add_author words_more_than groups author text) text'
  = if decide (text = text')
    then Some (let accounts := default [] (dict_get groups text) in
               if bool_decide (author ∉ accounts)
                  && bool_decide (words_more_than
                                  < Z.of_nat (length (Text.split text)))
               then accounts ++ [author] else accounts)
    else dict_get groups text'.
Proof.
  unfold add_author, defaultdict_get.
  destruct (dict_get groups text) as [accounts|] eqn:Hget; simpl.
  - destruct (_ && _).
    + by rewrite dict_get_set.
    + case_decide; congruence.
  - destruct (bool_decide (_ < _)).
    + rewrite dict_get_set. case_decide as Hm; [done|].
      rewrite dict_get_app. destruct (dict_get groups text'); [done|].
      simpl. by rewrite decide_False.
    + rewrite dict_get_app. case_decide as Hm.
      * subst. rewrite Hget. simpl. by rewrite decide_True.
      * destruct (dict_get groups text'); [done|]. simpl. by rewrite decide_False.
Qed.

Lemma add_author_keeps (words_more_than : Z) (groups : list (string * list string))
    (author text author' text' : string) :
  author ∈ default [] (dict_get groups text) →
  author ∈ default [] (dict_get (add_author words_more_than groups author' text')
                         text).
Proof.
  intros Hin. rewrite add_author_lookup. case_decide as Hm; [|done].
  subst. simpl. destruct (_ && _); [|done]. rewrite elem_of_app. by left.
Qed.

Lemma add_author_adds (words_more_than : Z) (groups : list (string * list string))
    (author text : string) :
  words_more_than < Z.of_nat (length (Text.split text)) →
  author ∈ default [] (dict_get (add_author words_more_than groups author text)
                         text).
Proof.
  intros Hlen. rewrite add_author_lookup, decide_True by done. simpl.
  rewrite (bool_decide_true (_ < _)) by done. rewrite andb_true_r.
  case_bool_decide as Hnew.
  - rewrite elem_of_app, list_elem_of_singleton. by right.
  - done.
Qed.


Lemma grouped_authors_stay (words_more_than : Z) (data : list message_record)
    (groups : list (string * list string)) (author text : string) :
  author ∈ default [] (dict_get groups text) →
  author ∈ default [] (dict_get (group_records words_more_than data groups) text).
Proof.
  unfold group_records. revert groups.
  induction data as [|r data IH]; intros groups Hin; simpl; [done|].
  by apply IH, add_author_keeps.
Qed.

(** Every record whose lowercased text has enough words has its author in
    the group of that text. *)
Lemma group_records_complete (words_more_than : Z) (data : list message_record)
    (groups : list (string * list string)) (r : message_record) :
  r ∈ data →
  words_more_than < Z.of_nat (length (Text.split (Text.lower (message r)))) →
  author_id r ∈ default []
    (dict_get (group_records words_more_than data groups) (Text.lower (message r))).
Proof.
  revert groups. induction data as [|r' data IH]; intros groups Hin Hlen.
  - by apply elem_of_nil in Hin.
  - apply elem_of_cons in Hin as [->|Hin].
    + apply (grouped_authors_stay _ data). by apply add_author_adds.
    + by apply IH.
Qed.

(** Groups with an author have a text of more than [words_more_than]
    words. *)
Lemma add_author_nonempty_groups (words_more_than : Z)
    (groups : list (string * list string)) (author text : string) :
  (∀ text' accounts, (text', accounts) ∈ groups → accounts ≠ [] →
     words_more_than < Z.of_nat (length (Text.split text'))) →
  ∀ text' accounts,
    (text', accounts) ∈ add_author words_more_than groups author text →
    accounts ≠ [] → words_more_than < Z.of_nat (length (Text.split text')).
Proof.
  intros Hinv text' accounts. unfold add_author, defaultdict_get.
  assert (Hinv' : ∀ text' accounts,
            (text', accounts) ∈ groups ++ [(text, [])] → accounts ≠ [] →
            words_more_than < Z.of_nat (length (Text.split text'))).
  { intros t l. rewrite elem_of_app, list_elem_of_singleton.
    intros [Hin | [= -> ->]]; [by apply Hinv | done]. }
  destruct (dict_get groups text) as [accounts0|];
    case_bool_decide as Hnew; simpl; try (by apply Hinv); try (by apply Hinv');
    case_bool_decide as Hlen; try (by apply Hinv); try (by apply Hinv');
    intros [Hin | [= -> ->]]%elem_of_dict_set; eauto.
Qed.

Lemma create_dict_nonempty_groups (data : list message_record) (words_more_than : Z)
    (text : string) (accounts : list string) :
  (text, accounts) ∈ group_records words_more_than data [] →
  accounts ≠ [] →
  words_more_than < Z.of_nat (length (Text.split text)).
Proof.
  unfold group_records.
  assert (Hgen : ∀ groups,
    (∀ text' accounts', (text', accounts') ∈ groups → accounts' ≠ [] →
       words_more_than < Z.of_nat (length (Text.split text'))) →
    ∀ text' accounts',
      (text', accounts') ∈ fold_left (λ groups r, add_author words_more_than groups
                             (author_id r) (Text.lower (message r))) data groups →
      accounts' ≠ [] →
      words_more_than < Z.of_nat (length (Text.split text'))).
  { induction data as [|r data IH]; intros groups Hinv; simpl; [done|].
    apply IH. by apply add_author_nonempty_groups. }
  apply Hgen. intros t l Hin. by apply elem_of_nil in Hin.
Qed.

(** C8 (the code departs from the claim).  A one-word message becomes a key
    of the mapping [create_dict] returns, with an empty author list: the test
    [line['author_id'] not in groups[message]] reads the [defaultdict], which
    inserts the key, before the word count is looked at.  This happens
    however many authors sent the message. *)
Theorem short_message_becomes_a_key :
  create_dict [to_json (MessageRecord "a" "ok")] 1 = Ok [("ok", [])]
  ∧ create_dict [to_json (MessageRecord "a" "ok"); to_json (MessageRecord "b" "OK")] 1
    = Ok [("ok", [])]
  ∧ create_dict [to_json (MessageRecord "a" "")] 1 = Ok [("", [])]
  ∧ length (Text.split "ok") = 1%nat.
Proof. split_and!; by vm_compute. Qed.

(** ** Duplicate-Author Extractor *)

Lemma elem_of_first_occurrences (ls : list (list string)) (l : list string) :
  l ∈ first_occurrences ls ↔ l ∈ ls.
Proof.
  induction ls as [|x ls IH]; simpl; [done|].
  rewrite !elem_of_cons, list_elem_of_filter, IH.
  destruct (decide (l = x)); naive_solver.
Qed.

Lemma NoDup_first_occurrences (ls : list (list string)) :
  NoDup (first_occurrences ls).
Proof.
  induction ls as [|x ls IH]; simpl; constructor.
  - rewrite list_elem_of_filter. naive_solver.
  - by apply NoDup_filter.
Qed.

Lemma find_same_messages_loop (ls acc : list (list string)) :
  fold_left (λ more_one_author accounts,
      if bool_decide (1 < length accounts)%nat
         && bool_decide (accounts ∉ more_one_author)
      then more_one_author ++ [accounts]
      else more_one_author) ls acc
  = acc ++ filter (λ l, l ∉ acc)
             (first_occurrences (filter (λ accounts, 2 ≤ length accounts)%nat ls)).
Proof.
  revert acc. induction ls as [|l ls IH]; intros acc; simpl.
  - by rewrite app_nil_r.
  - rewrite IH, filter_cons. clear IH.
    destruct (decide (2 ≤ length l)%nat) as [Hlen|Hlen].
    + rewrite bool_decide_true by lia. simpl. rewrite filter_cons.
      destruct (decide (l ∉ acc)) as [Hnew|Hold].
      * rewrite bool_decide_true by done. rewrite <- app_assoc. simpl.
        do 2 f_equal. rewrite list_filter_filter. apply list_filter_iff.
        intros l'. rewrite elem_of_app, list_elem_of_singleton. naive_solver.
      * rewrite bool_decide_false by done. f_equal.
        rewrite list_filter_filter. apply list_filter_iff.
        intros l'. apply dec_stable in Hold. naive_solver.
    + rewrite bool_decide_false by lia. done.
Qed.

Lemma find_same_messages_distinct (same_messages : list (string * list string)) :
  find_same_messages same_messages = distinct_author_lists same_messages.
Proof.
  unfold find_same_messages, distinct_author_lists.
  rewrite find_same_messages_loop. simpl.
  apply filter_all. intros l. apply not_elem_of_nil.
Qed.

Lemma find_all_combinations_concat (large : list (list string)) :
  find_all_combinations large = concat (combinations2 <$> large).
Proof. unfold find_all_combinations. by rewrite fold_left_extend. Qed.

Lemma elem_of_find_same_messages (same_messages : list (string * list string))
    (accounts : list string) :
  accounts ∈ find_same_messages same_messages
  ↔ accounts ∈ values same_messages ∧ (2 ≤ length accounts)%nat.
Proof.
  rewrite find_same_messages_distinct. unfold distinct_author_lists.
  rewrite elem_of_first_occurrences, list_elem_of_filter. tauto.
Qed.

(** C6.  The duplicate-message Suspicion Set is the concatenation of the
    2-combinations of the distinct author lists of length at least 2, taken in
    the order of their first occurrence among the groups; a list occurs there
    once however many message texts carry it; and a list of N authors yields
    N(N-1)/2 pairs. *)
Theorem duplicate_pairs_exact (same_messages : list (string * list string)) :
  find_all_combinations (find_same_messages same_messages)
    = concat (combinations2 <$> distinct_author_lists same_messages)
  ∧ find_same_messages same_messages = distinct_author_lists same_messages
  ∧ NoDup (find_same_messages same_messages)
  ∧ (∀ accounts, accounts ∈ find_same_messages same_messages
       ↔ accounts ∈ values same_messages ∧ (2 ≤ length accounts)%nat)
  ∧ (∀ accounts : list string,
       length (combinations2 accounts)
       = (length accounts * (length accounts - 1) / 2)%nat).
Proof.
  rewrite find_all_combinations_concat, find_same_messages_distinct.
  split_and!; try done.
  - apply NoDup_first_occurrences.
  - intros accounts. rewrite <- find_same_messages_distinct.
    apply elem_of_find_same_messages.
  - intros accounts. apply combinations2_length.
Qed.

(** ** Duplicates up to letter case *)

(** C9.  With [words_more_than = 1], the default: two records of different
    authors whose texts are equal up to letter case and have at least two
    words end in the same group, and the two authors form a pair of the
    duplicate-message Suspicion Set. *)
Theorem same_text_up_to_case_is_grouped
    (data : list message_record) (r1 r2 : message_record) :
  r1 ∈ data → r2 ∈ data →
  author_id r1 ≠ author_id r2 →
  Text.lower (message r1) = Text.lower (message r2) →
  (2 ≤ length (Text.split (message r1)))%nat →
  ∃ same_mes accounts,
    create_dict (to_json <$> data) 1 = Ok same_mes
    ∧ dict_get same_mes (Text.lower (message r1)) = Some accounts
    ∧ author_id r1 ∈ accounts ∧ author_id r2 ∈ accounts
    ∧ ((author_id r1, author_id r2)
         ∈ find_all_combinations (find_same_messages same_mes)
       ∨ (author_id r2, author_id r1)
         ∈ find_all_combinations (find_same_messages same_mes)).
Proof.
  intros Hr1 Hr2 Hauthors Hcase Hwords.
  rewrite create_dict_well_formed.
  set (same_mes := group_records 1 data []).
  assert (Hlen : 1 < Z.of_nat (length (Text.split (Text.lower (message r1))))).
  { rewrite split_lower_length. lia. }
  pose proof (group_records_complete 1 data [] r1 Hr1 Hlen) as H1.
  pose proof (group_records_complete 1 data [] r2 Hr2) as H2.
  rewrite <- Hcase in H2. specialize (H2 Hlen). fold same_mes in H1, H2.
  destruct (dict_get same_mes (Text.lower (message r1))) as [accounts|] eqn:Hget;
    [|by apply elem_of_nil in H1].
  simpl in H1, H2. exists same_mes, accounts. split_and!; try done.
  assert (Hfound : accounts ∈ find_same_messages same_mes).
  { apply elem_of_find_same_messages. split.
    - eapply values_elem_of, dict_get_Some, Hget.
    - apply list_elem_of_split in H1 as (l1 & l2 & ->).
      rewrite elem_of_app, elem_of_cons in H2.
      rewrite length_app. simpl.
      destruct l1, l2; simpl; try lia.
      destruct H2 as [H2 | [H2 | H2]]; try done; by apply elem_of_nil in H2. }
  rewrite find_all_combinations_concat.
  destruct (combinations2_complete accounts _ _ H1 H2 Hauthors) as [Hc|Hc];
    [left | right]; apply elem_of_concat; eexists; (split; [exact Hc|]);
    apply list_elem_of_fmap; by eexists.
Qed.

Lemma same_text_up_to_case_is_grouped_witness :
  let data := [MessageRecord "A" "Hello There"; MessageRecord "B" "hello there"] in
  ∃ same_mes accounts,
    create_dict (to_json <$> data) 1 = Ok same_mes
    ∧ dict_get same_mes "hello there" = Some accounts
    ∧ "A" ∈ accounts ∧ "B" ∈ accounts
    ∧ (("A", "B") ∈ find_all_combinations (find_same_messages same_mes)
       ∨ ("B", "A") ∈ find_all_combinations (find_same_messages same_mes)).
Proof.
  intros data.
  apply (same_text_up_to_case_is_grouped data
           (MessageRecord "A" "Hello There") (MessageRecord "B" "hello there")).
  - apply list_elem_of_here.
  - apply list_elem_of_further, list_elem_of_here.
  - discriminate.
  - reflexivity.
  - vm_compute. lia.
Defined.

(** The pipeline calls [create_dict] with 2, not with the default: there a
    two-word message is not grouped. *)
Example two_words_not_grouped_in_pipeline :
  create_dict (to_json <$> [MessageRecord "A" "Hello There";
                            MessageRecord "B" "hello there"]) 2
  = Ok [("hello there", [])].
Proof. by vm_compute. Qed.

(** ** Frequency Modeler *)

(** On records that have both fields, [crete_freq_dict] returns. *)
Lemma crete_freq_dict_well_formed (data : list message_record) (common : list string) :
  crete_freq_dict (to_json <$> data) common = Ok (count_records common data []).
Proof.
  unfold crete_freq_dict. apply for_each_total. intros freq r _.
  by rewrite getitem_author_id, getitem_message.
Qed.

Lemma keys_count_words (common : list string) (author : string)
    (freq : list (string * list (string * Z))) (words : list string) :
  author ∈ keys freq → keys (count_words common author freq words) = keys freq.
Proof.
  unfold count_words. revert freq.
  induction words as [|word words IH]; intros freq Hin; simpl; [done|].
  case_decide; [by apply IH|]. case_bool_decide; [|by apply IH].
  rewrite IH; rewrite keys_dict_set, decide_True by done; done.
Qed.

Lemma keys_count_record (common : list string)
    (freq : list (string * list (string * Z))) (r : message_record) :
  keys (count_record common freq r)
  = if decide (author_id r ∈ keys freq) then keys freq
    else keys freq ++ [author_id r].
Proof.
  unfold count_record. case_bool_decide as Hnew.
  - rewrite decide_False by done. rewrite keys_count_words.
    + by rewrite keys_dict_set, decide_False.
    + rewrite keys_dict_set, decide_False by done.
      rewrite elem_of_app, list_elem_of_singleton. by right.
  - rewrite decide_True by done. by apply keys_count_words.
Qed.

Lemma keys_count_records (common : list string) (data : list message_record)
    (freq : list (string * list (string * Z))) :
  NoDup (keys freq) →
  NoDup (keys (count_records common data freq))
  ∧ ∀ a, a ∈ keys (count_records common data freq)
         ↔ a ∈ keys freq ∨ a ∈ author_id <$> data.
Proof.
  unfold count_records. revert freq.
  induction data as [|r data IH]; intros freq Hnodup; simpl.
  - split; [done|]. intros a. rewrite elem_of_nil. tauto.
  - destruct (IH (count_record common freq r)) as [Hnd Hmem].
    + rewrite keys_count_record. case_decide as Hin; [done|].
      apply NoDup_app. split_and!; [done| |apply NoDup_singleton].
      intros a Ha ->%list_elem_of_singleton. done.
    + split; [done|]. intros a. rewrite Hmem, keys_count_record, elem_of_cons.
      case_decide as Hin.
      * split; [tauto|]. intros [?|[->|?]]; tauto.
      * rewrite elem_of_app, list_elem_of_singleton. tauto.
Qed.

Lemma count_words_all_filtered (common : list string) (author : string)
    (freq : list (string * list (string * Z))) (words : list string) :
  (∀ w, w ∈ words → w ∈ common) →
  count_words common author freq words = freq.
Proof.
  unfold count_words. induction words as [|word words IH]; intros Hall; simpl; [done|].
  case_decide; [apply IH; intros; apply Hall; by right|].
  rewrite bool_decide_false.
  - apply IH. intros. apply Hall. by right.
  - intros Hout. apply Hout, Hall. left.
Qed.

Lemma count_words_other_author (common : list string) (author other : string)
    (freq : list (string * list (string * Z))) (words : list string) :
  author ≠ other →
  dict_get (count_words common author freq words) other = dict_get freq other.
Proof.
  intros Hne. unfold count_words. revert freq.
  induction words as [|word words IH]; intros freq; simpl; [done|].
  case_decide; [done|]. case_bool_decide; [|done].
  rewrite IH, dict_get_set. by rewrite decide_False.
Qed.

Lemma count_record_other_author (common : list string)
    (freq : list (string * list (string * Z))) (r : message_record) (other : string) :
  author_id r ≠ other →
  dict_get (count_record common freq r) other = dict_get freq other.
Proof.
  intros Hne. unfold count_record.
  rewrite count_words_other_author by done.
  case_bool_decide; [|done]. rewrite dict_get_set. by rewrite decide_False.
Qed.

Lemma count_record_all_filtered (common : list string)
    (freq : list (string * list (string * Z))) (r : message_record) :
  (∀ w, w ∈ tokens (message r) → w ∈ common) →
  dict_get freq (author_id r) = None ∨ dict_get freq (author_id r) = Some [] →
  dict_get (count_record common freq r) (author_id r) = Some [].
Proof.
  intros Hall Hprofile. unfold count_record.
  rewrite count_words_all_filtered by done.
  case_bool_decide as Hnew.
  - rewrite dict_get_set. by rewrite decide_True.
  - destruct Hprofile as [Hnone|Hsome]; [|done].
    apply dict_get_None in Hnone. done.
Qed.

(** An author all of whose tokens are in the stoplist keeps an empty
    profile through the loop. *)
Lemma count_records_all_filtered (common : list string) (data : list message_record)
    (freq : list (string * list (string * Z))) (a : string) :
  (∀ r, r ∈ data → author_id r = a → ∀ w, w ∈ tokens (message r) → w ∈ common) →
  (dict_get freq a = None ∧ a ∈ author_id <$> data) ∨ dict_get freq a = Some [] →
  dict_get (count_records common data freq) a = Some [].
Proof.
  unfold count_records. revert freq.
  induction data as [|r data IH]; intros freq Hall Hprofile; simpl.
  - destruct Hprofile as [[_ Hin]|Hsome]; [by apply elem_of_nil in Hin | done].
  - apply IH; [intros r' Hr'; apply Hall; by right|].
    destruct (decide (author_id r = a)) as [<-|Hne].
    + right. apply count_record_all_filtered.
      * apply Hall; [left | done].
      * destruct Hprofile as [[Hnone _]|Hsome]; [by left | by right].
    + rewrite count_record_other_author by done.
      destruct Hprofile as [[Hnone Hin]|Hsome]; [left | by right].
      split; [done|]. rewrite fmap_cons, elem_of_cons in Hin.
      destruct Hin as [->|Hin]; done.
Qed.

(** C10.  On a sequence of Message Records [crete_freq_dict] returns a
    mapping whose keys are exactly the author ids of the records, each once.
    An author all of whose tokens are filtered out has the empty count
    mapping as profile, and is paired with every other author in the pairs
    the scorer compares. *)
Theorem frequency_profile_domain (data : list message_record) (common : list string) :
  ∃ freq,
    crete_freq_dict (to_json <$> data) common = Ok freq
    ∧ NoDup (keys freq)
    ∧ (∀ a, a ∈ keys freq ↔ a ∈ author_id <$> data)
    ∧ (∀ a, a ∈ author_id <$> data →
         (∀ r, r ∈ data → author_id r = a →
            ∀ w, w ∈ tokens (message r) → w ∈ common) →
         dict_get freq a = Some []
         ∧ ∀ b, b ∈ author_id <$> data → a ≠ b →
             (a, b) ∈ compared_pairs freq ∨ (b, a) ∈ compared_pairs freq).
Proof.
  exists (count_records common data []).
  destruct (keys_count_records common data []) as [Hnodup Hkeys];
    [apply NoDup_nil_2|].
  assert (Hdomain : ∀ a, a ∈ keys (count_records common data [])
                         ↔ a ∈ author_id <$> data).
  { intros a. rewrite Hkeys. simpl. rewrite elem_of_nil. tauto. }
  split_and!; [apply crete_freq_dict_well_formed | done..|].
  intros a Ha Hfiltered. split.
  - apply count_records_all_filtered; [done|]. left. done.
  - intros b Hb Hne. apply combinations2_complete; [by apply Hdomain..|done].
Qed.

Lemma frequency_profile_domain_witness :
  let data := [MessageRecord "a" "Thanks, looks good!";
               MessageRecord "b" "my two cents";
               MessageRecord "a" "ok :-)"] in
  ∃ freq,
    crete_freq_dict (to_json <$> data) common_words = Ok freq
    ∧ dict_get freq "a" = Some []
    ∧ (("a", "b") ∈ compared_pairs freq ∨ ("b", "a") ∈ compared_pairs freq).
Proof.
  intros data.
  destruct (frequency_profile_domain data common_words)
    as (freq & Hfreq & _ & _ & Hfiltered).
  exists freq. split; [exact Hfreq|].
  destruct (Hfiltered "a") as [Hprofile Hpairs].
  - apply list_elem_of_here.
  - intros r Hr Hauthor w Hw.
    apply (bool_decide_unpack _).
    repeat (apply elem_of_cons in Hr as [->|Hr]; [|]);
      try (by apply elem_of_nil in Hr); try discriminate Hauthor;
      vm_compute in Hw;
      repeat (apply elem_of_cons in Hw as [->|Hw]; [by vm_compute|]);
      by apply elem_of_nil in Hw.
  - split; [exact Hprofile|]. apply Hpairs; [|discriminate].
    apply list_elem_of_further, list_elem_of_here.
Defined.

(** *** What a profile stores *)

Lemma remove_punctuation_free (s : string) :
  punctuation_free (Text.remove_punctuation s) = true.
Proof.
  induction s as [|c s IH]; simpl; [done|].
  destruct (Text.in_punctuation c) eqn:Hc; simpl; [done|]. by rewrite Hc.
Qed.

Lemma lower_punctuation_free (s : string) :
  punctuation_free (Text.lower s) = punctuation_free s.
Proof.
  induction s as [|c s IH]; simpl; [done|].
  by rewrite in_punctuation_lower_char, IH.
Qed.

Lemma add_word_Forall (P : string → Prop) (w : string) (ws : list string) :
  (w ≠ "" → P w) → Forall P ws → Forall P (Text.add_word w ws).
Proof.
  intros Hw Hws. unfold Text.add_word. case_decide; [done|]. constructor; auto.
Qed.

Lemma split_from_nonempty (s : string) :
  Forall (λ w, w ≠ "") (Text.split_from s).2.
Proof.
  induction s as [|c s IH]; simpl; [constructor|].
  destruct (Text.split_from s) as [w ws]. simpl in IH.
  destruct (Text.isspace c); simpl; [|done]. by apply add_word_Forall.
Qed.

Lemma split_from_punctuation_free (s : string) :
  punctuation_free s = true →
  punctuation_free (Text.split_from s).1 = true
  ∧ Forall (λ w, punctuation_free w = true) (Text.split_from s).2.
Proof.
  induction s as [|c s IH]; simpl; [by split|].
  intros [Hc Hs]%andb_true_iff. destruct (IH Hs) as [Hw Hws].
  destruct (Text.split_from s) as [w ws]. simpl in Hw, Hws.
  destruct (Text.isspace c); simpl.
  - split; [done|]. by apply add_word_Forall.
  - by rewrite Hc, Hw.
Qed.

Lemma tokens_clean (text word : string) :
  word ∈ tokens text → word ≠ "" ∧ punctuation_free word = true.
Proof.
  unfold tokens, Text.split.
  pose proof (split_from_nonempty (Text.lower (Text.remove_punctuation text))) as Hne.
  pose proof (split_from_punctuation_free
                (Text.lower (Text.remove_punctuation text))) as [Hw Hws].
  { by rewrite lower_punctuation_free, remove_punctuation_free. }
  destruct (Text.split_from _) as [w ws]. simpl in *.
  intros Hin.
  assert (Hall : Forall (λ w, w ≠ "" ∧ punctuation_free w = true) (Text.add_word w ws)).
  { apply add_word_Forall; [done|]. apply Forall_and. done. }
  rewrite Forall_forall in Hall. by apply Hall.
Qed.

Lemma clean_profiles_set_empty (common : list string)
    (freq : list (string * list (string * Z))) (author : string) :
  clean_profiles common freq → clean_profiles common (dict_set freq author []).
Proof.
  intros Hclean a counter w c [Hin | [= -> ->]]%elem_of_dict_set Hw.
  - by eapply Hclean.
  - by apply elem_of_nil in Hw.
Qed.

Lemma clean_profiles_update (common : list string)
    (freq : list (string * list (string * Z))) (author word : string) :
  word ∉ common → word ≠ "" → punctuation_free word = true →
  clean_profiles common freq →
  clean_profiles common
    (dict_set freq author (counter_update (default [] (dict_get freq author)) word)).
Proof.
  intros Hstop Hne Hfree Hclean a counter w c [Hin | [= -> ->]]%elem_of_dict_set Hw.
  - by eapply Hclean.
  - assert (Hold : ∀ w' c', (w', c') ∈ default [] (dict_get freq author) →
                     (w' ∉ common) ∧ w' ≠ "" ∧ punctuation_free w' = true ∧ 0 < c').
    { intros w' c' Hin. destruct (dict_get freq author) as [counter|] eqn:Hget.
      - eapply Hclean; [by apply dict_get_Some|done].
      - by apply elem_of_nil in Hin. }
    unfold counter_update in Hw.
    apply elem_of_dict_set in Hw as [Hw | [= -> ->]]; [by apply Hold|].
    split_and!; try done.
    destruct (dict_get (default [] (dict_get freq author)) word) as [n|] eqn:Hn;
      simpl; [|lia].
    apply dict_get_Some, Hold in Hn. lia.
Qed.

Lemma clean_profiles_count_words (common : list string) (author : string)
    (freq : list (string * list (string * Z))) (words : list string) :
  (∀ w, w ∈ words → w ≠ "" ∧ punctuation_free w = true) →
  clean_profiles common freq →
  clean_profiles common (count_words common author freq words).
Proof.
  unfold count_words. revert freq.
  induction words as [|word words IH]; intros freq Hwords Hclean; simpl; [done|].
  assert (Hrest : ∀ w, w ∈ words → w ≠ "" ∧ punctuation_free w = true).
  { intros w Hw. apply Hwords. by right. }
  case_decide; [by apply IH|]. case_bool_decide; [|by apply IH].
  apply IH; [done|]. apply clean_profiles_update; try done.
  apply Hwords. left.
Qed.

(** The profiles [crete_freq_dict] builds hold no stoplisted word, no empty
    word, no word with a punctuation character, and only positive counts. *)
Lemma crete_freq_dict_clean (data : list message_record) (common : list string) :
  clean_profiles common (count_records common data []).
Proof.
  unfold count_records.
  assert (Hgen : ∀ freq, clean_profiles common freq →
            clean_profiles common (fold_left (count_record common) data freq)).
  { induction data as [|r data IH]; intros freq Hclean; simpl; [done|].
    apply IH. unfold count_record. apply clean_profiles_count_words.
    - intros w. apply tokens_clean.
    - case_bool_decide; [by apply clean_profiles_set_empty | done]. }
  apply Hgen. intros a counter w c Hin. by apply elem_of_nil in Hin.
Qed.

(** An author whose tokens are all in the stoplist has an empty profile. *)
Example only_stoplisted_tokens :
  crete_freq_dict (to_json <$> [MessageRecord "a" "Thanks, looks good!";
                                MessageRecord "b" "my two cents";
                                MessageRecord "a" "ok :-)"]) common_words
  = Ok [("a", []); ("b", [("my", 1); ("two", 1); ("cents", 1)])].
Proof. by vm_compute. Qed.

(** C5 (the code departs from the claim).  The stoplist of the pipeline
    holds ["+1"], but punctuation is deleted before the stoplist is looked up:
    the message "+1" is read as the word "1", which is counted.  An author
    who only ever wrote the stoplisted "+1" has the profile {"1": 2}. *)
Theorem stoplisted_plus_one_is_counted :
  "+1" ∈ common_words
  ∧ Text.split (Text.lower "+1") = ["+1"]
  ∧ tokens "+1" = ["1"]
  ∧ crete_freq_dict (to_json <$> [MessageRecord "a" "+1"; MessageRecord "a" "+1"])
      common_words
    = Ok [("a", [("1", 2)])].
Proof.
  split_and!; try (by vm_compute). apply list_elem_of_here.
Qed.

(** ** Vocabulary-Similarity Scorer *)

Lemma analyse_frequency_dicts_loop `{PyFloat F}
    (data_dict : list (string * list (string * Z)))
    (top_k : Z) (threshold : F) (min_words : Z)
    (pairs acc : list (string * string)) :
  fold_left (λ suspicious '(account1, account2),
      let top_words1 := top_words (profile_of data_dict account1) top_k in
      let top_words2 := top_words (profile_of data_dict account2) top_k in
      let common_words := top_words1 ∩ top_words2 in
      let words1_count := total_count (profile_of data_dict account1) in
      let words2_count := total_count (profile_of data_dict account2) in
      if decide (size common_words = 0%nat) then suspicious
      else
        let adjusted := adjusted_threshold threshold min_words
                          words1_count words2_count in
        if fge (truediv (Z.of_nat (size common_words)) top_k) adjusted
        then suspicious ++ [(account1, account2)]
        else suspicious) pairs acc
  = acc ++ filter (λ p, common_count data_dict top_k p.1 p.2 ≠ 0%nat
                        ∧ reaches_threshold data_dict top_k threshold min_words p.1 p.2 = true)
             pairs.
Proof.
  revert acc. induction pairs as [|[a b] pairs IH]; intros acc; simpl.
  - by rewrite app_nil_r.
  - rewrite IH, filter_cons. clear IH. simpl.
    fold (common_count data_dict top_k a b).
    destruct (decide (common_count data_dict top_k a b = 0%nat)) as [Hz|Hnz].
    + rewrite decide_False by tauto. done.
    + fold (reaches_threshold data_dict top_k threshold min_words a b).
      destruct (reaches_threshold data_dict top_k threshold min_words a b) eqn:Hr.
      * rewrite decide_True by done. by rewrite <- app_assoc.
      * rewrite decide_False by (intros [_ ?]; done). done.
Qed.

Lemma elem_of_analyse_frequency_dicts `{PyFloat F}
    (data_dict : list (string * list (string * Z)))
    (top_k : Z) (threshold : F) (min_words : Z) (a b : string) :
  (a, b) ∈ analyse_frequency_dicts data_dict top_k threshold min_words
  ↔ (a, b) ∈ compared_pairs data_dict
    ∧ common_count data_dict top_k a b ≠ 0%nat
    ∧ reaches_threshold data_dict top_k threshold min_words a b = true.
Proof.
  unfold analyse_frequency_dicts. rewrite analyse_frequency_dicts_loop. simpl.
  rewrite list_elem_of_filter. simpl. tauto.
Qed.

Lemma common_count_sym data_dict top_k a b :
  common_count data_dict top_k a b = common_count data_dict top_k b a.
Proof. unfold common_count. f_equal. apply (comm_L (∩)). Qed.

Lemma adjusted_threshold_sym `{PyFloat F} (threshold : F) min_words c1 c2 :
  adjusted_threshold threshold min_words c1 c2
  = adjusted_threshold threshold min_words c2 c1.
Proof.
  unfold adjusted_threshold. by rewrite orb_comm, Z.min_comm.
Qed.

Lemma reaches_threshold_sym `{PyFloat F} data_dict top_k (threshold : F) min_words a b :
  reaches_threshold data_dict top_k threshold min_words a b
  = reaches_threshold data_dict top_k threshold min_words b a.
Proof.
  unfold reaches_threshold.
  by rewrite common_count_sym, adjusted_threshold_sym.
Qed.

Lemma adjusted_threshold_enough_words `{PyFloat F} (threshold : F) min_words c1 c2 :
  min_words ≤ c1 → min_words ≤ c2 →
  adjusted_threshold threshold min_words c1 c2 = threshold.
Proof.
  intros H1 H2. unfold adjusted_threshold.
  by rewrite !bool_decide_false by lia.
Qed.

Lemma adjusted_threshold_few_words `{PyFloat F} (threshold : F) min_words c1 c2 :
  c1 < min_words ∨ c2 < min_words →
  adjusted_threshold threshold min_words c1 c2
  = fmul threshold
      (fsub (float_of_int 1)
         (truediv (min_words - Z.min c1 c2) min_words)).
Proof.
  intros Hlt. unfold adjusted_threshold.
  destruct Hlt; [rewrite (bool_decide_true (c1 < _)) by done
                | rewrite (bool_decide_true (c2 < _)) by done];
    by rewrite ?orb_true_r.
Qed.

(** The scorer compares two authors of the mapping in one order or the
    other, and the test does not depend on the order. *)
Lemma scorer_flags_unordered `{PyFloat F}
    (data_dict : list (string * list (string * Z)))
    (top_k : Z) (threshold : F) (min_words : Z) (a b : string) :
  a ∈ keys data_dict → b ∈ keys data_dict → a ≠ b →
  ((a, b) ∈ analyse_frequency_dicts data_dict top_k threshold min_words
   ∨ (b, a) ∈ analyse_frequency_dicts data_dict top_k threshold min_words)
  ↔ common_count data_dict top_k a b ≠ 0%nat
    ∧ reaches_threshold data_dict top_k threshold min_words a b = true.
Proof.
  intros Ha Hb Hne. rewrite !elem_of_analyse_frequency_dicts.
  rewrite (common_count_sym _ _ b a), (reaches_threshold_sym _ _ _ _ b a).
  pose proof (combinations2_complete _ _ _ Ha Hb Hne). unfold compared_pairs. tauto.
Qed.

Lemma top_words_empty_profile (top_k : Z) : top_words [] top_k = ∅.
Proof. unfold top_words, most_common. simpl. by rewrite take_nil. Qed.

Lemma top_words_no_rank (counter : list (string * Z)) (top_k : Z) :
  top_k ≤ 0 → top_words counter top_k = ∅.
Proof.
  intros Hk. unfold top_words, most_common.
  by replace (Z.to_nat top_k) with 0%nat by lia.
Qed.

(** The quotient [len(common_words) / top_k] is only formed with a positive
    divisor: no ZeroDivisionError on line 133. *)
Lemma common_count_top_k_positive data_dict top_k a b :
  common_count data_dict top_k a b ≠ 0%nat → 0 < top_k.
Proof.
  intros Hc. destruct (decide (0 < top_k)) as [|Hk]; [done|].
  exfalso. apply Hc. unfold common_count.
  rewrite !top_words_no_rank by lia.
  rewrite (left_absorb_L ∅ (∩)). apply size_empty.
Qed.

Lemma total_count_from (counts : list Z) (start : Z) :
  fold_left Z.add counts start = start + fold_left Z.add counts 0.
Proof.
  revert start. induction counts as [|c counts IH]; intros start; simpl; [lia|].
  rewrite (IH (start + c)), (IH (0 + c)). lia.
Qed.

Lemma total_count_cons (word : string) (c : Z) (counter : list (string * Z)) :
  total_count ((word, c) :: counter) = c + total_count counter.
Proof. unfold total_count. simpl. by rewrite total_count_from. Qed.

Lemma total_count_nonneg (counter : list (string * Z)) :
  Forall (λ item, 0 ≤ item.2) counter → 0 ≤ total_count counter.
Proof.
  induction 1 as [|[w c] counter Hc _ IH]; [done|].
  rewrite total_count_cons. simpl in Hc. lia.
Qed.

Lemma total_count_word_count (counter : list (string * Z)) :
  total_count counter = word_count counter.
Proof.
  induction counter as [|[w c] counter IH]; [done|].
  rewrite total_count_cons, IH. done.
Qed.

Lemma adjusted_threshold_spec `{PyFloat F} (threshold : F)
    (min_words : Z) (counter1 counter2 : list (string * Z)) :
  adjusted_threshold threshold min_words (total_count counter1) (total_count counter2)
  = spec_adjusted_threshold threshold min_words
      (word_count counter1) (word_count counter2).
Proof.
  rewrite !total_count_word_count.
  unfold adjusted_threshold, spec_adjusted_threshold.
  repeat case_bool_decide; simpl; case_decide; try done; lia.
Qed.

(** *** The top-K words *)

Lemma insert_by_count_Permutation (x : string * Z) (l : list (string * Z)) :
  insert_by_count x l ≡ₚ x :: l.
Proof.
  induction l as [|y l IH]; simpl; [done|].
  destruct (y.2 <=? x.2); [done|]. rewrite IH. apply Permutation_swap.
Qed.

Lemma sorted_by_count_Permutation (items : list (string * Z)) :
  sorted_by_count items ≡ₚ items.
Proof.
  unfold sorted_by_count. induction items as [|x items IH]; simpl; [done|].
  by rewrite insert_by_count_Permutation, IH.
Qed.

Lemma insert_by_count_sorted (x : string * Z) (l : list (string * Z)) :
  StronglySorted (λ a b, b.2 ≤ a.2) l →
  StronglySorted (λ a b, b.2 ≤ a.2) (insert_by_count x l).
Proof.
  induction 1 as [|y l Hsorted IH Hy]; simpl.
  - repeat constructor.
  - destruct (Z.leb_spec y.2 x.2) as [Hle|Hlt].
    + constructor; [by constructor|]. constructor; [done|].
      eapply Forall_impl; [exact Hy|]. simpl. intros z Hz. lia.
    + constructor; [done|]. rewrite insert_by_count_Permutation.
      constructor; [lia | done].
Qed.

Lemma sorted_by_count_sorted (items : list (string * Z)) :
  StronglySorted (λ a b, b.2 ≤ a.2) (sorted_by_count items).
Proof.
  unfold sorted_by_count. induction items as [|x items IH]; simpl.
  - constructor.
  - by apply insert_by_count_sorted.
Qed.

Lemma insert_by_count_keeps_order (z x y : string * Z) (l : list (string * Z)) :
  (x, y) ∈ combinations2 l → (x, y) ∈ combinations2 (insert_by_count z l).
Proof.
  induction l as [|h l IH]; [by intros ?%elem_of_nil|].
  cbn [insert_by_count]. destruct (h.2 <=? z.2).
  - intros Hin. rewrite (combinations2_cons z), elem_of_app. by right.
  - rewrite !combinations2_cons, !elem_of_app, !list_elem_of_fmap.
    intros [(y' & Heq & Hy) | Hin]; [left | right; by apply IH].
    exists y'. split; [done|]. rewrite insert_by_count_Permutation. by right.
Qed.

Lemma insert_by_count_goes_first (z y : string * Z) (l : list (string * Z)) :
  y ∈ l → y.2 ≤ z.2 → (z, y) ∈ combinations2 (insert_by_count z l).
Proof.
  induction l as [|h l IH]; [by intros ?%elem_of_nil|].
  cbn [insert_by_count].
  intros Hy Hle. destruct (Z.leb_spec h.2 z.2) as [Hh|Hh].
  - rewrite combinations2_cons, elem_of_app, list_elem_of_fmap. left. by exists y.
  - rewrite combinations2_cons, elem_of_app. right. apply IH; [|done].
    apply elem_of_cons in Hy as [->|Hy]; [lia | done].
Qed.

(** The sort is stable: an item stays before the later items that are not
    more frequent. *)
Lemma sorted_by_count_stable (x y : string * Z) (items : list (string * Z)) :
  (x, y) ∈ combinations2 items → y.2 ≤ x.2 →
  (x, y) ∈ combinations2 (sorted_by_count items).
Proof.
  induction items as [|h items IH]; [by intros ?%elem_of_nil|].
  change (sorted_by_count (h :: items))
    with (insert_by_count h (sorted_by_count items)).
  rewrite combinations2_cons, elem_of_app, list_elem_of_fmap.
  intros [(y' & Heq & Hy) | Hin] Hle.
  - injection Heq as -> ->. apply insert_by_count_goes_first; [|done].
    by rewrite sorted_by_count_Permutation.
  - by apply insert_by_count_keeps_order, IH.
Qed.

Lemma take_closed_under_precedence {A : Type} (l : list A) (n : nat) (x y : A) :
  NoDup l → (x, y) ∈ combinations2 l → y ∈ take n l → x ∈ take n l.
Proof.
  intros Hnodup (l1 & l2 & l3 & ->)%elem_of_combinations2
    (i & Hi & Hlt)%elem_of_take.
  assert (Hy : (l1 ++ x :: l2 ++ y :: l3) !! (length l1 + S (length l2))%nat = Some y).
  { rewrite lookup_app_r by lia.
    replace (length l1 + S (length l2) - length l1)%nat with (S (length l2)) by lia.
    simpl. rewrite lookup_app_r by lia. by rewrite Nat.sub_diag. }
  pose proof (NoDup_lookup _ _ _ _ Hnodup Hi Hy) as ->.
  apply elem_of_take. exists (length l1). split; [|lia].
  rewrite lookup_app_r by lia. by rewrite Nat.sub_diag.
Qed.

Lemma keys_unique_value {K V : Type} (d : list (K * V)) (k : K) (v v' : V) :
  NoDup (keys d) → (k, v) ∈ d → (k, v') ∈ d → v = v'.
Proof.
  unfold keys. induction d as [|[k0 v0] d IH]; simpl; [by intros _ ?%elem_of_nil|].
  intros [Hfresh Hnodup]%NoDup_cons Hv Hv'.
  assert (Hkey : ∀ u, (k0, u) ∈ d → False).
  { intros u Hu. apply Hfresh, list_elem_of_fmap. by exists (k0, u). }
  apply elem_of_cons in Hv as [Hv | Hv];
    apply elem_of_cons in Hv' as [Hv' | Hv']; simplify_eq;
    try done; try (by exfalso; eauto). by apply IH.
Qed.

Lemma elem_of_top_words (counter : list (string * Z)) (top_k : Z) (word : string) :
  word ∈ top_words counter top_k
  ↔ ∃ n, (word, n) ∈ take (Z.to_nat top_k) (sorted_by_count counter).
Proof.
  unfold top_words, most_common. rewrite elem_of_list_to_set, list_elem_of_fmap.
  split.
  - intros ([w n] & -> & Hin). by exists n.
  - intros (n & Hin). by exists (word, n).
Qed.

Lemma elem_of_top_words_entry (counter : list (string * Z)) (top_k : Z)
    (word : string) (n : Z) :
  NoDup (keys counter) → (word, n) ∈ counter →
  word ∈ top_words counter top_k
  ↔ (word, n) ∈ take (Z.to_nat top_k) (sorted_by_count counter).
Proof.
  intros Hnodup Hin. rewrite elem_of_top_words. split; [|by exists n].
  intros (m & Hm). replace n with m; [done|].
  apply (keys_unique_value counter word); [done| |done].
  rewrite <- sorted_by_count_Permutation.
  eapply elem_of_sublist; [done|apply sublist_take].
Qed.

Lemma ranks_before_total (counter : list (string * Z)) (word word' : string) :
  word ∈ keys counter → word' ∈ keys counter → word ≠ word' →
  ranks_before counter word word' ∨ ranks_before counter word' word.
Proof.
  unfold keys. intros ([w n] & -> & Hn)%list_elem_of_fmap
    ([w' n'] & -> & Hn')%list_elem_of_fmap Hne. simpl in *.
  destruct (Z.lt_trichotomy n n') as [Hlt | [-> | Hgt]].
  - right. exists n', n. split_and!; [done..|]. by left.
  - assert (Hpair : (w, n') ≠ (w', n')) by congruence.
    destruct (combinations2_complete _ _ _ Hn Hn' Hpair).
    + left. exists n', n'. split_and!; [done..|]. by right.
    + right. exists n', n'. split_and!; [done..|]. by right.
  - left. exists n, n'. split_and!; [done..|]. left. lia.
Qed.

Lemma ranks_before_asym (counter : list (string * Z)) (word word' : string) :
  NoDup (keys counter) →
  ranks_before counter word word' → ranks_before counter word' word → False.
Proof.
  intros Hnodup (n & n' & Hn & Hn' & Hfirst) (m' & m & Hm' & Hm & Hsecond).
  pose proof (keys_unique_value _ _ _ _ Hnodup Hn Hm) as <-.
  pose proof (keys_unique_value _ _ _ _ Hnodup Hn' Hm') as <-.
  destruct Hfirst as [? | [Heq Hbefore]], Hsecond as [? | [? Hafter]]; try lia.
  subst n'. apply NoDup_fmap_1 in Hnodup.
  by apply (combinations2_one_order counter (word, n) (word', n)).
Qed.

(** A Counter has one top-K word set. *)
Lemma is_top_k_unique (counter : list (string * Z)) (top_k : Z)
    (top top' : gset string) :
  NoDup (keys counter) →
  is_top_k counter top_k top → is_top_k counter top_k top' → top = top'.
Proof.
  intros Hnodup (Hsize & Hkeys & Hclosed) (Hsize' & Hkeys' & Hclosed').
  assert (Hnested : ∀ (T T' : gset string),
    (∀ word, word ∈ T → word ∈ keys counter) →
    (∀ word, word ∈ T' → word ∈ keys counter) →
    (∀ word word', word' ∈ T → ranks_before counter word word' → word ∈ T) →
    (∀ word word', word' ∈ T' → ranks_before counter word word' → word ∈ T') →
    ∀ w, w ∈ T → w ∉ T' → T' ⊆ T).
  { intros T T' HT HT' HcT HcT' w Hw Hout w' Hw'.
    destruct (decide (w' ∈ T)) as [|Hout']; [done|]. exfalso.
    assert (Hne : w ≠ w') by (intros ->; done).
    destruct (ranks_before_total counter w w') as [Hrank | Hrank];
      [by apply HT | by apply HT' | done | |].
    - apply Hout. by apply (HcT' w w').
    - apply Hout'. by apply (HcT w' w). }
  destruct (decide (top ⊆ top')) as [Hsub | Hnot].
  - apply set_subseteq_size_eq; [done | lia].
  - symmetry. apply set_subseteq_size_eq; [|lia].
    destruct (set_choose_L (top ∖ top')) as [w Hw].
    { intros Hempty. apply Hnot. set_solver. }
    apply elem_of_difference in Hw as [Hw Hout].
    by apply (Hnested top top' Hkeys Hkeys' Hclosed Hclosed' w).
Qed.

(** The set the scorer computes is the top-K word set. *)
Lemma top_words_is_top_k (counter : list (string * Z)) (top_k : Z) :
  NoDup (keys counter) → is_top_k counter top_k (top_words counter top_k).
Proof.
  intros Hnodup.
  assert (Hsorted_nodup : NoDup (sorted_by_count counter).*1).
  { change (NoDup (keys (sorted_by_count counter))). unfold keys.
    by rewrite sorted_by_count_Permutation. }
  split_and!.
  - unfold top_words, most_common. rewrite size_list_to_set.
    + rewrite length_fmap, length_take.
      by rewrite (Permutation_length (sorted_by_count_Permutation counter)).
    + eapply sublist_NoDup; [exact Hsorted_nodup|].
      apply fmap_sublist, sublist_take.
  - intros word (n & Hin)%elem_of_top_words. unfold keys.
    apply list_elem_of_fmap. exists (word, n). split; [done|].
    rewrite <- sorted_by_count_Permutation.
    eapply elem_of_sublist; [done|apply sublist_take].
  - intros word word' Htop (n & n' & Hw & Hw' & Hrank).
    rewrite (elem_of_top_words_entry counter top_k word n) by done.
    rewrite (elem_of_top_words_entry counter top_k word' n') in Htop by done.
    destruct Hrank as [Hlt | [-> Hbefore]].
    + destruct (decide ((word, n) ∈ take (Z.to_nat top_k) (sorted_by_count counter)))
        as [|Hout]; [done|]. exfalso.
      assert (Hdrop : (word, n) ∈ drop (Z.to_nat top_k) (sorted_by_count counter)).
      { rewrite <- sorted_by_count_Permutation in Hw.
        rewrite <- (take_drop (Z.to_nat top_k)) in Hw.
        apply elem_of_app in Hw as [?|?]; done. }
      pose proof (sorted_by_count_sorted counter) as Hsorted.
      rewrite <- (take_drop (Z.to_nat top_k)) in Hsorted.
      pose proof (StronglySorted_app_1_elem_of _ _ _ _ _ Hsorted Htop Hdrop) as Hle.
      simpl in Hle. lia.
    + revert Htop. apply take_closed_under_precedence.
      * eapply NoDup_fmap_1. exact Hsorted_nodup.
      * apply sorted_by_count_stable; [done | simpl; lia].
Qed.

(** C2.  For two distinct authors [a] and [b] of the profile mapping, whose
    profiles are dicts (no word is a key twice): whatever the arithmetic and
    the parameters, the scorer flags the pair, in one order or the other,
    exactly when the top-K word sets of the two profiles share [common > 0]
    words and [common / top_k >= adjusted_threshold].  The top-K word sets
    and the adjusted threshold are those of the specification ([is_top_k],
    [spec_adjusted_threshold]); every profile has a top-K word set.  In
    binary64, with [top_k = 10] and [threshold = 0.7], two authors whose
    top-10 word sets share exactly 7 words and who both have at least
    [min_words] words are flagged. *)
Theorem scorer_flags_exactly
    (data_dict : list (string * list (string * Z))) (a b : string) :
  a ∈ keys data_dict → b ∈ keys data_dict → a ≠ b →
  NoDup (keys (profile_of data_dict a)) → NoDup (keys (profile_of data_dict b)) →
  (∀ top_k, ∃ top_a top_b,
     is_top_k (profile_of data_dict a) top_k top_a
     ∧ is_top_k (profile_of data_dict b) top_k top_b)
  ∧ (∀ (F : Type) (arith : PyFloat F) (top_k : Z) (threshold : F) (min_words : Z)
       (top_a top_b : gset string),
       is_top_k (profile_of data_dict a) top_k top_a →
       is_top_k (profile_of data_dict b) top_k top_b →
       ((a, b) ∈ analyse_frequency_dicts data_dict top_k threshold min_words
        ∨ (b, a) ∈ analyse_frequency_dicts data_dict top_k threshold min_words)
       ↔ size (top_a ∩ top_b) ≠ 0%nat
         ∧ fge (truediv (Z.of_nat (size (top_a ∩ top_b))) top_k)
               (spec_adjusted_threshold threshold min_words
                  (word_count (profile_of data_dict a))
                  (word_count (profile_of data_dict b))) = true)
  ∧ (∀ (min_words : Z) (top_a top_b : gset string),
       is_top_k (profile_of data_dict a) 10 top_a →
       is_top_k (profile_of data_dict b) 10 top_b →
       size (top_a ∩ top_b) = 7%nat →
       min_words ≤ word_count (profile_of data_dict a) →
       min_words ≤ word_count (profile_of data_dict b) →
       (a, b) ∈ analyse_frequency_dicts data_dict 10 0.7%float min_words
       ∨ (b, a) ∈ analyse_frequency_dicts data_dict 10 0.7%float min_words).
Proof.
  intros Ha Hb Hne Hnodup_a Hnodup_b.
  assert (Hexact : ∀ (F : Type) (arith : PyFloat F) (top_k : Z) (threshold : F)
       (min_words : Z) (top_a top_b : gset string),
       is_top_k (profile_of data_dict a) top_k top_a →
       is_top_k (profile_of data_dict b) top_k top_b →
       ((a, b) ∈ analyse_frequency_dicts data_dict top_k threshold min_words
        ∨ (b, a) ∈ analyse_frequency_dicts data_dict top_k threshold min_words)
       ↔ size (top_a ∩ top_b) ≠ 0%nat
         ∧ fge (truediv (Z.of_nat (size (top_a ∩ top_b))) top_k)
               (spec_adjusted_threshold threshold min_words
                  (word_count (profile_of data_dict a))
                  (word_count (profile_of data_dict b))) = true).
  { intros F arith top_k threshold min_words top_a top_b Htop_a Htop_b.
    rewrite (is_top_k_unique _ _ _ _ Hnodup_a Htop_a
               (top_words_is_top_k _ top_k Hnodup_a)).
    rewrite (is_top_k_unique _ _ _ _ Hnodup_b Htop_b
               (top_words_is_top_k _ top_k Hnodup_b)).
    rewrite <- adjusted_threshold_spec.
    by apply scorer_flags_unordered. }
  split_and!.
  - intros top_k. eexists _, _. split; by apply top_words_is_top_k.
  - exact Hexact.
  - intros min_words top_a top_b Htop_a Htop_b Hcommon Hcount_a Hcount_b.
    apply (Hexact float _ 10 0.7%float min_words top_a top_b Htop_a Htop_b).
    rewrite Hcommon. split; [done|].
    unfold spec_adjusted_threshold. rewrite decide_False by lia.
    by vm_compute.
Qed.

Lemma scorer_flags_exactly_witness :
  let data_dict :=
    [("a", [("w0", 5); ("w1", 5); ("w2", 5); ("w3", 5); ("w4", 5); ("w5", 5);
            ("w6", 5); ("p7", 4); ("p8", 4); ("p9", 4); ("r1", 1); ("r2", 1)]);
     ("b", [("s1", 1); ("s2", 1); ("w0", 3); ("w1", 3); ("w2", 3); ("w3", 3);
            ("w4", 3); ("w5", 3); ("w6", 3); ("q7", 2); ("q8", 2); ("q9", 1)])] in
  size (top_words (profile_of data_dict "a") 10
        ∩ top_words (profile_of data_dict "b") 10) = 7%nat
  ∧ (("a", "b") ∈ analyse_frequency_dicts data_dict 10 0.7%float 3
     ∨ ("b", "a") ∈ analyse_frequency_dicts data_dict 10 0.7%float 3).
Proof.
  intros data_dict.
  assert (Hnodup_a : NoDup (keys (profile_of data_dict "a")))
    by (apply (bool_decide_unpack _); by vm_compute).
  assert (Hnodup_b : NoDup (keys (profile_of data_dict "b")))
    by (apply (bool_decide_unpack _); by vm_compute).
  assert (Hcommon : size (top_words (profile_of data_dict "a") 10
                          ∩ top_words (profile_of data_dict "b") 10) = 7%nat)
    by (by vm_compute).
  split; [exact Hcommon|].
  refine (proj2 (proj2 (scorer_flags_exactly data_dict "a" "b" _ _ _ Hnodup_a Hnodup_b))
            3 _ _ _ _ Hcommon _ _).
  - apply list_elem_of_here.
  - apply list_elem_of_further, list_elem_of_here.
  - discriminate.
  - by apply top_words_is_top_k.
  - by apply top_words_is_top_k.
  - by vm_compute.
  - by vm_compute.
Defined.

(** C4.  A pair of authors whose top-K word sets are disjoint is never
    flagged, whatever the parameters and the arithmetic; in particular an
    author whose profile is the empty count mapping is in no flagged pair. *)
Theorem no_shared_words_never_flagged `{PyFloat F}
    (data_dict : list (string * list (string * Z)))
    (top_k : Z) (threshold : F) (min_words : Z) :
  (∀ a b,
     top_words (profile_of data_dict a) top_k
       ∩ top_words (profile_of data_dict b) top_k = ∅ →
     ¬ ((a, b) ∈ analyse_frequency_dicts data_dict top_k threshold min_words)
     ∧ ¬ ((b, a) ∈ analyse_frequency_dicts data_dict top_k threshold min_words))
  ∧ (∀ a, dict_get data_dict a = Some [] →
     ∀ b, ¬ ((a, b) ∈ analyse_frequency_dicts data_dict top_k threshold min_words)
          ∧ ¬ ((b, a) ∈ analyse_frequency_dicts data_dict top_k threshold min_words)).
Proof.
  assert (Hdisjoint : ∀ a b,
     top_words (profile_of data_dict a) top_k
       ∩ top_words (profile_of data_dict b) top_k = ∅ →
     ¬ ((a, b) ∈ analyse_frequency_dicts data_dict top_k threshold min_words)
     ∧ ¬ ((b, a) ∈ analyse_frequency_dicts data_dict top_k threshold min_words)).
  { intros a b Hempty.
    assert (Hzero : common_count data_dict top_k a b = 0%nat).
    { unfold common_count. rewrite Hempty. apply size_empty. }
    rewrite !elem_of_analyse_frequency_dicts, (common_count_sym _ _ b a), Hzero.
    tauto. }
  split; [exact Hdisjoint|].
  intros a Ha b. apply Hdisjoint.
  unfold profile_of at 1. rewrite Ha. simpl.
  rewrite top_words_empty_profile. apply (left_absorb_L ∅ (∩)).
Qed.

Lemma no_shared_words_never_flagged_witness :
  let data_dict := [("a", []); ("b", [("x", 1); ("y", 1); ("z", 1)]);
                    ("c", [("u", 2); ("v", 1); ("w", 1)])] in
  ¬ (("b", "c") ∈ analyse_frequency_dicts (F:=float) data_dict 10 (float_literal 0 1) 3)
  ∧ ¬ (("a", "b") ∈ analyse_frequency_dicts (F:=float) data_dict 10 (float_literal 0 1) 3)
  ∧ ¬ (("a", "c") ∈ analyse_frequency_dicts (F:=float) data_dict 10 (float_literal 0 1) 3).
Proof.
  intros data_dict.
  destruct (no_shared_words_never_flagged (F:=float) data_dict 10 (float_literal 0 1) 3)
    as [Hdisjoint Hempty].
  split_and!.
  - apply (Hdisjoint "b" "c"). by vm_compute.
  - apply (Hempty "a"). reflexivity.
  - apply (Hempty "a"). reflexivity.
Defined.

(** *** The adjusted threshold *)

(** The quotient on line 131 is only formed with a positive divisor. *)
Lemma adjusted_threshold_divisor_positive (min_words c1 c2 : Z) :
  0 ≤ c1 → 0 ≤ c2 → c1 < min_words ∨ c2 < min_words → 0 < min_words.
Proof. lia. Qed.

Lemma profile_of_nonneg (data_dict : list (string * list (string * Z))) (a : string) :
  Forall (λ profile, Forall (λ item, 0 ≤ item.2) profile.2) data_dict →
  0 ≤ total_count (profile_of data_dict a).
Proof.
  intros Hcounts. apply total_count_nonneg. unfold profile_of.
  destruct (dict_get data_dict a) as [counter|] eqn:Hget; simpl; [|constructor].
  apply dict_get_Some in Hget. rewrite Forall_forall in Hcounts.
  by apply (Hcounts _ Hget).
Qed.

(** **** Rounding in binary64 *)

Lemma fexp_binary64 (k : Z) : fexp prec emax k = Z.max (k - 53) (-1074).
Proof. reflexivity. Qed.

Lemma digits2_pos_bounds (p : positive) :
  2 ^ (Z.pos (digits2_pos p) - 1) ≤ Z.pos p < 2 ^ Z.pos (digits2_pos p).
Proof.
  induction p as [p IH|p IH|]; simpl digits2_pos.
  - rewrite Pos2Z.inj_succ.
    replace (Z.succ (Z.pos (digits2_pos p)) - 1)
      with (Z.succ (Z.pos (digits2_pos p) - 1)) by lia.
    rewrite !Z.pow_succ_r by lia. lia.
  - rewrite Pos2Z.inj_succ.
    replace (Z.succ (Z.pos (digits2_pos p)) - 1)
      with (Z.succ (Z.pos (digits2_pos p) - 1)) by lia.
    rewrite !Z.pow_succ_r by lia. lia.
  - simpl. lia.
Qed.

Lemma Zdigits2_bounds (m : Z) :
  0 < m → 0 < Zdigits2 m ∧ 2 ^ (Zdigits2 m - 1) ≤ m < 2 ^ Zdigits2 m.
Proof.
  destruct m as [|p|p]; try lia. intros _. simpl.
  split; [lia | apply digits2_pos_bounds].
Qed.

Lemma Zdigits2_unique (m d : Z) :
  2 ^ (d - 1) ≤ m < 2 ^ d → 0 < m → 0 < d → Zdigits2 m = d.
Proof.
  intros [Hlo Hhi] Hm Hd.
  destruct (Zdigits2_bounds m Hm) as (HD & Hlo' & Hhi').
  destruct (Z.lt_trichotomy (Zdigits2 m) d) as [Hlt | [Heq | Hgt]]; [|done|].
  - assert (2 ^ Zdigits2 m ≤ 2 ^ (d - 1)) by (apply Z.pow_le_mono_r; lia). lia.
  - assert (2 ^ d ≤ 2 ^ (Zdigits2 m - 1)) by (apply Z.pow_le_mono_r; lia). lia.
Qed.

Lemma Zdigits2_mono (m m' : Z) : 0 < m ≤ m' → Zdigits2 m ≤ Zdigits2 m'.
Proof.
  intros [Hm Hle].
  destruct (Zdigits2_bounds m Hm) as (HD & Hlo & Hhi).
  destruct (Zdigits2_bounds m') as (HD' & Hlo' & Hhi'); [lia|].
  destruct (Z.le_gt_cases (Zdigits2 m) (Zdigits2 m')) as [|Hgt]; [done|].
  assert (2 ^ Zdigits2 m' ≤ 2 ^ (Zdigits2 m - 1)) by (apply Z.pow_le_mono_r; lia).
  lia.
Qed.

Lemma Zdigits2_mul_pow (m n : Z) :
  0 < m → 0 ≤ n → Zdigits2 (m * 2 ^ n) = Zdigits2 m + n.
Proof.
  intros Hm Hn. destruct (Zdigits2_bounds m Hm) as (HD & Hlo & Hhi).
  assert (0 < 2 ^ n) by (apply Z.pow_pos_nonneg; lia).
  apply Zdigits2_unique; [|nia|lia].
  replace (Zdigits2 m + n - 1) with (Zdigits2 m - 1 + n) by lia.
  rewrite !Z.pow_add_r by lia. nia.
Qed.

Lemma Zdigits2_div_pow (m n : Z) :
  0 ≤ n → 0 < m / 2 ^ n → Zdigits2 (m / 2 ^ n) = Zdigits2 m - n.
Proof.
  intros Hn Hq.
  assert (Hpow : 0 < 2 ^ n) by (apply Z.pow_pos_nonneg; lia).
  assert (Hm : 0 < m).
  { destruct (Z.le_gt_cases m 0) as [Hle|]; [|done].
    assert (m / 2 ^ n ≤ 0) by (apply Z.div_le_upper_bound; lia). lia. }
  destruct (Zdigits2_bounds _ Hq) as (HD & Hlo & Hhi).
  enough (Zdigits2 m = Zdigits2 (m / 2 ^ n) + n) by lia.
  apply Zdigits2_unique; [|done|lia].
  pose proof (Z.div_mod m (2 ^ n) ltac:(lia)) as Hdm.
  pose proof (Z.mod_pos_bound m (2 ^ n) Hpow) as Hmod.
  replace (Zdigits2 (m / 2 ^ n) + n - 1) with (Zdigits2 (m / 2 ^ n) - 1 + n) by lia.
  rewrite !Z.pow_add_r by lia. nia.
Qed.

(** Shifting right *)

Lemma iter_pos_nat {A : Type} (f : A → A) (p : positive) (x : A) :
  SpecFloat.iter_pos f p x = Nat.iter (Pos.to_nat p) f x.
Proof.
  revert x. induction p as [p IH|p IH|]; intros x; cbn [SpecFloat.iter_pos].
  - rewrite !IH, Pos2Nat.inj_xI, <- Nat.iter_succ_r, <- Nat.iter_add.
    f_equal. lia.
  - rewrite !IH, Pos2Nat.inj_xO, <- Nat.iter_add. f_equal. lia.
  - done.
Qed.

Lemma shr_1_spec (mrs : shr_record) :
  0 ≤ shr_m mrs →
  shr_m (shr_1 mrs) = shr_m mrs / 2
  ∧ shr_r (shr_1 mrs) = Z.odd (shr_m mrs)
  ∧ shr_s (shr_1 mrs) = shr_r mrs || shr_s mrs.
Proof.
  destruct mrs as [m r s]. simpl. intros Hm.
  destruct m as [|[p|p|]|p]; try lia; simpl; split_and!; try done.
  - rewrite Pos2Z.inj_xI. apply (Z.div_unique _ _ _ 1); lia.
  - rewrite Pos2Z.inj_xO. apply (Z.div_unique _ _ _ 0); lia.
Qed.

Lemma shr_iter_m (k : nat) (mrs : shr_record) :
  0 ≤ shr_m mrs →
  shr_m (Nat.iter k shr_1 mrs) = shr_m mrs / 2 ^ Z.of_nat k.
Proof.
  intros Hm. induction k as [|k IH].
  - simpl. by rewrite Z.div_1_r.
  - rewrite Nat2Z.inj_succ, Z.pow_succ_r by lia. simpl.
    destruct (shr_1_spec (Nat.iter k shr_1 mrs)) as (-> & _).
    { rewrite IH. apply Z.div_pos; [done|]. apply Z.pow_pos_nonneg; lia. }
    rewrite IH, Z.div_div; [|apply Z.pow_nonzero; lia|lia].
    f_equal. lia.
Qed.

Lemma shr_iter_exact (k : nat) (mrs : shr_record) :
  0 ≤ shr_m mrs → shr_m mrs mod 2 ^ Z.of_nat k = 0 →
  shr_r mrs = false → shr_s mrs = false →
  shr_r (Nat.iter k shr_1 mrs) = false ∧ shr_s (Nat.iter k shr_1 mrs) = false.
Proof.
  intros Hm Hmod Hr Hs. induction k as [|k IH]; [done|].
  assert (Hpow : 0 < 2 ^ Z.of_nat k) by (apply Z.pow_pos_nonneg; lia).
  rewrite Nat2Z.inj_succ, Z.pow_succ_r in Hmod by lia.
  assert (Hdiv : ∃ c, shr_m mrs = c * (2 * 2 ^ Z.of_nat k)).
  { exists (shr_m mrs / (2 * 2 ^ Z.of_nat k)).
    pose proof (Z.div_mod (shr_m mrs) (2 * 2 ^ Z.of_nat k) ltac:(lia)). lia. }
  destruct Hdiv as [c Hc].
  destruct IH as [IHr IHs].
  { rewrite Hc. replace (c * (2 * 2 ^ Z.of_nat k)) with ((c * 2) * 2 ^ Z.of_nat k) by lia.
    apply Z.mod_mul. lia. }
  simpl.
  destruct (shr_1_spec (Nat.iter k shr_1 mrs)) as (_ & -> & ->).
  { rewrite shr_iter_m by done. apply Z.div_pos; lia. }
  rewrite IHr, IHs, shr_iter_m by done. split; [|done].
  rewrite Hc. replace (c * (2 * 2 ^ Z.of_nat k)) with ((c * 2) * 2 ^ Z.of_nat k) by lia.
  rewrite Z.div_mul by lia. by rewrite Z.mul_comm, Z.odd_mul, andb_false_l.
Qed.

Lemma pow2_pos (k : Z) : 0 ≤ k → 0 < 2 ^ k.
Proof. intros. apply Z.pow_pos_nonneg; lia. Qed.

Lemma shr_spec (mrs : shr_record) (e n : Z) :
  0 ≤ shr_m mrs →
  (shr mrs e n).2 = e + Z.max 0 n
  ∧ shr_m (shr mrs e n).1 = shr_m mrs / 2 ^ Z.max 0 n
  ∧ (shr_m mrs mod 2 ^ Z.max 0 n = 0 → shr_r mrs = false → shr_s mrs = false →
     shr_r (shr mrs e n).1 = false ∧ shr_s (shr mrs e n).1 = false).
Proof.
  intros Hm. destruct n as [|p|p]; simpl.
  - rewrite Z.add_0_r, Z.div_1_r. done.
  - rewrite iter_pos_nat, Z.max_r by lia.
    rewrite <- (positive_nat_Z p).
    split_and!; [done | by apply shr_iter_m | by apply shr_iter_exact].
  - rewrite Z.add_0_r, Z.div_1_r. done.
Qed.

Lemma shr_fexp_spec (m e : Z) (l : location) :
  0 ≤ m →
  (shr_fexp prec emax m e l).2 = e + Z.max 0 (fexp prec emax (Zdigits2 m + e) - e)
  ∧ shr_m (shr_fexp prec emax m e l).1
    = m / 2 ^ Z.max 0 (fexp prec emax (Zdigits2 m + e) - e)
  ∧ (m mod 2 ^ Z.max 0 (fexp prec emax (Zdigits2 m + e) - e) = 0 →
     l = loc_Exact →
     loc_of_shr_record (shr_fexp prec emax m e l).1 = loc_Exact).
Proof.
  intros Hm. unfold shr_fexp.
  assert (Hrec : shr_m (shr_record_of_loc m l) = m) by (by destruct l as [|[]]).
  destruct (shr_spec (shr_record_of_loc m l) e
              (fexp prec emax (Zdigits2 m + e) - e)) as (He & Hq & Hexact).
  { by rewrite Hrec. }
  rewrite Hrec in Hq, Hexact. split_and!; [done..|].
  intros Hmod ->. destruct (Hexact Hmod eq_refl eq_refl) as [Hr Hs].
  destruct (shr _ _ _).1 as [m' r' s']. simpl in *. by subst.
Qed.

Lemma round_nearest_even_spec (m : Z) (l : location) :
  m ≤ round_nearest_even m l ≤ m + 1
  ∧ (l = loc_Exact → round_nearest_even m l = m).
Proof.
  destruct l as [|[]]; simpl; try (split; [lia|done]).
  destruct (Z.even m); split; (lia || done).
Qed.

Lemma canonical_mantissa_spec (m : positive) (e : Z) :
  canonical_mantissa prec emax m e = true
  ↔ Z.max (Zdigits2 (Z.pos m) + e - 53) (-1074) = e.
Proof. unfold canonical_mantissa. rewrite Z.eqb_eq, fexp_binary64. done. Qed.

Lemma bounded_spec (m : positive) (e : Z) :
  bounded prec emax m e = true
  ↔ Z.max (Zdigits2 (Z.pos m) + e - 53) (-1074) = e ∧ e ≤ 971.
Proof.
  unfold bounded. rewrite andb_true_iff, canonical_mantissa_spec, Z.leb_le. done.
Qed.

(** Canonical mantissas and exponents are ordered as the values. *)
Lemma canonical_le (m m' : positive) (e e' : Z) :
  canonical_mantissa prec emax m e = true →
  canonical_mantissa prec emax m' e' = true →
  scaled (Z.pos m) e ≤ scaled (Z.pos m') e' →
  e < e' ∨ (e = e' ∧ Z.pos m ≤ Z.pos m').
Proof.
  rewrite !canonical_mantissa_spec. unfold scaled. intros Hc Hc' Hle.
  destruct (Zdigits2_bounds (Z.pos m)) as (Hd & Hlo & Hhi); [lia|].
  destruct (Zdigits2_bounds (Z.pos m')) as (Hd' & Hlo' & Hhi'); [lia|].
  destruct (Z.lt_trichotomy e e') as [Hlt | [-> | Hgt]]; [by left | |].
  - right. split; [done|].
    pose proof (pow2_pos (e' + 2200) ltac:(lia)). nia.
  - exfalso.
    assert (Hdigits : Zdigits2 (Z.pos m) = 53) by lia.
    rewrite Hdigits in Hlo. change (2 ^ (53 - 1)) with (2 ^ 52) in Hlo.
    assert (Hhi53 : Z.pos m' < 2 ^ 53).
    { eapply Z.lt_le_trans; [exact Hhi'|]. apply Z.pow_le_mono_r; lia. }
    replace (e + 2200) with ((e' + 2200) + (e - e')) in Hle by lia.
    rewrite Z.pow_add_r in Hle by lia.
    pose proof (pow2_pos (e' + 2200) ltac:(lia)) as HX.
    assert (Hstep : 2 ^ 1 ≤ 2 ^ (e - e')) by (apply Z.pow_le_mono_r; lia).
    change (2 ^ 1) with 2 in Hstep.
    change (2 ^ 53) with (2 * 2 ^ 52) in Hhi53.
    set (c := 2 ^ 52) in *. set (X := 2 ^ (e' + 2200)) in *.
    set (P := 2 ^ (e - e')) in *.
    assert (Z.pos m' * X < 2 * c * X) by (apply Z.mul_lt_mono_pos_r; lia).
    assert (c * (X * 2) ≤ Z.pos m * (X * P)).
    { apply Z.mul_le_mono_nonneg; [lia | done | lia |].
      apply Z.mul_le_mono_nonneg_l; lia. }
    lia.
Qed.

Lemma fexp_mono (k k' : Z) : k ≤ k' → fexp prec emax k ≤ fexp prec emax k'.
Proof. rewrite !fexp_binary64. lia. Qed.

Lemma scaled_shift (m e n : Z) :
  -2200 ≤ e → 0 ≤ n → scaled m (e + n) = m * 2 ^ n * 2 ^ (e + 2200).
Proof.
  intros He Hn. unfold scaled.
  replace (e + n + 2200) with (n + (e + 2200)) by lia.
  rewrite Z.pow_add_r by lia. lia.
Qed.

(** Rounding to nearest a value that is not negative and not above a float
    gives a float that is not negative and not above that float. *)
Lemma binary_round_aux_below (m e : Z) (l : location) (mB : positive) (eB : Z) :
  0 ≤ m → -2200 ≤ e → e ≤ fexp prec emax (Zdigits2 m + e) →
  bounded prec emax mB eB = true →
  scaled (match l with loc_Exact => m | _ => m + 1 end) e ≤ scaled (Z.pos mB) eB →
  nonneg_below (binary_round_aux prec emax false m e l) mB eB.
Proof.
  intros Hm He Hpre HB Hle.
  apply bounded_spec in HB as [HcB HeB].
  destruct (Zdigits2_bounds (Z.pos mB)) as (HdB & HloB & HhiB); [lia|].
  unfold binary_round_aux.
  destruct (shr_fexp_spec m e l Hm) as (He1 & Hm1 & Hexact1).
  destruct (shr_fexp prec emax m e l) as [mrs1 e1]. simpl in He1, Hm1, Hexact1.
  rewrite Z.max_r in He1, Hm1, Hexact1 by lia.
  set (n1 := fexp prec emax (Zdigits2 m + e) - e) in *.
  assert (Hn1 : 0 ≤ n1) by (unfold n1; lia).
  assert (He1' : e1 = fexp prec emax (Zdigits2 m + e)) by (unfold n1 in He1; lia).
  pose proof (pow2_pos n1 Hn1) as Hpow1.
  destruct (round_nearest_even_spec (shr_m mrs1) (loc_of_shr_record mrs1))
    as [Hm2 Hround].
  set (m1 := shr_m mrs1) in *.
  set (m2 := round_nearest_even m1 (loc_of_shr_record mrs1)) in *.
  assert (Hm1_pos : 0 ≤ m1) by (rewrite Hm1; apply Z.div_pos; lia).
  assert (Hm1_lo : m1 * 2 ^ n1 ≤ m).
  { rewrite Hm1. pose proof (Z.mul_div_le m (2 ^ n1) Hpow1). lia. }
  assert (Hm2_pos : 0 ≤ m2) by lia.
  destruct (shr_fexp_spec m2 e1 loc_Exact Hm2_pos) as (He3 & Hm3 & _).
  destruct (shr_fexp prec emax m2 e1 loc_Exact) as [mrs3 e3]. simpl in He3, Hm3.
  set (m3 := shr_m mrs3) in *.
  assert (Hm3_pos : 0 ≤ m3).
  { rewrite Hm3. apply Z.div_pos; [done|]. apply pow2_pos. lia. }
  destruct m3 as [|p3|p3] eqn:Hp3; [done| |lia]. simpl.
  (* the second shift is by the difference of the exponents *)
  assert (Hm2_gt : 0 < m2).
  { destruct (Z.eq_dec m2 0) as [Hz|]; [|lia].
    rewrite Hz, Z.div_0_l in Hm3; [lia|]. apply Z.pow_nonzero; lia. }
  assert (Hn2 : e1 ≤ fexp prec emax (Zdigits2 m2 + e1)).
  { destruct (Z.eq_dec m1 0) as [Hz|Hnz].
    - assert (e1 = -1074); [|rewrite fexp_binary64; lia].
      rewrite He1', fexp_binary64 in *.
      destruct (Z.eq_dec m 0) as [->|Hmnz]; [simpl in *; lia|].
      destruct (Zdigits2_bounds m) as (Hd & Hlo & Hhi); [lia|].
      assert (m < 2 ^ n1).
      { destruct (Z.lt_ge_cases m (2 ^ n1)) as [|Hge]; [done|].
        assert (1 ≤ m / 2 ^ n1) by (apply Z.div_le_lower_bound; lia). lia. }
      assert (Zdigits2 m - 1 < n1).
      { destruct (Z.lt_ge_cases (Zdigits2 m - 1) n1) as [|Hge]; [done|].
        assert (2 ^ n1 ≤ 2 ^ (Zdigits2 m - 1)) by (apply Z.pow_le_mono_r; lia).
        lia. }
      unfold n1 in *. rewrite fexp_binary64 in *. lia.
    - assert (Hd1 : Zdigits2 m1 = Zdigits2 m - n1).
      { rewrite Hm1. apply Zdigits2_div_pow; [done|]. rewrite <- Hm1. lia. }
      pose proof (Zdigits2_mono m1 m2 ltac:(lia)) as Hmono.
      etransitivity; [|apply (fexp_mono (Zdigits2 m1 + e1))]; [|lia].
      rewrite Hd1. replace (Zdigits2 m - n1 + e1) with (Zdigits2 m + e) by lia.
      lia. }
  rewrite Z.max_r in He3, Hm3 by lia.
  set (n2 := fexp prec emax (Zdigits2 m2 + e1) - e1) in *.
  assert (Hn2' : 0 ≤ n2) by (unfold n2; lia).
  pose proof (pow2_pos n2 Hn2') as Hpow2.
  assert (Hcanon : canonical_mantissa prec emax p3 e3 = true).
  { apply canonical_mantissa_spec. rewrite <- fexp_binary64.
    assert (Hd3 : Zdigits2 (Z.pos p3) = Zdigits2 m2 - n2).
    { rewrite Hm3. apply Zdigits2_div_pow; [done|]. rewrite <- Hm3. lia. }
    rewrite Hd3. replace (Zdigits2 m2 - n2 + e3) with (Zdigits2 m2 + e1) by lia.
    unfold n2 in He3. lia. }
  (* the value before the second shift is not above the bound *)
  assert (HX : 0 < 2 ^ (e + 2200)) by (apply pow2_pos; lia).
  assert (Hvalue2 : scaled m2 e1 ≤ scaled (Z.pos mB) eB).
  { rewrite He1, scaled_shift by lia.
    destruct (Z.le_gt_cases e1 eB) as [HeB1|HeB1].
    - assert (0 < 2 ^ (eB - e1)) by (apply pow2_pos; lia).
      assert (HsB : scaled (Z.pos mB) eB
                    = Z.pos mB * 2 ^ (eB - e1) * 2 ^ n1 * 2 ^ (e + 2200)).
      { unfold scaled.
        replace (eB + 2200) with ((eB - e1) + n1 + (e + 2200)) by lia.
        rewrite !Z.pow_add_r by lia. ring. }
      rewrite HsB in Hle |- *.
      set (K := Z.pos mB * 2 ^ (eB - e1)) in *.
      unfold scaled in Hle.
      assert (Hbound : match l with loc_Exact => m | _ => m + 1 end ≤ K * 2 ^ n1).
      { by apply (Z.mul_le_mono_pos_r _ _ (2 ^ (e + 2200))). }
      assert (Hm2K : m2 ≤ K).
      { destruct (Z.lt_ge_cases m1 K) as [|HK]; [lia|].
        assert (HKm : K * 2 ^ n1 ≤ m1 * 2 ^ n1)
          by (apply Z.mul_le_mono_nonneg_r; lia).
        assert (Hexact : m = K * 2 ^ n1 ∧ l = loc_Exact).
        { destruct l as [|c]; split; try done; lia. }
        destruct Hexact as [Hmexact ->].
        rewrite Hround; [|apply Hexact1; [|done]].
        + rewrite Hm1, Hmexact, Z.div_mul by lia. lia.
        + rewrite Hmexact. apply Z.mod_mul. lia. }
      apply Z.mul_le_mono_nonneg_r; [lia|].
      apply Z.mul_le_mono_nonneg_r; lia.
    - exfalso.
      assert (He1_normal : e1 = Zdigits2 m + e - 53).
      { rewrite He1', fexp_binary64 in *. lia. }
      destruct (Z.eq_dec m 0) as [->|Hmnz].
      { simpl in *. rewrite fexp_binary64 in *. lia. }
      destruct (Zdigits2_bounds m) as (Hd & Hlo & Hhi); [lia|].
      assert (HhiB53 : Z.pos mB < 2 ^ 53).
      { eapply Z.lt_le_trans; [exact HhiB|]. apply Z.pow_le_mono_r; lia. }
      unfold scaled in Hle.
      assert (Hle' : m * 2 ^ (e + 2200) ≤ Z.pos mB * 2 ^ (eB + 2200)).
      { etransitivity; [|exact Hle]. apply Z.mul_le_mono_nonneg_r; [lia|].
        destruct l; lia. }
      assert (HY : 0 < 2 ^ (eB + 2200)) by (apply pow2_pos; lia).
      assert (Hlt : Z.pos mB * 2 ^ (eB + 2200) < 2 ^ 53 * 2 ^ (eB + 2200))
        by (apply Z.mul_lt_mono_pos_r; lia).
      assert (Hpw : 2 ^ (53 + (eB + 2200)) ≤ 2 ^ ((Zdigits2 m - 1) + (e + 2200)))
        by (apply Z.pow_le_mono_r; lia).
      rewrite (Z.pow_add_r 2 53), (Z.pow_add_r 2 (Zdigits2 m - 1)) in Hpw by lia.
      assert (2 ^ (Zdigits2 m - 1) * 2 ^ (e + 2200) ≤ m * 2 ^ (e + 2200))
        by (apply Z.mul_le_mono_nonneg_r; lia).
      lia. }
  assert (Hvalue3 : scaled (Z.pos p3) e3 ≤ scaled (Z.pos mB) eB).
  { etransitivity; [|exact Hvalue2].
    rewrite He3. rewrite (scaled_shift _ e1) by lia. unfold scaled.
    apply Z.mul_le_mono_nonneg_r; [apply Z.lt_le_incl, pow2_pos; lia|].
    rewrite Hm3. pose proof (Z.mul_div_le m2 (2 ^ n2) Hpow2). lia. }
  assert (HcanonB : canonical_mantissa prec emax mB eB = true)
    by (by apply canonical_mantissa_spec).
  pose proof (canonical_le p3 mB e3 eB Hcanon HcanonB Hvalue3) as Horder.
  assert (He3_max : e3 ≤ 971) by lia.
  change (emax - prec) with 971.
  rewrite (proj2 (Z.leb_le e3 971) He3_max). simpl.
  split; [|done]. apply bounded_spec. split; [|done].
  by apply canonical_mantissa_spec.
Qed.

Lemma new_location_cases (nb_steps k : Z) :
  (k = 0 ∧ new_location nb_steps k = loc_Exact)
  ∨ (k ≠ 0 ∧ ∃ c, new_location nb_steps k = loc_Inexact c).
Proof.
  unfold new_location.
  destruct (Z.even nb_steps); unfold new_location_even, new_location_odd;
    destruct (Z.eqb_spec k 0) as [->|Hk]; eauto.
Qed.

Lemma scaled_one : scaled (Z.pos one_mantissa) (-52) = 2 ^ 2200.
Proof. unfold scaled. change (Z.pos one_mantissa) with (2 ^ 52). by rewrite <- Z.pow_add_r. Qed.

(** The quotient of two positive integers, the first not above the second,
    is a float between 0 and 1. *)
Lemma SFdiv_int_below (a b : positive) :
  (a ≤ b)%positive →
  nonneg_below (SFdiv prec emax (S754_finite false a 0) (S754_finite false b 0))
    one_mantissa (-52).
Proof.
  intros Hab. unfold SFdiv, SFdiv_core_binary. cbn [xorb].
  destruct (Zdigits2_bounds (Z.pos a)) as (Hd1 & Hlo1 & Hhi1); [lia|].
  destruct (Zdigits2_bounds (Z.pos b)) as (Hd2 & Hlo2 & Hhi2); [lia|].
  pose proof (Zdigits2_mono (Z.pos a) (Z.pos b) ltac:(lia)) as Hd12.
  set (d1 := Zdigits2 (Z.pos a)) in *. set (d2 := Zdigits2 (Z.pos b)) in *.
  set (e' := Z.min (fexp prec emax (d1 + 0 - (d2 + 0))) (0 - 0)).
  assert (He' : e' = Z.max (d1 - d2 - 53) (-1074)).
  { unfold e'. rewrite fexp_binary64. lia. }
  clearbody e' d1 d2.
  assert (Hs : 0 - 0 - e' = Z.pos (Z.to_pos (- e'))) by lia.
  rewrite Hs. rewrite <- Hs.
  replace (0 - 0 - e') with (- e') by lia.
  rewrite Z.shiftl_mul_pow2 by lia.
  assert (Hpow : 0 < 2 ^ (- e')) by (apply pow2_pos; lia).
  set (m' := Z.pos a * 2 ^ (- e')).
  assert (Hq : (Z.div_eucl m' (Z.pos b)).1 = m' / Z.pos b) by done.
  assert (Hr : (Z.div_eucl m' (Z.pos b)).2 = m' mod Z.pos b) by done.
  destruct (Z.div_eucl m' (Z.pos b)) as [q r]. simpl in Hq, Hr. subst q r.
  pose proof (Z.div_mod m' (Z.pos b) ltac:(lia)) as Hdm.
  pose proof (Z.mod_pos_bound m' (Z.pos b) ltac:(lia)) as Hmod.
  assert (Hq_pos : 0 ≤ m' / Z.pos b) by (apply Z.div_pos; lia).
  assert (Hm'_le : m' ≤ Z.pos b * 2 ^ (- e')).
  { unfold m'. apply Z.mul_le_mono_nonneg_r; lia. }
  apply binary_round_aux_below.
  - done.
  - lia.
  - rewrite fexp_binary64.
    destruct (Z.eq_dec e' (-1074)) as [->|Hne]; [lia|].
    assert (He'_normal : e' = d1 - d2 - 53) by lia.
    assert (H52 : 2 ^ 52 ≤ m' / Z.pos b).
    { apply Z.div_le_lower_bound; [lia|].
      assert (2 ^ (d2 + 52) ≤ 2 ^ ((d1 - 1) + (- e')))
        by (apply Z.pow_le_mono_r; lia).
      rewrite !Z.pow_add_r in H by lia.
      assert (2 ^ (d1 - 1) * 2 ^ (- e') ≤ m')
        by (unfold m'; apply Z.mul_le_mono_nonneg_r; lia).
      assert (Z.pos b * 2 ^ 52 ≤ 2 ^ d2 * 2 ^ 52)
        by (apply Z.mul_le_mono_nonneg_r; lia).
      lia. }
    pose proof (Zdigits2_mono (2 ^ 52) (m' / Z.pos b) ltac:(lia)) as Hdq.
    change (Zdigits2 (2 ^ 52)) with 53 in Hdq. lia.
  - done.
  - rewrite scaled_one. unfold scaled.
    replace 2200 with (- e' + (e' + 2200)) at 2 by lia.
    rewrite (Z.pow_add_r 2 (- e')) by lia.
    apply Z.mul_le_mono_nonneg_r; [apply Z.lt_le_incl, pow2_pos; lia|].
    assert (Hq_le : m' / Z.pos b ≤ 2 ^ (- e')).
    { apply Z.div_le_upper_bound; lia. }
    destruct (new_location_cases (Z.pos b) (m' mod Z.pos b))
      as [[Hz ->] | [Hnz [c ->]]]; [done|].
    destruct (Z.eq_dec (m' / Z.pos b) (2 ^ (- e'))) as [Heq|]; [|lia].
    rewrite Heq in Hdm. lia.
Qed.

(** Shifting left *)

Lemma pos_iter_xO (m d : positive) :
  Z.pos (Pos.iter xO m d) = Z.pos m * 2 ^ Z.pos d.
Proof.
  rewrite Pos2Nat.inj_iter, <- (positive_nat_Z d).
  induction (Pos.to_nat d) as [|k IH]; [simpl; lia|].
  rewrite Nat2Z.inj_succ, Z.pow_succ_r by lia.
  cbn [nat_rect]. rewrite Pos2Z.inj_xO, IH. lia.
Qed.

Lemma shl_align_spec (m : positive) (e e' : Z) :
  (shl_align m e e').2 = Z.min e e'
  ∧ Z.pos (shl_align m e e').1 = Z.pos m * 2 ^ (e - Z.min e e').
Proof.
  unfold shl_align. destruct (e' - e) as [|d|d] eqn:Hd; simpl.
  - rewrite Z.min_l by lia. rewrite Z.sub_diag. lia.
  - rewrite Z.min_l by lia. rewrite Z.sub_diag. lia.
  - rewrite Z.min_r by lia. rewrite pos_iter_xO.
    split; [done|]. do 2 f_equal. lia.
Qed.

Lemma binary_round_below (m : positive) (e : Z) (mB : positive) (eB : Z) :
  -2200 ≤ e → bounded prec emax mB eB = true →
  scaled (Z.pos m) e ≤ scaled (Z.pos mB) eB →
  nonneg_below (binary_round prec emax false m e) mB eB.
Proof.
  intros He HB Hle. unfold binary_round.
  destruct (shl_align_spec m e (fexp prec emax (Z.pos (digits2_pos m) + e)))
    as [Hez Hmz].
  destruct (shl_align m e _) as [mz ez]. simpl in Hez, Hmz.
  change (Z.pos (digits2_pos m)) with (Zdigits2 (Z.pos m)) in *.
  set (f := fexp prec emax (Zdigits2 (Z.pos m) + e)) in *.
  assert (Hf : -1074 ≤ f) by (unfold f; rewrite fexp_binary64; lia).
  assert (Hdz : Zdigits2 (Z.pos mz) + ez = Zdigits2 (Z.pos m) + e).
  { rewrite Hmz, Zdigits2_mul_pow by lia. lia. }
  assert (Hpre : ez ≤ fexp prec emax (Zdigits2 (Z.pos mz) + ez))
    by (rewrite Hdz; fold f; lia).
  clearbody f.
  apply binary_round_aux_below; [lia | lia | done | done |].
  etransitivity; [|exact Hle]. apply Z.eq_le_incl. unfold scaled.
  rewrite Hmz. replace (e + 2200) with ((e - Z.min e f) + (ez + 2200)) by lia.
  rewrite (Z.pow_add_r 2 (e - Z.min e f)) by lia. ring.
Qed.

(** A float between 0 and 1, and its mantissa. *)
Lemma below_one_mantissa (m : positive) (e : Z) :
  nonneg_below (S754_finite false m e) one_mantissa (-52) →
  -1074 ≤ e ≤ -52 ∧ Z.pos m ≤ 2 ^ (- e).
Proof.
  simpl. intros [[Hc _]%bounded_spec Horder].
  destruct (Zdigits2_bounds (Z.pos m)) as (Hd & Hlo & Hhi); [lia|].
  split; [lia|].
  destruct Horder as [Hlt | [-> Hle]]; [|done].
  assert (2 ^ Zdigits2 (Z.pos m) ≤ 2 ^ (- e)) by (apply Z.pow_le_mono_r; lia).
  lia.
Qed.

(** [1 - q] is between 0 and 1 when [q] is. *)
Lemma SFsub_one_below (q : spec_float) :
  nonneg_below q one_mantissa (-52) →
  nonneg_below (SFsub prec emax SFone64 q) one_mantissa (-52).
Proof.
  destruct q as [[]| | |[] mq eq]; try done.
  - intros _. simpl. split; [done|]. right. done.
  - intros Hq. destruct (below_one_mantissa mq eq Hq) as [Heq Hmq].
    unfold SFone64, SFsub. cbn [cond_Zopp].
    rewrite (Z.min_r (-52) eq) by lia.
    destruct (shl_align_spec one_mantissa (-52) eq) as [_ H1].
    destruct (shl_align_spec mq eq eq) as [_ H2].
    rewrite H1, H2, Z.min_r, Z.min_l, Z.sub_diag by lia.
    change (Z.pos one_mantissa) with (2 ^ 52).
    rewrite <- Z.pow_add_r by lia.
    replace (52 + (-52 - eq)) with (- eq) by lia.
    change (2 ^ 0) with 1. rewrite Z.mul_1_r.
    assert (Hpow : 0 < 2 ^ (- eq)) by (apply pow2_pos; lia).
    destruct (2 ^ (- eq) - Z.pos mq) as [|p|p] eqn:HD; [done| |lia].
    simpl. apply binary_round_below; [lia|done|].
    rewrite scaled_one. unfold scaled.
    replace 2200 with (- eq + (eq + 2200)) at 2 by lia.
    rewrite (Z.pow_add_r 2 (- eq)) by lia.
    apply Z.mul_le_mono_nonneg_r; [apply Z.lt_le_incl, pow2_pos; lia|]. lia.
Qed.

Lemma Zdigits2_mul_lower (m m' : positive) :
  Zdigits2 (Z.pos m) + Zdigits2 (Z.pos m') - 1 ≤ Zdigits2 (Z.pos (m * m')).
Proof.
  destruct (Zdigits2_bounds (Z.pos m)) as (Hd & Hlo & Hhi); [lia|].
  destruct (Zdigits2_bounds (Z.pos m')) as (Hd' & Hlo' & Hhi'); [lia|].
  destruct (Zdigits2_bounds (Z.pos (m * m'))) as (Hdp & Hlop & Hhip); [lia|].
  set (d := Zdigits2 (Z.pos m)) in *. set (d' := Zdigits2 (Z.pos m')) in *.
  set (dp := Zdigits2 (Z.pos (m * m'))) in *. clearbody d d' dp.
  destruct (Z.le_gt_cases (d + d' - 1) dp) as [|Hgt]; [done|]. exfalso.
  assert (Hpw : 2 ^ dp ≤ 2 ^ ((d - 1) + (d' - 1))) by (apply Z.pow_le_mono_r; lia).
  rewrite Z.pow_add_r in Hpw by lia.
  assert (2 ^ (d - 1) * 2 ^ (d' - 1) ≤ Z.pos m * Z.pos m').
  { apply Z.mul_le_mono_nonneg; try done; apply Z.lt_le_incl, pow2_pos; lia. }
  rewrite Pos2Z.inj_mul in Hhip. lia.
Qed.

(** The product of a float that is not negative by a float between 0 and 1
    is not negative and not above the first. *)
Lemma SFmul_below (mt : positive) (et : Z) (s : spec_float) :
  bounded prec emax mt et = true →
  nonneg_below s one_mantissa (-52) →
  nonneg_below (SFmul prec emax (S754_finite false mt et) s) mt et.
Proof.
  intros Ht. destruct s as [[]| | |[] ms es]; try done.
  intros Hs. destruct (below_one_mantissa ms es Hs) as [Hes Hms].
  destruct Hs as [[Hcs _]%bounded_spec _].
  pose proof Ht as [Hct Het]%bounded_spec.
  destruct (Zdigits2_bounds (Z.pos mt)) as (Hdt & _ & _); [lia|].
  destruct (Zdigits2_bounds (Z.pos ms)) as (Hds & _ & _); [lia|].
  pose proof (Zdigits2_mul_lower mt ms) as Hdp.
  unfold SFmul. cbn [xorb].
  apply binary_round_aux_below; [lia | lia | | done |].
  - rewrite fexp_binary64. lia.
  - unfold scaled. rewrite Pos2Z.inj_mul.
    replace (et + 2200) with (- es + (et + es + 2200)) by lia.
    rewrite (Z.pow_add_r 2 (- es)) by lia.
    assert (0 < 2 ^ (et + es + 2200)) by (apply pow2_pos; lia).
    rewrite Z.mul_assoc. apply Z.mul_le_mono_nonneg_r; [lia|].
    apply Z.mul_le_mono_nonneg_l; lia.
Qed.

Lemma nonneg_below_valid (x : spec_float) (mB : positive) (eB : Z) :
  nonneg_below x mB eB → valid_binary x = true.
Proof. destruct x as [[]| | |[] m e]; try done. by intros [? _]. Qed.

(** A threshold that is not negative, scaled by a factor between 0 and 1,
    is not above the threshold. *)
Lemma SFmul_not_above (T S : spec_float) :
  valid_binary T = true →
  SFleb (S754_zero false) T = true →
  nonneg_below S one_mantissa (-52) →
  SFltb T (SFmul prec emax T S) = false.
Proof.
  intros Hvalid Hpos HS.
  destruct T as [s0|[]| |[] mt et]; try done.
  - by destruct S as [[]| | |[] ms es].
  - by destruct S as [[]| | |[] ms es].
  - pose proof (SFmul_below mt et S Hvalid HS) as HR.
    destruct (SFmul prec emax (S754_finite false mt et) S) as [[]| | |[] mr er];
      try done.
    destruct HR as [_ Horder]. unfold SFltb, SFcompare.
    destruct Horder as [Hlt | [-> Hle]].
    + by rewrite (proj2 (Z.compare_gt_iff et er)) by lia.
    + rewrite Z.compare_refl.
      change (Pos.compare_cont Eq mt mr) with (Pos.compare mt mr).
      destruct (Pos.compare_spec mt mr); try done. lia.
Qed.

Lemma Prim2SF_one : Prim2SF (Binary64.of_int 1) = SFone64.
Proof. by vm_compute. Qed.

Lemma Prim2SF_zero : Prim2SF 0%float = S754_zero false.
Proof. by vm_compute. Qed.

(** In binary64, for a threshold that is not negative and a count below
    [min_words]: the scaled threshold of line 131 is not above the
    threshold. *)
Lemma binary64_scaled_threshold_not_above (threshold : float) (min_words count : Z) :
  0 ≤ count < min_words →
  PrimFloat.leb 0 threshold = true →
  PrimFloat.ltb threshold
    (PrimFloat.mul threshold
       (PrimFloat.sub (Binary64.of_int 1)
          (Binary64.div_int (min_words - count) min_words))) = false.
Proof.
  intros Hcount Hpos.
  destruct (min_words - count) as [|a|a] eqn:Ha; try lia.
  destruct min_words as [|b|b]; try lia.
  assert (HQ : nonneg_below
                 (SFdiv prec emax (S754_finite false a 0) (S754_finite false b 0))
                 one_mantissa (-52)) by (apply SFdiv_int_below; lia).
  pose proof (SFsub_one_below _ HQ) as HS.
  rewrite ltb_spec, mul_spec, sub_spec, Prim2SF_one.
  rewrite leb_spec, Prim2SF_zero in Hpos.
  unfold Binary64.div_int. cbn [Binary64.spec_of_int].
  rewrite Prim2SF_SF2Prim by (by eapply nonneg_below_valid).
  apply SFmul_not_above; [apply Prim2SF_valid | done | done].
Qed.

Lemma ltb_irreflexive (x : float) : PrimFloat.ltb x x = false.
Proof.
  rewrite ltb_spec. unfold SFltb, SFcompare.
  destruct (Prim2SF x) as [s|[]| |[] m e]; try done;
    rewrite Z.compare_refl;
    change (Pos.compare_cont Eq m m) with (Pos.compare m m);
    by rewrite Pos.compare_refl.
Qed.

(** In binary64, on counts that are not negative, the adjusted threshold is
    not above a base threshold that is not negative. *)
Lemma binary64_adjusted_threshold_not_above (threshold : float)
    (min_words count1 count2 : Z) :
  0 ≤ count1 → 0 ≤ count2 → PrimFloat.leb 0 threshold = true →
  PrimFloat.ltb threshold
    (spec_adjusted_threshold threshold min_words count1 count2) = false.
Proof.
  intros H1 H2 Hpos. unfold spec_adjusted_threshold. case_decide.
  - apply binary64_scaled_threshold_not_above; [lia | done].
  - apply ltb_irreflexive.
Qed.

(** C3 (amended).  For a pair of authors the scorer considers, with shared
    top-K words, in a profile mapping whose counts are not negative: the
    threshold lines 129-131 compute is the adjusted threshold of the
    specification, and the scorer flags the pair exactly when the overlap
    ratio reaches it.  It is the base threshold when both total word counts
    are at least [min_words], and [threshold * (1 - (min_words - min(count1,
    count2)) / min_words)] when one of them is below; this holds in every
    arithmetic.  In binary64, when the base threshold is not negative, the
    adjusted threshold is never strictly greater than the base threshold. *)
Theorem adjusted_threshold_cases
    (data_dict : list (string * list (string * Z))) (top_k min_words : Z)
    (a b : string) :
  Forall (λ profile, Forall (λ item, 0 ≤ item.2) profile.2) data_dict →
  (a, b) ∈ compared_pairs data_dict →
  common_count data_dict top_k a b ≠ 0%nat →
  let count1 := word_count (profile_of data_dict a) in
  let count2 := word_count (profile_of data_dict b) in
  (∀ (F : Type) (arith : PyFloat F) (threshold : F),
     let adjusted := spec_adjusted_threshold threshold min_words count1 count2 in
     adjusted_threshold threshold min_words
       (total_count (profile_of data_dict a)) (total_count (profile_of data_dict b))
     = adjusted
     ∧ ((a, b) ∈ analyse_frequency_dicts data_dict top_k threshold min_words
        ↔ fge (truediv (Z.of_nat (common_count data_dict top_k a b)) top_k)
              adjusted = true)
     ∧ (min_words ≤ count1 ∧ min_words ≤ count2 → adjusted = threshold)
     ∧ (count1 < min_words ∨ count2 < min_words →
        adjusted
        = fmul threshold
            (fsub (float_of_int 1)
               (truediv (min_words - Z.min count1 count2) min_words))))
  ∧ (∀ threshold : float,
       PrimFloat.leb 0 threshold = true →
       PrimFloat.ltb threshold
         (spec_adjusted_threshold threshold min_words count1 count2) = false).
Proof.
  intros Hcounts Hpair Hcommon count1 count2.
  assert (H1 : 0 ≤ count1).
  { unfold count1. rewrite <- total_count_word_count. by apply profile_of_nonneg. }
  assert (H2 : 0 ≤ count2).
  { unfold count2. rewrite <- total_count_word_count. by apply profile_of_nonneg. }
  split.
  - intros F arith threshold adjusted. split_and!.
    + apply adjusted_threshold_spec.
    + rewrite elem_of_analyse_frequency_dicts. unfold reaches_threshold.
      rewrite adjusted_threshold_spec. fold count1 count2 adjusted. tauto.
    + intros [? ?]. unfold adjusted, spec_adjusted_threshold.
      by rewrite decide_False by lia.
    + intros Hfew. unfold adjusted, spec_adjusted_threshold.
      by rewrite decide_True.
  - intros threshold Hpos. by apply binary64_adjusted_threshold_not_above.
Qed.

Lemma adjusted_threshold_cases_witness :
  let data_dict := [("a", [("x", 2)]); ("b", [("x", 3); ("y", 2)])] in
  ("a", "b") ∈ analyse_frequency_dicts data_dict 10 0.05%float 3
  ∧ spec_adjusted_threshold 0.7%float 3 2 5
    = PrimFloat.mul 0.7 (PrimFloat.sub 1 (PrimFloat.div 1 3))
  ∧ PrimFloat.ltb 0.7 (spec_adjusted_threshold 0.7%float 3 2 5) = false.
Proof.
  intros data_dict.
  assert (Hcounts : Forall (λ profile : string * list (string * Z),
                      Forall (λ item, 0 ≤ item.2) profile.2) data_dict).
  { repeat (constructor; simpl; try lia). }
  assert (Hpair : ("a", "b") ∈ compared_pairs data_dict) by apply list_elem_of_here.
  assert (Hcommon : common_count data_dict 10 "a" "b" ≠ 0%nat) by (by vm_compute).
  pose proof (adjusted_threshold_cases data_dict 10 3 "a" "b" Hcounts Hpair Hcommon)
    as [Hcases Hbound].
  split_and!.
  - apply (proj1 (proj2 (Hcases float _ 0.05%float))). by vm_compute.
  - by vm_compute.
  - apply (Hbound 0.7%float). by vm_compute.
Defined.

(** C3, as stated, fails for a negative base threshold: two authors with
    one word each, the same one, are compared with [threshold = -1] and
    [min_words = 2]; the adjusted threshold is -0.5, above the base. *)
Lemma adjusted_threshold_above_negative_base :
  let data_dict := [("a", [("x", 1)]); ("b", [("x", 1)])] in
  let count1 := total_count (profile_of data_dict "a") in
  let count2 := total_count (profile_of data_dict "b") in
  ("a", "b") ∈ compared_pairs data_dict
  ∧ common_count data_dict 10 "a" "b" = 1%nat
  ∧ adjusted_threshold (-1)%float 2 count1 count2 = (-0.5)%float
  ∧ spec_adjusted_threshold (-1)%float 2 count1 count2 = (-0.5)%float
  ∧ PrimFloat.ltb (-1) (adjusted_threshold (-1)%float 2 count1 count2) = true.
Proof.
  split_and!; try (by vm_compute). apply list_elem_of_here.
Qed.

(** ** Verdict Combiner *)

Lemma elem_of_canonical_set (pairs : list (string * string)) (p : string * string) :
  p ∈ (list_to_set (sorted_pair <$> pairs) : gset (string * string))
  ↔ ∃ q, q ∈ pairs ∧ sorted_pair q = p.
Proof.
  rewrite elem_of_list_to_set, list_elem_of_fmap. naive_solver.
Qed.

Lemma ltb_cases (a b : string) :
  (String.ltb a b = true ∧ String.ltb b a = false)
  ∨ (String.ltb a b = false ∧ String.ltb b a = true)
  ∨ (a = b ∧ String.ltb a b = false ∧ String.ltb b a = false).
Proof.
  unfold String.ltb. rewrite (String.compare_antisym a b).
  destruct (String.compare b a) eqn:Hcmp; simpl; [|tauto..].
  apply String.compare_eq_iff in Hcmp. subst. tauto.
Qed.

Lemma sorted_pair_swap (a b : string) : sorted_pair (b, a) = sorted_pair (a, b).
Proof.
  unfold sorted_pair. simpl.
  destruct (ltb_cases a b) as [[-> ->] | [[-> ->] | (-> & -> & _)]]; done.
Qed.

Lemma sorted_pair_cases (a b : string) :
  (sorted_pair (a, b) = (a, b) ∧ String.ltb b a = false)
  ∨ (sorted_pair (a, b) = (b, a) ∧ String.ltb b a = true).
Proof. unfold sorted_pair. simpl. destruct (String.ltb b a); tauto. Qed.

Lemma sorted_pair_ordered (p : string * string) :
  String.ltb (sorted_pair p).2 (sorted_pair p).1 = false.
Proof.
  destruct p as [a b].
  destruct (sorted_pair_cases a b) as [[-> Hba] | [-> Hba]]; simpl; [done|].
  destruct (ltb_cases a b) as [[_ ?] | [[? _] | (_ & ? & _)]]; congruence.
Qed.

Lemma sorted_pair_idempotent (p : string * string) :
  sorted_pair (sorted_pair p) = sorted_pair p.
Proof.
  pose proof (sorted_pair_ordered p) as Hord.
  unfold sorted_pair at 1. by rewrite Hord.
Qed.

Lemma sorted_pair_is (q : string * string) (a b : string) :
  sorted_pair q = (a, b) ↔ (q = (a, b) ∨ q = (b, a)) ∧ String.ltb b a = false.
Proof.
  destruct q as [x y]. split.
  - intros Hq. pose proof (sorted_pair_ordered (x, y)) as Hord.
    rewrite Hq in Hord. simpl in Hord. split; [|done].
    destruct (sorted_pair_cases x y) as [[Hs _] | [Hs _]];
      rewrite Hs in Hq; injection Hq as -> ->; tauto.
  - intros [[[= -> ->] | [= -> ->]] Hord].
    + unfold sorted_pair. simpl. by rewrite Hord.
    + rewrite sorted_pair_swap. unfold sorted_pair. simpl. by rewrite Hord.
Qed.

Lemma elem_of_arrange (order : set_order) (l : list (string * string))
    (p : string * string) :
  p ∈ order l ↔ p ∈ l.
Proof. by rewrite (arrange_Permutation order l). Qed.

Lemma elem_of_combine_results (order : set_order)
    (suspicious_ac all_comb : list (string * string)) (a b : string) :
  (a, b) ∈ combine_results order suspicious_ac all_comb
  ↔ String.ltb b a = false
    ∧ ((a, b) ∈ suspicious_ac ∨ (b, a) ∈ suspicious_ac)
    ∧ ((a, b) ∈ all_comb ∨ (b, a) ∈ all_comb).
Proof.
  unfold combine_results.
  rewrite elem_of_arrange, elem_of_elements, elem_of_intersection,
    !elem_of_canonical_set.
  setoid_rewrite sorted_pair_is. naive_solver.
Qed.

Lemma NoDup_combine_results (order : set_order)
    (suspicious_ac all_comb : list (string * string)) :
  NoDup (combine_results order suspicious_ac all_comb).
Proof.
  unfold combine_results. rewrite (arrange_Permutation order).
  apply NoDup_elements.
Qed.

(** C1.  Whatever the order in which the set is listed, [combine_results]
    returns exactly the intersection of the two canonicalized Suspicion
    Sets.  The pair (A,B) is listed if and only if A is not greater than B
    and the two authors form a pair, in one order or the other, of the
    vocabulary-similarity set and of the duplicate-message set: the
    canonical form of a pair is the one of its two orders in which the
    first author is not greater than the second, and it is the same for
    (A,B) and (B,A).  So the canonical form of (A,B) is listed exactly when
    it is the canonical form of a pair of each set; no pair is listed
    twice. *)
Theorem combine_results_is_intersection (order : set_order)
    (suspicious_ac all_comb : list (string * string)) :
  (∀ A B, (A, B) ∈ combine_results order suspicious_ac all_comb
          ↔ String.ltb B A = false
            ∧ ((A, B) ∈ suspicious_ac ∨ (B, A) ∈ suspicious_ac)
            ∧ ((A, B) ∈ all_comb ∨ (B, A) ∈ all_comb))
  ∧ (∀ A B, (sorted_pair (A, B) = (A, B) ∨ sorted_pair (A, B) = (B, A))
            ∧ String.ltb (sorted_pair (A, B)).2 (sorted_pair (A, B)).1 = false
            ∧ sorted_pair (B, A) = sorted_pair (A, B))
  ∧ (∀ A B, sorted_pair (A, B) ∈ combine_results order suspicious_ac all_comb
        ↔ (∃ q, q ∈ suspicious_ac ∧ sorted_pair q = sorted_pair (A, B))
          ∧ (∃ r, r ∈ all_comb ∧ sorted_pair r = sorted_pair (A, B)))
  ∧ (∀ p, p ∈ combine_results order suspicious_ac all_comb
        ↔ p ∈ (list_to_set (sorted_pair <$> suspicious_ac) : gset (string * string))
              ∩ list_to_set (sorted_pair <$> all_comb))
  ∧ NoDup (combine_results order suspicious_ac all_comb).
Proof.
  assert (Hmem : ∀ p, p ∈ combine_results order suspicious_ac all_comb
        ↔ p ∈ (list_to_set (sorted_pair <$> suspicious_ac) : gset (string * string))
              ∩ list_to_set (sorted_pair <$> all_comb)).
  { intros p. unfold combine_results.
    by rewrite elem_of_arrange, elem_of_elements. }
  split_and!.
  - intros A B. apply elem_of_combine_results.
  - intros A B. split_and!.
    + destruct (sorted_pair_cases A B) as [[? _] | [? _]]; tauto.
    + apply sorted_pair_ordered.
    + apply sorted_pair_swap.
  - intros A B. by rewrite Hmem, elem_of_intersection, !elem_of_canonical_set.
  - exact Hmem.
  - apply NoDup_combine_results.
Qed.

(** ** Malformed records *)

Lemma create_dict_body_raises (words_more_than : Z)
    (groups : list (string * list string)) (line : json_obj) :
  lacks_field line →
  ∃ key, (key = "author_id" ∨ key = "message")
    ∧ (text ← getitem line "message";
       let message := Text.lower text in
       author ← getitem line "author_id";
       Ok (add_author words_more_than groups author message))
      = Raise (KeyError key).
Proof.
  intros Hlacks. unfold getitem.
  destruct (line !! "message") as [text|] eqn:Htext; simpl.
  - destruct Hlacks as [Hauthor|Hmessage]; [|congruence].
    rewrite Hauthor. simpl. exists "author_id". by split; [left|].
  - exists "message". by split; [right|].
Qed.

Lemma create_dict_body_KeyError (words_more_than : Z)
    (groups : list (string * list string)) (line : json_obj) (e : exn) :
  (text ← getitem line "message";
   let message := Text.lower text in
   author ← getitem line "author_id";
   Ok (add_author words_more_than groups author message)) = Raise e →
  ∃ key, (key = "author_id" ∨ key = "message") ∧ e = KeyError key.
Proof.
  unfold getitem.
  destruct (line !! "message") as [text|]; simpl.
  - destruct (line !! "author_id") as [author|]; simpl; [done|].
    intros [= <-]. exists "author_id". by split; [left|].
  - intros [= <-]. exists "message". by split; [right|].
Qed.

Lemma create_dict_malformed (data : list json_obj) (words_more_than : Z)
    (obj : json_obj) :
  obj ∈ data → lacks_field obj →
  ∃ key, (key = "author_id" ∨ key = "message")
    ∧ create_dict data words_more_than = Raise (KeyError key).
Proof.
  intros Hin Hlacks. unfold create_dict.
  destruct (for_each_raises
    (λ groups line,
       text ← getitem line "message";
       let message := Text.lower text in
       author ← getitem line "author_id";
       Ok (add_author words_more_than groups author message))
    (λ e, ∃ key, (key = "author_id" ∨ key = "message") ∧ e = KeyError key)
    data []) as (e & Hraise & key & Hkey & ->).
  - intros groups line e. apply create_dict_body_KeyError.
  - exists obj. split; [done|]. intros groups.
    destruct (create_dict_body_raises words_more_than groups obj Hlacks)
      as (key & _ & Hraise).
    by exists (KeyError key).
  - by exists key.
Qed.

(** C7 (amended).  When the file loads and one of its records lacks
    [author_id] or [message]: the load step has not rejected the record, it
    returned the object of every line, in the order of the file, none
    skipped; the analysis then fails in its first stage, where
    [create_dict] raises the [KeyError] of a missing field; nothing has been
    printed by then and no Twin Result Set, partial or not, is produced. *)
Theorem malformed_record_is_fatal (F : Type) `{PyFloat F} (lib : library)
    (order : set_order) (path : string) (data : list json_obj) (obj : json_obj) :
  load_data lib path = Ok data → obj ∈ data → lacks_field obj →
  (∃ lines, open_file lib path = Ok (Ok <$> lines)
            ∧ Forall2 (λ line loaded, json_loads lib line = Ok loaded) lines data)
  ∧ ∃ key, (key = "author_id" ∨ key = "message")
      ∧ create_dict data 2 = Raise (KeyError key)
      ∧ find_twins_accounts_from F order data = ([], Raise (KeyError key)).
Proof.
  intros Hload Hobj Hlacks. split; [by apply load_data_Ok|].
  destruct (create_dict_malformed data 2 obj Hobj Hlacks) as (key & Hkey & Hraise).
  exists key. split_and!; [done..|].
  unfold find_twins_accounts_from. by rewrite Hraise.
Qed.

Lemma malformed_record_is_fatal_witness :
  let good := to_json (MessageRecord "a" "hello world today") in
  let bad : json_obj := {["author_id" := "b"]} in
  load_data example_library "corpus.jsonl" = Ok [good; bad]
  ∧ ∃ key, create_dict [good; bad] 2 = Raise (KeyError key)
      ∧ find_twins_accounts_from float elements_order [good; bad]
        = ([], Raise (KeyError key)).
Proof.
  intros good bad.
  assert (Hload : load_data example_library "corpus.jsonl" = Ok [good; bad])
    by reflexivity.
  split; [exact Hload|].
  destruct (malformed_record_is_fatal float example_library elements_order
              "corpus.jsonl" [good; bad] bad Hload) as (_ & key & _ & Hcreate & Hrun).
  - apply list_elem_of_further, list_elem_of_here.
  - right. reflexivity.
  - by exists key.
Defined.

(** C7, as stated, fails: the load step accepts a record without
    [message]; the failure comes later, from [create_dict], after the
    records before it have been grouped. *)
Lemma load_data_accepts_malformed_record :
  let good := to_json (MessageRecord "a" "hello world today") in
  let bad : json_obj := {["author_id" := "b"]} in
  lacks_field bad
  ∧ load_data example_library "corpus.jsonl" = Ok [good; bad]
  ∧ create_dict [good] 2 = Ok [("hello world today", ["a"])]
  ∧ create_dict [good; bad] 2 = Raise (KeyError "message").
Proof.
  split_and!; [by right | done..].
Qed.

(** * Further properties *)

(** ** Message Grouper: what the groups hold *)

Lemma keys_add_author (words_more_than : Z) (groups : list (string * list string))
    (author text : string) :
  keys (add_author words_more_than groups author text)
  = if decide (text ∈ keys groups) then keys groups else keys groups ++ [text].
Proof.
  unfold add_author, defaultdict_get.
  destruct (dict_get groups text) as [accounts|] eqn:Hget.
  - assert (Hin : text ∈ keys groups).
    { destruct (decide (text ∈ keys groups)) as [|Hout]; [done|].
      apply dict_get_None in Hout. congruence. }
    rewrite decide_True by done.
    destruct (_ && _); [|done]. by rewrite keys_dict_set, decide_True.
  - assert (Hout : text ∉ keys groups) by by apply dict_get_None.
    rewrite decide_False by done.
    assert (Hkeys : keys (groups ++ [(text, @nil string)]) = keys groups ++ [text]).
    { unfold keys. by rewrite fmap_app. }
    destruct (_ && _); [|done].
    rewrite keys_dict_set, decide_True; [done|].
    rewrite Hkeys, elem_of_app, list_elem_of_singleton. by right.
Qed.

Lemma group_records_snoc (words_more_than : Z) (data : list message_record)
    (r : message_record) (groups : list (string * list string)) :
  group_records words_more_than (data ++ [r]) groups
  = add_author words_more_than (group_records words_more_than data groups)
      (author_id r) (Text.lower (message r)).
Proof. unfold group_records. by rewrite fold_left_app. Qed.

(** The authors of the group of a text are the authors of the records
    with that text, when it has enough words. *)
Lemma group_records_members (words_more_than : Z) (data : list message_record)
    (author text : string) :
  author ∈ default [] (dict_get (group_records words_more_than data []) text)
  ↔ ∃ r, r ∈ data ∧ author_id r = author ∧ Text.lower (message r) = text
         ∧ words_more_than < Z.of_nat (length (Text.split text)).
Proof.
  induction data as [|r data IH] using rev_ind.
  - simpl. split; [by intros ?%elem_of_nil|]. by intros (r & ?%elem_of_nil & _).
  - rewrite group_records_snoc, add_author_lookup.
    assert (Hsnoc : (∃ r', r' ∈ data ++ [r] ∧ author_id r' = author
                       ∧ Text.lower (message r') = text
                       ∧ words_more_than < Z.of_nat (length (Text.split text)))
             ↔ (∃ r', r' ∈ data ∧ author_id r' = author
                       ∧ Text.lower (message r') = text
                       ∧ words_more_than < Z.of_nat (length (Text.split text)))
               ∨ (author_id r = author ∧ Text.lower (message r) = text
                  ∧ words_more_than < Z.of_nat (length (Text.split text)))).
    { split.
      - intros (r' & [Hin | ->%list_elem_of_singleton]%elem_of_app & Hr'); [left | right].
        + by exists r'.
        + done.
      - intros [(r' & Hin & Hr') | Hr].
        + exists r'. split; [|done]. rewrite elem_of_app. by left.
        + exists r. split; [|done]. rewrite elem_of_app, list_elem_of_singleton. by right. }
    rewrite Hsnoc, <- IH. clear Hsnoc IH.
    case_decide as Htext; [subst text|]; simpl.
    + set (accounts := default [] (dict_get (group_records words_more_than data [])
                                     (Text.lower (message r)))).
      case_bool_decide as Hnew; case_bool_decide as Hlen; simpl;
        rewrite ?elem_of_app, ?list_elem_of_singleton; naive_solver.
    + naive_solver.
Qed.

Lemma group_records_shape (words_more_than : Z) (data : list message_record) :
  NoDup (keys (group_records words_more_than data []))
  ∧ (∀ text, text ∈ keys (group_records words_more_than data [])
             ↔ ∃ r, r ∈ data ∧ Text.lower (message r) = text)
  ∧ (∀ text accounts,
       dict_get (group_records words_more_than data []) text = Some accounts →
       NoDup accounts).
Proof.
  induction data as [|r data (Hnodup & Hkeys & Hlists)] using rev_ind.
  - split_and!; [constructor | | done].
    intros text. simpl. split; [by intros ?%elem_of_nil|].
    by intros (r & ?%elem_of_nil & _).
  - rewrite group_records_snoc. split_and!.
    + rewrite keys_add_author. case_decide as Hin; [done|].
      apply NoDup_app. split_and!; [done| |apply NoDup_singleton].
      intros t Ht ->%list_elem_of_singleton. done.
    + intros text. rewrite keys_add_author.
      assert (Hin : text ∈ keys (group_records words_more_than data []) ++
                             [Text.lower (message r)]
                    ↔ ∃ r', r' ∈ data ++ [r] ∧ Text.lower (message r') = text).
      { rewrite elem_of_app, list_elem_of_singleton, Hkeys.
        setoid_rewrite elem_of_app. setoid_rewrite list_elem_of_singleton.
        naive_solver. }
      case_decide as Hold; [|done].
      rewrite <- Hin, elem_of_app, list_elem_of_singleton. naive_solver.
    + intros text accounts. rewrite add_author_lookup.
      case_decide as Htext; [|apply Hlists]. simpl. intros [= <-].
      assert (Hold : NoDup (default [] (dict_get (group_records words_more_than data [])
                                          (Text.lower (message r))))).
      { destruct (dict_get _ _) as [accounts|] eqn:Hget; simpl; [|constructor].
        by apply (Hlists _ _ Hget). }
      case_bool_decide as Hnew; simpl; [|done].
      case_bool_decide; [|done].
      apply NoDup_app. split_and!; [done| |apply NoDup_singleton].
      intros a Ha ->%list_elem_of_singleton. done.
Qed.

(** X2.  On records that have both fields [create_dict] returns, and in the
    mapping it returns an author is listed under a text exactly when one of
    the records has that author, that text once lowercased, and the text has
    more than [words_more_than] words. *)
Theorem create_dict_members (data : list message_record) (words_more_than : Z) :
  ∃ groups,
    create_dict (to_json <$> data) words_more_than = Ok groups
    ∧ ∀ author text,
        author ∈ default [] (dict_get groups text)
        ↔ ∃ r, r ∈ data ∧ author_id r = author
               ∧ Text.lower (message r) = text
               ∧ words_more_than < Z.of_nat (length (Text.split text)).
Proof.
  exists (group_records words_more_than data []).
  split; [apply create_dict_well_formed|]. apply group_records_members.
Qed.

(** X3.  The mapping [create_dict] returns has one key for the lowercased
    text of every record, whatever its number of words, and no other key;
    no key occurs twice, and no author occurs twice in a list. *)
Theorem create_dict_shape (data : list message_record) (words_more_than : Z) :
  ∃ groups,
    create_dict (to_json <$> data) words_more_than = Ok groups
    ∧ NoDup (keys groups)
    ∧ (∀ text, text ∈ keys groups ↔ ∃ r, r ∈ data ∧ Text.lower (message r) = text)
    ∧ (∀ text accounts, (text, accounts) ∈ groups → NoDup accounts).
Proof.
  exists (group_records words_more_than data []).
  destruct (group_records_shape words_more_than data) as (Hnodup & Hkeys & Hlists).
  split_and!; [apply create_dict_well_formed | done..|].
  intros text accounts Hin. apply (Hlists text).
  clear Hkeys Hlists. revert Hnodup Hin. generalize (group_records words_more_than data []).
  intros groups. unfold keys. induction groups as [|[t l] groups IH]; simpl.
  - by intros _ ?%elem_of_nil.
  - intros [Hfresh Hnodup]%NoDup_cons [[= -> ->] | Hin]%elem_of_cons.
    + by rewrite decide_True.
    + rewrite decide_False; [by apply IH|].
      intros ->. apply Hfresh. apply list_elem_of_fmap. by exists (text, accounts).
Qed.

(** ** The duplicate-message Suspicion Set *)

Lemma dict_get_elem_of {K V : Type} `{EqDecision K} (d : list (K * V)) (k : K) (v : V) :
  NoDup (keys d) → (k, v) ∈ d → dict_get d k = Some v.
Proof.
  unfold keys. induction d as [|[k0 v0] d IH]; simpl.
  - by intros _ ?%elem_of_nil.
  - intros [Hfresh Hnodup]%NoDup_cons [[= -> ->] | Hin]%elem_of_cons.
    + by rewrite decide_True.
    + rewrite decide_False; [by apply IH|].
      intros ->. apply Hfresh. apply list_elem_of_fmap. by exists (k, v).
Qed.

Lemma elem_of_duplicate_pairs (same_messages : list (string * list string))
    (a b : string) :
  (a, b) ∈ find_all_combinations (find_same_messages same_messages)
  ↔ ∃ text accounts, (text, accounts) ∈ same_messages
                     ∧ (a, b) ∈ combinations2 accounts.
Proof.
  rewrite find_all_combinations_concat, elem_of_concat. split.
  - intros (pairs & Hin & (accounts & -> & Hfound)%list_elem_of_fmap).
    apply elem_of_find_same_messages in Hfound as [Hvalues _].
    apply list_elem_of_fmap in Hvalues as ([text accounts'] & -> & Hentry).
    by exists text, accounts'.
  - intros (text & accounts & Hentry & Hin).
    exists (combinations2 accounts). split; [done|].
    apply list_elem_of_fmap. exists accounts. split; [done|].
    apply elem_of_find_same_messages. split.
    + by eapply values_elem_of.
    + apply elem_of_combinations2 in Hin as (l1 & l2 & l3 & ->).
      rewrite !length_app. simpl. rewrite length_app. simpl. lia.
Qed.

Lemma group_records_pairs (data : list message_record) (words_more_than : Z)
    (a b : string) :
  ((a, b) ∈ find_all_combinations
              (find_same_messages (group_records words_more_than data []))
   ∨ (b, a) ∈ find_all_combinations
                (find_same_messages (group_records words_more_than data [])))
  ↔ a ≠ b
    ∧ ∃ r1 r2, r1 ∈ data ∧ r2 ∈ data
        ∧ author_id r1 = a ∧ author_id r2 = b
        ∧ Text.lower (message r1) = Text.lower (message r2)
        ∧ words_more_than
          < Z.of_nat (length (Text.split (Text.lower (message r1)))).
Proof.
  destruct (group_records_shape words_more_than data) as (Hnodup & _ & Hlists).
  assert (Hsound : ∀ a b,
    (a, b) ∈ find_all_combinations
               (find_same_messages (group_records words_more_than data [])) →
    a ≠ b
    ∧ ∃ r1 r2, r1 ∈ data ∧ r2 ∈ data ∧ author_id r1 = a ∧ author_id r2 = b
        ∧ Text.lower (message r1) = Text.lower (message r2)
        ∧ words_more_than
          < Z.of_nat (length (Text.split (Text.lower (message r1))))).
  { clear a b. intros a b (text & accounts & Hentry & Hpair)%elem_of_duplicate_pairs.
    apply dict_get_elem_of in Hentry; [|done].
    split; [by apply (combinations2_distinct accounts), Hpair; eapply Hlists|].
    apply combinations2_members in Hpair as [Ha Hb].
    destruct (proj1 (group_records_members words_more_than data a text))
      as (r1 & Hr1 & Ha1 & Ht1 & Hlen); [by rewrite Hentry|].
    destruct (proj1 (group_records_members words_more_than data b text))
      as (r2 & Hr2 & Hb2 & Ht2 & _); [by rewrite Hentry|].
    exists r1, r2. split_and!; try done; congruence. }
  split.
  - intros [Hab | Hba]; [by apply Hsound|].
    destruct (Hsound _ _ Hba) as (Hne & r2 & r1 & ? & ? & ? & ? & Htext & Hlen).
    split; [done|]. exists r1, r2. split_and!; try done. by rewrite <- Htext.
  - intros (Hne & r1 & r2 & Hr1 & Hr2 & Ha & Hb & Htext & Hlen).
    pose proof (proj2 (group_records_members words_more_than data a
                         (Text.lower (message r1)))) as H1.
    pose proof (proj2 (group_records_members words_more_than data b
                         (Text.lower (message r1)))) as H2.
    destruct (dict_get (group_records words_more_than data [])
                (Text.lower (message r1))) as [accounts|] eqn:Hget.
    + simpl in H1, H2.
      destruct (combinations2_complete accounts a b) as [Hc|Hc]; try done.
      * apply H1. by exists r1.
      * apply H2. exists r2. by rewrite <- Htext.
      * left. apply elem_of_duplicate_pairs. eexists _, accounts.
        split; [by apply dict_get_Some|done].
      * right. apply elem_of_duplicate_pairs. eexists _, accounts.
        split; [by apply dict_get_Some|done].
    + exfalso. eapply elem_of_nil, H1. by exists r1.
Qed.

(** X4.  The duplicate-message branch, from the records to the pairs: two
    authors form a pair of [find_all_combinations (find_same_messages
    (create_dict data words_more_than))], in one order or the other, exactly
    when they are different and each sent a message with the same lowercased
    text of more than [words_more_than] words.  No pair has twice the same
    author. *)
Theorem duplicate_pairs_of_records (data : list message_record) (words_more_than : Z) :
  ∃ same_mes,
    create_dict (to_json <$> data) words_more_than = Ok same_mes
    ∧ ∀ a b,
        ((a, b) ∈ find_all_combinations (find_same_messages same_mes)
         ∨ (b, a) ∈ find_all_combinations (find_same_messages same_mes))
        ↔ a ≠ b
          ∧ ∃ r1 r2, r1 ∈ data ∧ r2 ∈ data
              ∧ author_id r1 = a ∧ author_id r2 = b
              ∧ Text.lower (message r1) = Text.lower (message r2)
              ∧ words_more_than
                < Z.of_nat (length (Text.split (Text.lower (message r1)))).
Proof.
  exists (group_records words_more_than data []).
  split; [apply create_dict_well_formed|]. apply group_records_pairs.
Qed.

(** ** Which exception, and when *)

Lemma for_each_app {A S : Type} (body : S → A → result S) (s : S) (l1 l2 : list A) :
  for_each body s (l1 ++ l2) = s' ← for_each body s l1; for_each body s' l2.
Proof.
  revert s. induction l1 as [|x l1 IH]; intros s; simpl; [done|].
  destruct (body s x) as [s'|e]; simpl; [apply IH | done].
Qed.

Lemma create_dict_first_malformed (good : list message_record) (bad : json_obj)
    (rest : list json_obj) (words_more_than : Z) :
  lacks_field bad →
  create_dict ((to_json <$> good) ++ bad :: rest) words_more_than
  = Raise (KeyError (if decide (bad !! "message" = None)
                     then "message" else "author_id")).
Proof.
  intros Hlacks. unfold create_dict. rewrite for_each_app.
  fold (create_dict (to_json <$> good) words_more_than).
  rewrite create_dict_well_formed. simpl. unfold getitem.
  case_decide as Hmessage.
  - by rewrite Hmessage.
  - destruct Hlacks as [Hauthor|?]; [|done].
    destruct (bad !! "message") as [text|]; [|done]. simpl. by rewrite Hauthor.
Qed.

Lemma crete_freq_dict_first_malformed (good : list message_record) (bad : json_obj)
    (rest : list json_obj) (common : list string) :
  lacks_field bad →
  crete_freq_dict ((to_json <$> good) ++ bad :: rest) common
  = Raise (KeyError (if decide (bad !! "author_id" = None)
                     then "author_id" else "message")).
Proof.
  intros Hlacks. unfold crete_freq_dict. rewrite for_each_app.
  fold (crete_freq_dict (to_json <$> good) common).
  rewrite crete_freq_dict_well_formed. simpl. unfold getitem.
  case_decide as Hauthor.
  - by rewrite Hauthor.
  - destruct Hlacks as [?|Hmessage]; [done|].
    destruct (bad !! "author_id") as [author|]; [|done]. simpl. by rewrite Hmessage.
Qed.

(** X5.  The first record that lacks a field decides the exception, whatever
    follows it: [create_dict] raises [KeyError('message')] when the message
    is missing and [KeyError('author_id')] otherwise, while [crete_freq_dict]
    looks up the author first and raises [KeyError('author_id')] when the
    author is missing and [KeyError('message')] otherwise. *)
Theorem first_malformed_record_decides (good : list message_record) (bad : json_obj)
    (rest : list json_obj) (words_more_than : Z) (common : list string) :
  lacks_field bad →
  create_dict ((to_json <$> good) ++ bad :: rest) words_more_than
  = Raise (KeyError (if decide (bad !! "message" = None)
                     then "message" else "author_id"))
  ∧ crete_freq_dict ((to_json <$> good) ++ bad :: rest) common
    = Raise (KeyError (if decide (bad !! "author_id" = None)
                       then "author_id" else "message")).
Proof.
  intros Hlacks. split.
  - by apply create_dict_first_malformed.
  - by apply crete_freq_dict_first_malformed.
Qed.

Lemma first_malformed_record_decides_witness :
  let good := [MessageRecord "a" "hello world today"] in
  let bad : json_obj := ∅ in
  let rest := [to_json (MessageRecord "b" "never read")] in
  create_dict ((to_json <$> good) ++ bad :: rest) 2 = Raise (KeyError "message")
  ∧ crete_freq_dict ((to_json <$> good) ++ bad :: rest) common_words
    = Raise (KeyError "author_id").
Proof.
  intros good bad rest.
  apply (first_malformed_record_decides good bad rest 2 common_words).
  left. reflexivity.
Defined.

(** ** Frequency Modeler: what the profiles count *)

Lemma total_count_dict_set (counter : list (string * Z)) (word : string) (n : Z) :
  total_count (dict_set counter word n)
  = total_count counter - default 0 (dict_get counter word) + n.
Proof.
  induction counter as [|[w c] counter IH]; simpl.
  - unfold total_count. simpl. lia.
  - case_decide as Hw.
    + subst. rewrite !total_count_cons. simpl. lia.
    + rewrite !total_count_cons, IH. lia.
Qed.

Lemma total_count_counter_update (counter : list (string * Z)) (word : string) :
  total_count (counter_update counter word) = total_count counter + 1.
Proof. unfold counter_update. rewrite total_count_dict_set. lia. Qed.

Lemma counter_update_lookup (counter : list (string * Z)) (word w : string) :
  default 0 (dict_get (counter_update counter word) w)
  = default 0 (dict_get counter w) + (if decide (word = w) then 1 else 0).
Proof.
  unfold counter_update. rewrite dict_get_set.
  case_decide; [subst; simpl|]; lia.
Qed.

Lemma profile_of_dict_set (freq : list (string * list (string * Z)))
    (author other : string) (counter : list (string * Z)) :
  profile_of (dict_set freq author counter) other
  = if decide (author = other) then counter else profile_of freq other.
Proof. unfold profile_of. rewrite dict_get_set. by case_decide. Qed.

(** The effect of the loop over the words of one message on the profile of
    its author: every word that is neither empty nor stoplisted is counted
    once. *)
Lemma count_words_profile (common : list string) (author : string)
    (freq : list (string * list (string * Z))) (words : list string) (w : string) :
  default 0 (dict_get (profile_of (count_words common author freq words) author) w)
  = default 0 (dict_get (profile_of freq author) w)
    + Z.of_nat (occurrences w (filter (λ x, x ≠ "" ∧ x ∉ common) words))
  ∧ total_count (profile_of (count_words common author freq words) author)
    = total_count (profile_of freq author)
      + Z.of_nat (length (filter (λ x, x ≠ "" ∧ x ∉ common) words)).
Proof.
  unfold count_words, occurrences. revert freq.
  induction words as [|word words IH]; intros freq; simpl; [lia|].
  rewrite filter_cons. case_decide as Hempty.
  - rewrite decide_False by tauto. apply IH.
  - case_bool_decide as Hstop.
    + rewrite decide_True by done.
      destruct (IH (dict_set freq author
                      (counter_update (default [] (dict_get freq author)) word)))
        as [-> ->].
      rewrite profile_of_dict_set, decide_True by done.
      fold (profile_of freq author).
      rewrite counter_update_lookup, total_count_counter_update, filter_cons.
      simpl. case_decide; simpl; lia.
    + rewrite decide_False by tauto. apply IH.
Qed.

Lemma profile_of_count_words_other (common : list string) (author other : string)
    (freq : list (string * list (string * Z))) (words : list string) :
  author ≠ other →
  profile_of (count_words common author freq words) other = profile_of freq other.
Proof.
  intros Hne. unfold profile_of. by rewrite count_words_other_author.
Qed.

Lemma filter_tokens (common : list string) (text : string) :
  filter (λ x, x ≠ "" ∧ x ∉ common) (tokens text)
  = filter (λ x, x ∉ common) (tokens text).
Proof.
  assert (Hall : Forall (λ w, w ≠ "") (tokens text)).
  { apply Forall_forall. intros w Hw. by apply tokens_clean in Hw as [? _]. }
  induction Hall as [|w ws Hw _ IH]; [done|].
  rewrite !filter_cons, IH. repeat case_decide; tauto.
Qed.

Lemma count_record_profile (common : list string)
    (freq : list (string * list (string * Z))) (r : message_record)
    (author w : string) :
  let counted := if decide (author_id r = author)
                 then filter (λ x, x ∉ common) (tokens (message r)) else [] in
  default 0 (dict_get (profile_of (count_record common freq r) author) w)
  = default 0 (dict_get (profile_of freq author) w) + Z.of_nat (occurrences w counted)
  ∧ total_count (profile_of (count_record common freq r) author)
    = total_count (profile_of freq author) + Z.of_nat (length counted).
Proof.
  intros counted. unfold count_record, counted. clear counted.
  set (freq1 := if bool_decide (author_id r ∉ keys freq)
                then dict_set freq (author_id r) [] else freq).
  assert (Hfreq1 : profile_of freq1 author = profile_of freq author).
  { unfold freq1. case_bool_decide as Hnew; [|done].
    rewrite profile_of_dict_set. case_decide as Ha; [|done]. subst author.
    unfold profile_of. apply dict_get_None in Hnew. by rewrite Hnew. }
  case_decide as Ha.
  - subst author.
    destruct (count_words_profile common (author_id r) freq1 (tokens (message r)) w)
      as [-> ->].
    by rewrite Hfreq1, filter_tokens.
  - rewrite profile_of_count_words_other, Hfreq1 by done.
    unfold occurrences. simpl. lia.
Qed.

Lemma count_records_snoc (common : list string) (data : list message_record)
    (r : message_record) (freq : list (string * list (string * Z))) :
  count_records common (data ++ [r]) freq
  = count_record common (count_records common data freq) r.
Proof. unfold count_records. by rewrite fold_left_app. Qed.

Lemma author_tokens_snoc (data : list message_record) (r : message_record)
    (author : string) :
  author_tokens (data ++ [r]) author
  = author_tokens data author
    ++ (if decide (author_id r = author) then tokens (message r) else []).
Proof.
  unfold author_tokens. rewrite filter_app, fmap_app, concat_app. f_equal.
  rewrite filter_cons, filter_nil. case_decide; simpl; [|done].
  by rewrite app_nil_r.
Qed.

Lemma count_records_profile (common : list string) (data : list message_record)
    (author w : string) :
  default 0 (dict_get (profile_of (count_records common data []) author) w)
  = Z.of_nat (occurrences w (filter (λ x, x ∉ common) (author_tokens data author)))
  ∧ total_count (profile_of (count_records common data []) author)
    = Z.of_nat (length (filter (λ x, x ∉ common) (author_tokens data author))).
Proof.
  induction data as [|r data [IHw IHt]] using rev_ind; [done|].
  rewrite count_records_snoc, author_tokens_snoc.
  destruct (count_record_profile common (count_records common data []) r author w)
    as [-> ->].
  rewrite IHw, IHt, filter_app. unfold occurrences.
  rewrite filter_app, !length_app.
  case_decide; simpl; lia.
Qed.

Lemma occurrences_filter_out (common : list string) (w : string) (words : list string) :
  occurrences w (filter (λ x, x ∉ common) words)
  = if bool_decide (w ∈ common) then 0%nat else occurrences w words.
Proof.
  unfold occurrences. rewrite list_filter_filter.
  case_bool_decide as Hstop.
  - rewrite (list_filter_iff _ (λ _, False)); [|naive_solver].
    induction words as [|x words IH]; [done|]. rewrite filter_cons_False; tauto.
  - f_equal. apply list_filter_iff. naive_solver.
Qed.

Lemma occurrences_positive (w : string) (words : list string) :
  (0 < occurrences w words)%nat ↔ w ∈ words.
Proof.
  unfold occurrences. induction words as [|x words IH]; simpl.
  - rewrite elem_of_nil. lia.
  - rewrite filter_cons, elem_of_cons. case_decide; simpl; [|rewrite IH];
      naive_solver lia.
Qed.

(** X7.  The count [crete_freq_dict] stores for a word in the profile of an
    author is the number of times the word occurs among the tokens of the
    author's messages (punctuation deleted, lowercased, split at white
    space); a stoplisted word has no count.  The total of the profile, which
    the scorer compares with [min_words], is the number of tokens of the
    author that are not stoplisted. *)
Theorem crete_freq_dict_counts (data : list message_record) (common : list string) :
  ∃ freq,
    crete_freq_dict (to_json <$> data) common = Ok freq
    ∧ (∀ author word,
         default 0 (dict_get (profile_of freq author) word)
         = if bool_decide (word ∈ common) then 0
           else Z.of_nat (occurrences word (author_tokens data author)))
    ∧ (∀ author,
         total_count (profile_of freq author)
         = Z.of_nat (length (filter (λ w, w ∉ common) (author_tokens data author)))).
Proof.
  exists (count_records common data []).
  split_and!; [apply crete_freq_dict_well_formed | |].
  - intros author word.
    rewrite (proj1 (count_records_profile common data author word)).
    rewrite occurrences_filter_out. by case_bool_decide.
  - intros author. apply (count_records_profile common data author "").
Qed.

Lemma lower_char_idempotent (c : Ascii.ascii) :
  Text.lower_char (Text.lower_char c) = Text.lower_char c.
Proof. by destruct c as [[] [] [] [] [] [] [] []]. Qed.

Lemma lower_idempotent (s : string) : Text.lower (Text.lower s) = Text.lower s.
Proof.
  induction s as [|c s IH]; simpl; [done|]. by rewrite lower_char_idempotent, IH.
Qed.

Lemma tokens_lowercase (text word : string) :
  word ∈ tokens text → Text.lower word = word.
Proof.
  unfold tokens. rewrite split_lower.
  intros (w & -> & _)%list_elem_of_fmap. apply lower_idempotent.
Qed.

Lemma elem_of_author_tokens (data : list message_record) (author word : string) :
  word ∈ author_tokens data author
  ↔ ∃ r, r ∈ data ∧ author_id r = author ∧ word ∈ tokens (message r).
Proof.
  unfold author_tokens. rewrite elem_of_concat. split.
  - intros (ws & Hword & (r & -> & [Ha Hr]%list_elem_of_filter)%list_elem_of_fmap).
    by exists r.
  - intros (r & Hr & Ha & Hword). exists (tokens (message r)). split; [done|].
    apply list_elem_of_fmap. exists r. split; [done|]. by apply list_elem_of_filter.
Qed.

Lemma count_words_NoDup (common : list string) (author : string)
    (freq : list (string * list (string * Z))) (words : list string) :
  (∀ a counter, (a, counter) ∈ freq → NoDup (keys counter)) →
  ∀ a counter, (a, counter) ∈ count_words common author freq words →
               NoDup (keys counter).
Proof.
  unfold count_words. revert freq.
  induction words as [|word words IH]; intros freq Hinv; simpl; [done|].
  case_decide; [by apply IH|]. case_bool_decide; [|by apply IH].
  apply IH. intros a counter [Hin | [= -> ->]]%elem_of_dict_set; [by eapply Hinv|].
  unfold counter_update. rewrite keys_dict_set.
  assert (Hold : NoDup (keys (default [] (dict_get freq author)))).
  { destruct (dict_get freq author) as [counter|] eqn:Hget; simpl; [|constructor].
    eapply Hinv. by apply dict_get_Some. }
  case_decide as Hin; [done|].
  apply NoDup_app. split_and!; [done| |apply NoDup_singleton].
  intros w Hw ->%list_elem_of_singleton. done.
Qed.

Lemma count_records_NoDup (common : list string) (data : list message_record) :
  ∀ a counter, (a, counter) ∈ count_records common data [] → NoDup (keys counter).
Proof.
  induction data as [|r data IH] using rev_ind.
  - by intros a counter ?%elem_of_nil.
  - rewrite count_records_snoc. unfold count_record.
    apply count_words_NoDup. case_bool_decide; [|done].
    intros a counter [Hin | [= -> ->]]%elem_of_dict_set; [by eapply IH | constructor].
Qed.

Lemma profile_of_elem (freq : list (string * list (string * Z))) (author : string)
    (P : list (string * Z) → Prop) :
  P [] → (∀ a counter, (a, counter) ∈ freq → P counter) → P (profile_of freq author).
Proof.
  intros Hnil Hall. unfold profile_of.
  destruct (dict_get freq author) as [counter|] eqn:Hget; simpl; [|done].
  eapply Hall. by apply dict_get_Some.
Qed.

(** X8.  The words a profile holds are the tokens of the author's messages
    that are not in the stoplist, each under one key; no token is empty,
    none holds a punctuation character, and all are lowercase. *)
Theorem crete_freq_dict_words (data : list message_record) (common : list string) :
  ∃ freq,
    crete_freq_dict (to_json <$> data) common = Ok freq
    ∧ (∀ author, NoDup (keys (profile_of freq author)))
    ∧ (∀ author word,
         word ∈ keys (profile_of freq author)
         ↔ ¬ (word ∈ common) ∧ word ∈ author_tokens data author)
    ∧ (∀ author word,
         word ∈ author_tokens data author →
         word ≠ "" ∧ punctuation_free word = true ∧ Text.lower word = word).
Proof.
  exists (count_records common data []).
  split_and!; [apply crete_freq_dict_well_formed | | |].
  - intros author. apply profile_of_elem; [constructor|].
    apply count_records_NoDup.
  - intros author word.
    pose proof (proj1 (count_records_profile common data author word)) as Hcount.
    rewrite occurrences_filter_out in Hcount.
    assert (Hpositive : ∀ n, dict_get (profile_of (count_records common data []) author)
                               word = Some n → 0 < n).
    { revert word Hcount. apply profile_of_elem.
      - intros word _ n. done.
      - intros a counter Hin word _ n Hn%dict_get_Some.
        by destruct (crete_freq_dict_clean data common a counter word n)
          as (_ & _ & _ & ?). }
    rewrite <- (occurrences_positive word (author_tokens data author)).
    destruct (dict_get (profile_of (count_records common data []) author) word)
      as [n|] eqn:Hget; simpl in Hcount.
    + specialize (Hpositive n eq_refl).
      assert (Hin : word ∈ keys (profile_of (count_records common data []) author)).
      { destruct (decide (word ∈ keys (profile_of (count_records common data [])
                                         author))) as [|Hout]; [done|].
        apply dict_get_None in Hout. congruence. }
      case_bool_decide; [lia|]. split; [intros _; split; [done|lia] | done].
    + assert (Hout : word ∉ keys (profile_of (count_records common data []) author))
        by by apply dict_get_None.
      case_bool_decide; split; try done; intros [? ?]; try done; lia.
  - intros author word (r & _ & _ & Hword)%elem_of_author_tokens.
    destruct (tokens_clean _ _ Hword). split_and!; [done..|].
    by eapply tokens_lowercase.
Qed.

(** ** Vocabulary-Similarity Scorer: the top-K words *)

(** X9.  The top-K words of a Counter.  They are words of the Counter, as
    many as [top_k] or all of them when there are fewer.  A word is chosen
    before every word with a smaller count, and before every word with the
    same count that was counted first later: ties go to the word seen
    first. *)
Theorem top_words_ranking (counter : list (string * Z)) (top_k : Z) :
  NoDup (keys counter) →
  size (top_words counter top_k) = (Z.to_nat top_k `min` length counter)%nat
  ∧ (∀ word, word ∈ top_words counter top_k → word ∈ keys counter)
  ∧ (∀ word n word' n',
       (word, n) ∈ counter → (word', n') ∈ counter → n' < n →
       word' ∈ top_words counter top_k → word ∈ top_words counter top_k)
  ∧ (∀ word n word' n',
       ((word, n), (word', n')) ∈ combinations2 counter → n' ≤ n →
       word' ∈ top_words counter top_k → word ∈ top_words counter top_k).
Proof.
  intros Hnodup.
  assert (Hsorted_nodup : NoDup (sorted_by_count counter).*1).
  { change (NoDup (keys (sorted_by_count counter))). unfold keys.
    by rewrite sorted_by_count_Permutation. }
  assert (Hentries : NoDup (sorted_by_count counter)).
  { by eapply NoDup_fmap_1. }
  split_and!.
  - unfold top_words, most_common. rewrite size_list_to_set.
    + rewrite length_fmap, length_take.
      by rewrite (Permutation_length (sorted_by_count_Permutation counter)).
    + eapply sublist_NoDup; [exact Hsorted_nodup|].
      apply fmap_sublist, sublist_take.
  - intros word (n & Hin)%elem_of_top_words. unfold keys.
    apply list_elem_of_fmap. exists (word, n). split; [done|].
    rewrite <- sorted_by_count_Permutation.
    eapply elem_of_sublist; [done|apply sublist_take].
  - intros word n word' n' Hw Hw' Hlt.
    rewrite (elem_of_top_words_entry counter top_k word n),
            (elem_of_top_words_entry counter top_k word' n') by done.
    intros Htop'.
    destruct (decide ((word, n) ∈ take (Z.to_nat top_k) (sorted_by_count counter)))
      as [|Hout]; [done|]. exfalso.
    assert (Hdrop : (word, n) ∈ drop (Z.to_nat top_k) (sorted_by_count counter)).
    { rewrite <- sorted_by_count_Permutation in Hw.
      rewrite <- (take_drop (Z.to_nat top_k)) in Hw.
      apply elem_of_app in Hw as [?|?]; done. }
    pose proof (sorted_by_count_sorted counter) as Hsorted.
    rewrite <- (take_drop (Z.to_nat top_k)) in Hsorted.
    pose proof (StronglySorted_app_1_elem_of _ _ _ _ _ Hsorted Htop' Hdrop) as Hle.
    simpl in Hle. lia.
  - intros word n word' n' Hbefore Hle.
    destruct (combinations2_members _ _ _ Hbefore) as [Hw Hw'].
    rewrite (elem_of_top_words_entry counter top_k word n),
            (elem_of_top_words_entry counter top_k word' n') by done.
    apply take_closed_under_precedence; [done|].
    by apply sorted_by_count_stable.
Qed.

Lemma top_words_ranking_witness :
  let counter := [("a", 1); ("b", 3); ("c", 1); ("d", 3); ("e", 2)] in
  size (top_words counter 4) = 4%nat
  ∧ ("c" ∈ top_words counter 4 → "a" ∈ top_words counter 4).
Proof.
  intros counter.
  destruct (top_words_ranking counter 4) as (Hsize & _ & _ & Hties).
  { apply (bool_decide_unpack _). by vm_compute. }
  split; [exact Hsize|].
  apply (Hties "a" 1 "c" 1); [|done].
  apply (bool_decide_unpack _). by vm_compute.
Defined.

(** ** Vocabulary-Similarity Scorer: the flagged pairs *)

Lemma size_list_to_set_le (l : list string) :
  (size (list_to_set l : gset string) ≤ length l)%nat.
Proof.
  unfold size, set_size. simpl.
  apply submseteq_length, NoDup_submseteq; [apply NoDup_elements|].
  intros x. by rewrite elem_of_elements, elem_of_list_to_set.
Qed.

Lemma size_top_words_le (counter : list (string * Z)) (top_k : Z) :
  (size (top_words counter top_k) ≤ Z.to_nat top_k)%nat
  ∧ (size (top_words counter top_k) ≤ length counter)%nat.
Proof.
  unfold top_words, most_common.
  pose proof (size_list_to_set_le
                (take (Z.to_nat top_k) (sorted_by_count counter)).*1) as Hle.
  rewrite length_fmap, length_take in Hle.
  rewrite (Permutation_length (sorted_by_count_Permutation counter)) in Hle. lia.
Qed.

Lemma common_count_le (data_dict : list (string * list (string * Z)))
    (top_k : Z) (a b : string) :
  (common_count data_dict top_k a b ≤ Z.to_nat top_k)%nat
  ∧ (common_count data_dict top_k a b ≤ length (profile_of data_dict a))%nat
  ∧ (common_count data_dict top_k a b ≤ length (profile_of data_dict b))%nat.
Proof.
  unfold common_count.
  pose proof (size_top_words_le (profile_of data_dict a) top_k) as [? ?].
  pose proof (size_top_words_le (profile_of data_dict b) top_k) as [? ?].
  assert (size (top_words (profile_of data_dict a) top_k
                ∩ top_words (profile_of data_dict b) top_k)
          ≤ size (top_words (profile_of data_dict a) top_k))%nat
    by (apply subseteq_size; set_solver).
  assert (size (top_words (profile_of data_dict a) top_k
                ∩ top_words (profile_of data_dict b) top_k)
          ≤ size (top_words (profile_of data_dict b) top_k))%nat
    by (apply subseteq_size; set_solver).
  lia.
Qed.

(** X10.  The list [analyse_frequency_dicts] returns, in every arithmetic.
    It is a sublist of [itertools.combinations(keys, 2)]: pairs come in the
    order of the keys, first author first.  With [top_k <= 0] it is empty.
    The number of shared top-K words never exceeds [top_k] or the number of
    words of either author.  On a mapping with distinct keys, no pair is
    listed twice or with twice the same author, and no pair is listed in
    both orders. *)
Theorem analyse_frequency_dicts_pairs `{PyFloat F}
    (data_dict : list (string * list (string * Z)))
    (top_k : Z) (threshold : F) (min_words : Z) :
  analyse_frequency_dicts data_dict top_k threshold min_words
    `sublist_of` compared_pairs data_dict
  ∧ (top_k ≤ 0 → analyse_frequency_dicts data_dict top_k threshold min_words = [])
  ∧ (∀ a b, (common_count data_dict top_k a b ≤ Z.to_nat top_k)%nat
            ∧ (common_count data_dict top_k a b ≤ length (profile_of data_dict a))%nat
            ∧ (common_count data_dict top_k a b ≤ length (profile_of data_dict b))%nat)
  ∧ (NoDup (keys data_dict) →
     NoDup (analyse_frequency_dicts data_dict top_k threshold min_words)
     ∧ ∀ a b, (a, b) ∈ analyse_frequency_dicts data_dict top_k threshold min_words →
              a ≠ b
              ∧ ¬ ((b, a) ∈ analyse_frequency_dicts data_dict top_k threshold min_words)).
Proof.
  assert (Hfilter : analyse_frequency_dicts data_dict top_k threshold min_words
    = filter (λ p, common_count data_dict top_k p.1 p.2 ≠ 0%nat
                   ∧ reaches_threshold data_dict top_k threshold min_words p.1 p.2 = true)
        (compared_pairs data_dict)).
  { unfold analyse_frequency_dicts. by rewrite analyse_frequency_dicts_loop. }
  split_and!.
  - rewrite Hfilter. apply sublist_filter.
  - intros Hk. rewrite Hfilter. clear Hfilter.
    induction (compared_pairs data_dict) as [|[a b] pairs IH]; [done|].
    rewrite filter_cons_False; [done|]. simpl. intros [Hcommon _].
    apply common_count_top_k_positive in Hcommon. lia.
  - intros a b. apply common_count_le.
  - intros Hnodup. split.
    + rewrite Hfilter. apply NoDup_filter, NoDup_combinations2, Hnodup.
    + intros a b. rewrite !elem_of_analyse_frequency_dicts.
      intros (Hpair & _). unfold compared_pairs in *. split.
      * by apply (combinations2_distinct (keys data_dict)).
      * intros (Hpair' & _). by apply (combinations2_one_order (keys data_dict) a b).
Qed.

(** ** Verdict Combiner: what does not matter *)

(** X12.  The sorted form of a pair: (A,B) and (B,A) have the same one, it
    is one of the two, its first author is not greater than its second, and
    sorting it again changes nothing. *)
Theorem sorted_pair_canonical (a b : string) :
  sorted_pair (b, a) = sorted_pair (a, b)
  ∧ (sorted_pair (a, b) = (a, b) ∨ sorted_pair (a, b) = (b, a))
  ∧ String.ltb (sorted_pair (a, b)).2 (sorted_pair (a, b)).1 = false
  ∧ sorted_pair (sorted_pair (a, b)) = sorted_pair (a, b).
Proof.
  split_and!.
  - apply sorted_pair_swap.
  - destruct (sorted_pair_cases a b) as [[? _] | [? _]]; tauto.
  - apply sorted_pair_ordered.
  - apply sorted_pair_idempotent.
Qed.

Lemma canonical_set_Permutation (pairs pairs' : list (string * string)) :
  (∀ p, p ∈ pairs ↔ p ∈ pairs') →
  (list_to_set (sorted_pair <$> pairs) : gset (string * string))
  = list_to_set (sorted_pair <$> pairs').
Proof.
  intros Hsame. apply set_eq. intros p.
  rewrite !elem_of_canonical_set. by setoid_rewrite Hsame.
Qed.

Lemma canonical_set_swap (pairs : list (string * string)) :
  (list_to_set (sorted_pair <$> (prod_swap <$> pairs)) : gset (string * string))
  = list_to_set (sorted_pair <$> pairs).
Proof.
  rewrite <- list_fmap_compose. f_equal. apply list_fmap_ext.
  intros _ [a b] _. simpl. apply sorted_pair_swap.
Qed.

(** X13.  Up to the order in which the set is listed, [combine_results]
    does not depend on the order of the two authors inside the pairs it is
    given, on which list comes first, or on the order and the repetitions of
    the pairs in the lists: the lists returned hold the same pairs, each
    once.  Every pair it returns is sorted, and it returns nothing when one
    of the lists is empty. *)
Theorem combine_results_invariance (order order' : set_order)
    (suspicious_ac all_comb : list (string * string)) :
  combine_results order' (prod_swap <$> suspicious_ac) all_comb
    ≡ₚ combine_results order suspicious_ac all_comb
  ∧ combine_results order' suspicious_ac (prod_swap <$> all_comb)
    ≡ₚ combine_results order suspicious_ac all_comb
  ∧ combine_results order' all_comb suspicious_ac
    ≡ₚ combine_results order suspicious_ac all_comb
  ∧ (∀ suspicious_ac' all_comb',
       (∀ p, p ∈ suspicious_ac ↔ p ∈ suspicious_ac') →
       (∀ p, p ∈ all_comb ↔ p ∈ all_comb') →
       combine_results order' suspicious_ac' all_comb'
       ≡ₚ combine_results order suspicious_ac all_comb)
  ∧ (∀ p, p ∈ combine_results order suspicious_ac all_comb →
          String.ltb p.2 p.1 = false)
  ∧ combine_results order [] all_comb = []
  ∧ combine_results order suspicious_ac [] = [].
Proof.
  unfold combine_results. split_and!.
  - by rewrite !arrange_Permutation, canonical_set_swap.
  - by rewrite !arrange_Permutation, canonical_set_swap.
  - rewrite !arrange_Permutation. by rewrite (comm_L (∩)).
  - intros suspicious_ac' all_comb' Hs Ha. rewrite !arrange_Permutation.
    by rewrite (canonical_set_Permutation _ _ Hs), (canonical_set_Permutation _ _ Ha).
  - intros p.
    rewrite elem_of_arrange, elem_of_elements, elem_of_intersection,
      !elem_of_canonical_set.
    intros [(q & _ & <-) _]. apply sorted_pair_ordered.
  - simpl. rewrite (left_absorb_L ∅ (∩)), elements_empty.
    apply Permutation_nil_r. apply arrange_Permutation.
  - simpl. rewrite (right_absorb_L ∅ (∩)), elements_empty.
    apply Permutation_nil_r. apply arrange_Permutation.
Qed.

(** ** The scorer nothing calls *)

#[global] Instance suspicious_pair_dec `{PyFloat F}
    (dictionary : list (string * list (string * Z))) (coefficient : F)
    (account1 account2 : string) :
  Decision (suspicious_pair dictionary coefficient account1 account2).
Proof. unfold suspicious_pair. apply _. Defined.

Lemma most_common_nonempty (counter : list (string * Z)) :
  10 ≤ total_count counter → length (most_common counter 10).*1 ≠ 0%nat.
Proof.
  intros Htotal. unfold most_common. rewrite length_fmap, length_take.
  rewrite (Permutation_length (sorted_by_count_Permutation counter)).
  destruct counter as [|item counter]; [|simpl; lia].
  unfold total_count in Htotal. simpl in Htotal. lia.
Qed.

Lemma find_suspicious_body_returns `{PyFloat F}
    (dictionary : list (string * list (string * Z))) (coefficient : F)
    (suspicious : list (string * string)) (a b : string) :
  find_suspicious_body dictionary coefficient suspicious (a, b)
  = Returns (if decide ((a, b) ∈ suspicious ∨ (b, a) ∈ suspicious) then suspicious
             else if decide (suspicious_pair dictionary coefficient a b)
                  then suspicious ++ [(a, b)] else suspicious).
Proof.
  unfold find_suspicious_body.
  destruct (decide ((a, b) ∈ suspicious ∨ (b, a) ∈ suspicious)) as [Hseen|Hnew].
  - destruct Hseen; [rewrite (bool_decide_true ((a, b) ∈ _)) by done
                    | rewrite (bool_decide_true ((b, a) ∈ _)) by done];
      by rewrite ?orb_true_r.
  - rewrite !bool_decide_false by tauto. simpl.
    destruct (decide (suspicious_pair dictionary coefficient a b)) as [Hpair|Hpair];
      unfold suspicious_pair in Hpair.
    + destruct Hpair as (H1 & H2 & Hge).
      rewrite !bool_decide_false by lia. simpl.
      rewrite decide_False.
      * by rewrite Hge.
      * pose proof (most_common_nonempty (profile_of dictionary a)). lia.
    + case_bool_decide as H1; simpl; [done|].
      case_bool_decide as H2; simpl; [done|].
      case_decide; [|destruct (fge _ _) eqn:Hge; [|done]].
      * pose proof (most_common_nonempty (profile_of dictionary a)). lia.
      * exfalso. apply Hpair. split_and!; [lia..|done].
Qed.

Lemma find_suspicious_loop_returns `{PyFloat F}
    (dictionary : list (string * list (string * Z))) (coefficient : F)
    (pairs suspicious : list (string * string)) :
  ∃ found,
    find_suspicious_loop dictionary coefficient pairs suspicious = Returns found
    ∧ ∀ a b, (a, b) ∈ found →
        (a, b) ∈ suspicious
        ∨ ((a, b) ∈ pairs ∧ suspicious_pair dictionary coefficient a b).
Proof.
  revert suspicious. induction pairs as [|[a b] pairs IH]; intros suspicious.
  - exists suspicious. split; [done|]. tauto.
  - cbn [find_suspicious_loop]. rewrite find_suspicious_body_returns.
    set (suspicious' := if decide ((a, b) ∈ suspicious ∨ (b, a) ∈ suspicious)
                        then suspicious
                        else if decide (suspicious_pair dictionary coefficient a b)
                             then suspicious ++ [(a, b)] else suspicious).
    destruct (IH suspicious') as (found & -> & Hfound).
    exists found. split; [done|]. intros x y Hxy.
    destruct (Hfound x y Hxy) as [Hin | [Hin Hpair]].
    + unfold suspicious' in Hin. repeat case_decide; try tauto.
      apply elem_of_app in Hin as [?|[= -> ->]%list_elem_of_singleton]; [tauto|].
      right. split; [left | done].
    + right. split; [by right | done].
Qed.

(** X15.  [find_suspicious] never divides by zero, whatever the mapping: the
    quotient of line 46 is only formed for two accounts of at least 10
    words, whose top-10 lists are not empty.  Every pair it returns is a
    pair of [itertools.combinations(keys, 2)] whose accounts both have at
    least 10 words and whose shared top-10 words, over the length of the
    longer top-10 list, reach the coefficient. *)
Theorem find_suspicious_returns `{PyFloat F}
    (dictionary : list (string * list (string * Z))) (coefficient : F) :
  ∃ suspicious,
    find_suspicious dictionary coefficient = Returns suspicious
    ∧ ∀ a b, (a, b) ∈ suspicious →
        (a, b) ∈ combinations2 (keys dictionary)
        ∧ suspicious_pair dictionary coefficient a b.
Proof.
  unfold find_suspicious.
  destruct (find_suspicious_loop_returns dictionary coefficient
              (combinations2 (keys dictionary)) []) as (found & Hrun & Hfound).
  exists found. split; [done|]. intros a b Hab.
  destruct (Hfound a b Hab) as [Hin|?]; [by apply elem_of_nil in Hin | done].
Qed.

Lemma find_suspicious_loop_fresh `{PyFloat F}
    (dictionary : list (string * list (string * Z))) (coefficient : F)
    (pairs suspicious : list (string * string)) :
  NoDup pairs →
  (∀ a b, (a, b) ∈ pairs → (b, a) ∉ pairs) →
  (∀ a b, (a, b) ∈ pairs → ((a, b) ∉ suspicious) ∧ ((b, a) ∉ suspicious)) →
  find_suspicious_loop dictionary coefficient pairs suspicious
  = Returns (suspicious
             ++ filter (λ p, suspicious_pair dictionary coefficient p.1 p.2) pairs).
Proof.
  revert suspicious.
  induction pairs as [|[a b] pairs IH]; intros suspicious Hnodup Horder Hfresh.
  - simpl. by rewrite app_nil_r.
  - cbn [find_suspicious_loop]. rewrite find_suspicious_body_returns.
    apply NoDup_cons in Hnodup as [Hab Hnodup].
    destruct (Hfresh a b) as [? ?]; [left|].
    rewrite decide_False by tauto.
    assert (Hrest : ∀ x y, (x, y) ∈ pairs → (y, x) ∉ pairs).
    { intros x y Hxy Hyx. apply (Horder x y); by right. }
    assert (Hfresh' : ∀ x y, (x, y) ∈ pairs →
              ((x, y) ∉ suspicious ++ [(a, b)]) ∧ ((y, x) ∉ suspicious ++ [(a, b)])).
    { intros x y Hxy. destruct (Hfresh x y) as [? ?]; [by right|].
      rewrite !elem_of_app, !list_elem_of_singleton. split.
      - intros [?|[= -> ->]]; done.
      - intros [?|[= -> ->]]; [done|]. apply (Horder a b); [left | by right]. }
    rewrite filter_cons. simpl. case_decide.
    + rewrite IH, <- app_assoc by done. done.
    + rewrite IH; [done..|]. intros x y Hxy. apply Hfresh. by right.
Qed.

(** X16.  On a mapping whose keys are distinct, as those of a [dict] are,
    the test of line 37 ("already checked") never holds: [find_suspicious]
    returns exactly the pairs of [itertools.combinations(keys, 2)] that pass
    its test, in that order. *)
Theorem find_suspicious_distinct_keys `{PyFloat F}
    (dictionary : list (string * list (string * Z))) (coefficient : F) :
  NoDup (keys dictionary) →
  find_suspicious dictionary coefficient
  = Returns (filter (λ p, suspicious_pair dictionary coefficient p.1 p.2)
               (combinations2 (keys dictionary))).
Proof.
  intros Hnodup. unfold find_suspicious.
  rewrite find_suspicious_loop_fresh; [done| | |].
  - by apply NoDup_combinations2.
  - intros a b. by apply combinations2_one_order.
  - intros a b _. split; apply not_elem_of_nil.
Qed.

Lemma find_suspicious_distinct_keys_witness :
  find_suspicious (F:=float)
    [("a", [("x", 6); ("y", 5)]); ("b", [("x", 9); ("z", 2)]); ("c", [("x", 3)])]
    (float_literal 1 2)
  = Returns [("a", "b")].
Proof.
  rewrite find_suspicious_distinct_keys.
  - by vm_compute.
  - apply (bool_decide_unpack _). by vm_compute.
Defined.

(** ** Printing *)

Lemma ltb_trans (a b c : string) :
  String.ltb a b = true → String.ltb b c = true → String.ltb a c = true.
Proof.
  unfold String.ltb.
  destruct (String.compare a b) eqn:Hab; try done.
  destruct (String.compare b c) eqn:Hbc; try done. intros _ _.
  apply OrderedTypeEx.String_as_OT.cmp_lt in Hab, Hbc.
  pose proof (OrderedTypeEx.String_as_OT.lt_trans _ _ _ Hab Hbc) as Hac.
  apply OrderedTypeEx.String_as_OT.cmp_lt in Hac.
  unfold OrderedTypeEx.String_as_OT.cmp in Hac. by rewrite Hac.
Qed.

Lemma ltb_irrefl (a : string) : String.ltb a a = false.
Proof. destruct (ltb_cases a a) as [[? ?] | [[? ?] | (_ & ? & _)]]; congruence. Qed.

Lemma pair_ltb_cases (p q : string * string) :
  (pair_ltb p q = true ∧ pair_ltb q p = false)
  ∨ (pair_ltb p q = false ∧ pair_ltb q p = true)
  ∨ (p = q ∧ pair_ltb p q = false ∧ pair_ltb q p = false).
Proof.
  destruct p as [a b], q as [c d]. unfold pair_ltb. simpl.
  destruct (decide (a = c)) as [->|Hne].
  - rewrite decide_True by done.
    destruct (ltb_cases b d) as [? | [? | (-> & ? & ?)]]; tauto.
  - rewrite decide_False by done.
    destruct (ltb_cases a c) as [? | [? | (-> & ? & ?)]]; tauto.
Qed.

Lemma pair_ltb_trans (p q r : string * string) :
  pair_ltb p q = true → pair_ltb q r = true → pair_ltb p r = true.
Proof.
  destruct p as [a b], q as [c d], r as [e f]. unfold pair_ltb. simpl.
  repeat case_decide; subst; try done; intros Hfirst Hsecond;
    try (by eapply ltb_trans).
  pose proof (ltb_trans _ _ _ Hfirst Hsecond) as Hcycle.
  by rewrite ltb_irrefl in Hcycle.
Qed.

Lemma pair_le_trans (p q r : string * string) :
  pair_ltb q p = false → pair_ltb r q = false → pair_ltb r p = false.
Proof.
  intros Hpq Hqr. destruct (pair_ltb r p) eqn:Hrp; [|done].
  destruct (pair_ltb_cases p q) as [[Hlt _] | [[_ ?] | (-> & _)]]; [|congruence..].
  pose proof (pair_ltb_trans _ _ _ Hrp Hlt). congruence.
Qed.

Lemma insert_pair_Permutation (x : string * string) (l : list (string * string)) :
  insert_pair x l ≡ₚ x :: l.
Proof.
  induction l as [|y l IH]; simpl; [done|].
  destruct (pair_ltb y x); [|done]. rewrite IH. apply Permutation_swap.
Qed.

Lemma sorted_pairs_Permutation (pairs : list (string * string)) :
  sorted_pairs pairs ≡ₚ pairs.
Proof.
  unfold sorted_pairs. induction pairs as [|x pairs IH]; simpl; [done|].
  by rewrite insert_pair_Permutation, IH.
Qed.

Lemma insert_pair_sorted (x : string * string) (l : list (string * string)) :
  StronglySorted (λ p q, pair_ltb q p = false) l →
  StronglySorted (λ p q, pair_ltb q p = false) (insert_pair x l).
Proof.
  induction 1 as [|y l Hsorted IH Hy]; simpl.
  - repeat constructor.
  - destruct (pair_ltb y x) eqn:Hyx.
    + constructor; [done|]. rewrite insert_pair_Permutation.
      constructor; [|done].
      destruct (pair_ltb_cases x y) as [[_ ?] | [[? _] | (_ & ? & _)]]; congruence.
    + constructor; [by constructor|]. constructor; [done|].
      eapply Forall_impl; [exact Hy|]. simpl. intros z Hz.
      by apply (pair_le_trans x y z).
Qed.

Lemma sorted_pairs_sorted (pairs : list (string * string)) :
  StronglySorted (λ p q, pair_ltb q p = false) (sorted_pairs pairs).
Proof.
  unfold sorted_pairs. induction pairs as [|x pairs IH]; simpl.
  - constructor.
  - by apply insert_pair_sorted.
Qed.

(** X17.  [print_results] writes three header lines, the second with the
    number of pairs, then one line "A B" per pair: every pair of the list as
    many times as it occurs there, in ascending order of (first, second).
    When the list has no repetition, as the result of [combine_results],
    the order is strict. *)
Theorem print_results_listing (twins_accounts : list (string * string)) :
  ∃ listing,
    print_results twins_accounts
    = ["Twins accounts:";
       "Possibly was detected " +:+ pretty (length twins_accounts)
         +:+ " pairs of twins accounts";
       "---------------"]
      ++ ((λ accounts, accounts.1 +:+ " " +:+ accounts.2) <$> listing)
    ∧ length (print_results twins_accounts) = (3 + length twins_accounts)%nat
    ∧ listing ≡ₚ twins_accounts
    ∧ StronglySorted (λ p q, pair_ltb q p = false) listing
    ∧ (NoDup twins_accounts → StronglySorted (λ p q, pair_ltb p q = true) listing).
Proof.
  exists (sorted_pairs twins_accounts). split_and!.
  - done.
  - unfold print_results. rewrite length_app, length_fmap. simpl.
    by rewrite (Permutation_length (sorted_pairs_Permutation twins_accounts)).
  - apply sorted_pairs_Permutation.
  - apply sorted_pairs_sorted.
  - intros Hnodup.
    rewrite <- (sorted_pairs_Permutation twins_accounts) in Hnodup.
    pose proof (sorted_pairs_sorted twins_accounts) as Hsorted.
    induction Hsorted as [|p l Hsorted IH Hp]; [constructor|].
    apply NoDup_cons in Hnodup as [Hfresh Hnodup].
    constructor; [by apply IH|].
    apply Forall_forall. intros q Hq. rewrite Forall_forall in Hp.
    specialize (Hp q Hq).
    destruct (pair_ltb_cases p q) as [[? _] | [[_ ?] | (-> & _)]];
      [done | congruence | done].
Qed.

Lemma pair_le_antisymm (p q : string * string) :
  pair_ltb q p = false → pair_ltb p q = false → p = q.
Proof.
  intros Hqp Hpq.
  destruct (pair_ltb_cases p q) as [[? _] | [[_ ?] | (-> & _)]]; congruence.
Qed.

Lemma sorted_pairs_unique (pairs pairs' : list (string * string)) :
  pairs ≡ₚ pairs' → sorted_pairs pairs = sorted_pairs pairs'.
Proof.
  intros Hperm.
  apply (StronglySorted_unique_strong (λ p q, pair_ltb q p = false)).
  - intros p q _ _ Hpq Hqp. by apply pair_le_antisymm.
  - apply sorted_pairs_sorted.
  - apply sorted_pairs_sorted.
  - by rewrite !sorted_pairs_Permutation.
Qed.

(** X18.  What [print_results] writes depends on the pairs only, not on
    their order in the list it is given: the list comes from a [set], whose
    iteration order is not fixed, and [sorted] makes the output the same
    for every order. *)
Theorem print_results_order_independent (twins_accounts twins_accounts' : list (string * string)) :
  twins_accounts ≡ₚ twins_accounts' →
  print_results twins_accounts = print_results twins_accounts'.
Proof.
  intros Hperm. unfold print_results.
  by rewrite (sorted_pairs_unique _ _ Hperm), (Permutation_length Hperm).
Qed.

Lemma print_results_order_independent_witness :
  [("b", "c"); ("a", "z"); ("a", "b")] ≡ₚ [("a", "b"); ("b", "c"); ("a", "z")]
  ∧ print_results [("b", "c"); ("a", "z"); ("a", "b")]
    = ["Twins accounts:";
       "Possibly was detected 3 pairs of twins accounts";
       "---------------"; "a b"; "a z"; "b c"].
Proof.
  assert ([("b", "c"); ("a", "z"); ("a", "b")]
          ≡ₚ [("a", "b"); ("b", "c"); ("a", "z")]) as Hperm.
  { symmetry. exact (Permutation_cons_append [("b", "c"); ("a", "z")] ("a", "b")). }
  split; [exact Hperm|].
  rewrite (print_results_order_independent _ _ Hperm). reflexivity.
Defined.

(** ** The pipeline *)

(** What is printed does not depend on the order in which the set of twins
    is listed. *)
Lemma find_twins_accounts_from_order (F : Type) `{PyFloat F}
    (order order' : set_order) (data_mes : list json_obj) :
  find_twins_accounts_from F order' data_mes
  = find_twins_accounts_from F order data_mes.
Proof.
  unfold find_twins_accounts_from.
  destruct (create_dict data_mes 2) as [same_mes|e]; [|done].
  destruct (crete_freq_dict data_mes common_words) as [freq_dict|e]; [|done].
  do 2 f_equal. unfold print_results, combine_results.
  set (comb := elements _).
  assert (Hperm : order' comb ≡ₚ order comb) by (by rewrite !arrange_Permutation).
  by rewrite (sorted_pairs_unique _ _ Hperm), (Permutation_length Hperm).
Qed.

(** X14.  What the statements that follow the load print on records that
    have both fields.  They end without an exception, having printed the two
    progress lines, an empty line and the listing of [print_results] for a
    list of pairs without repetition.  The pair (A,B) is in that list
    exactly when A is less than B, the two authors each sent a message with
    the same lowercased text of more than two words, their top-10 words
    share at least one word, and the share of common words reaches the
    adjusted threshold for 0.7 and [min_words = 3].  What is printed is the
    same for every order in which the set of twins is listed. *)
Theorem find_twins_accounts_reports (F : Type) `{PyFloat F} (order : set_order)
    (data : list message_record) :
  ∃ twins freq,
    find_twins_accounts_from F order (to_json <$> data)
    = (["Same messages is finding..."; "Frequency dictionary is creating..."; ""]
       ++ print_results twins, Ok ())
    ∧ (∀ order', find_twins_accounts_from F order' (to_json <$> data)
                 = find_twins_accounts_from F order (to_json <$> data))
    ∧ crete_freq_dict (to_json <$> data) common_words = Ok freq
    ∧ NoDup twins
    ∧ ∀ a b,
        (a, b) ∈ twins
        ↔ String.ltb a b = true
          ∧ (∃ r1 r2, r1 ∈ data ∧ r2 ∈ data
               ∧ author_id r1 = a ∧ author_id r2 = b
               ∧ Text.lower (message r1) = Text.lower (message r2)
               ∧ 2 < Z.of_nat (length (Text.split (Text.lower (message r1)))))
          ∧ common_count freq 10 a b ≠ 0%nat
          ∧ reaches_threshold freq 10 (float_literal 7 10 : F) 3 a b = true.
Proof.
  set (freq := count_records common_words data []).
  set (same_mes := group_records 2 data []).
  exists (combine_results order
            (analyse_frequency_dicts freq 10 (float_literal 7 10 : F) 3)
            (find_all_combinations (find_same_messages same_mes))), freq.
  split_and!.
  - unfold find_twins_accounts_from.
    rewrite create_dict_well_formed, crete_freq_dict_well_formed. done.
  - intros order'. apply find_twins_accounts_from_order.
  - apply crete_freq_dict_well_formed.
  - apply NoDup_combine_results.
  - intros a b. rewrite elem_of_combine_results.
    unfold same_mes. rewrite group_records_pairs.
    destruct (keys_count_records common_words data []) as [_ Hkeys];
      [constructor|]. fold freq in Hkeys.
    assert (Hauthor : ∀ r, r ∈ data → author_id r ∈ keys freq).
    { intros r Hr. apply Hkeys. right. apply list_elem_of_fmap. by exists r. }
    split.
    + intros (Hord & Hscore & Hne & r1 & r2 & Hr1 & Hr2 & Ha & Hb & Hdup).
      split_and!.
      * destruct (ltb_cases a b) as [[? _] | [[_ ?] | (? & _)]]; congruence.
      * by exists r1, r2.
      * apply (scorer_flags_unordered freq 10 (float_literal 7 10 : F) 3 a b);
          [subst; by apply Hauthor..|done|done].
      * apply (scorer_flags_unordered freq 10 (float_literal 7 10 : F) 3 a b);
          [subst; by apply Hauthor..|done|done].
    + intros (Hord & (r1 & r2 & Hr1 & Hr2 & Ha & Hb & Hdup) & Hcommon & Hreach).
      assert (Hne : a ≠ b).
      { intros ->. destruct (ltb_cases b b) as [[? ?] | [[? ?] | (_ & ? & _)]];
          congruence. }
      split_and!.
      * destruct (ltb_cases a b) as [[_ ?] | [[? _] | (_ & _ & ?)]]; congruence.
      * apply (scorer_flags_unordered freq 10 (float_literal 7 10 : F) 3 a b);
          [subst; by apply Hauthor..|done|done].
      * done.
      * by exists r1, r2.
Qed.

(** X6.  As the script is written, no run gets to the file.  Line 166 asks
    the parsed arguments for [filr_name], and the parser declares
    [file_name]: whatever the file system, the command line and the
    arithmetic, a run raises [AttributeError] there, before the file is
    opened and before anything is printed.  The attribute the parser does
    declare holds the path. *)
Theorem find_twins_accounts_stops_at_line_166 (F : Type) `{PyFloat F}
    (lib : library) (order : set_order) (args : Namespace) :
  find_twins_accounts F lib order args = ([], Raise (AttributeError "filr_name"))
  ∧ getattr args "file_name" = Ok (file_name args).
Proof. done. Qed.

(** ** The statements after the load, on examples *)

(** The literal 0.7 of line 185 is the double 0x1.6666666666666p-1. *)
Example float_literal_seven_tenths :
  float_literal (F:=float) 7 10 = 0x1.6666666666666p-1%float.
Proof. by vm_compute. Qed.

(** Ties of [most_common] go to the word counted first. *)
Example most_common_ties :
  most_common [("a", 1); ("b", 3); ("c", 1); ("d", 3); ("e", 2)] 3
  = [("b", 3); ("d", 3); ("e", 2)]
  ∧ most_common [("a", 1); ("b", 1)] 1 = [("a", 1)]
  ∧ most_common [("a", 1)] 0 = [].
Proof. by vm_compute. Qed.

(** Two authors that sent the same two messages are twins. *)
Example twins_found (order : set_order) :
  find_twins_accounts_from float order
    (to_json <$> [MessageRecord "A" "hello world today";
                  MessageRecord "B" "hello world today";
                  MessageRecord "A" "foo bar baz qux";
                  MessageRecord "B" "foo bar baz qux"])
  = (["Same messages is finding..."; "Frequency dictionary is creating..."; "";
      "Twins accounts:"; "Possibly was detected 1 pairs of twins accounts";
      "---------------"; "A B"], Ok ()).
Proof.
  rewrite (find_twins_accounts_from_order float elements_order order).
  by vm_compute.
Qed.

(** A shared message alone is not enough: the vocabularies must overlap. *)
Example same_message_different_vocabulary (order : set_order) :
  find_twins_accounts_from float order
    (to_json <$> [MessageRecord "A" "hello world today";
                  MessageRecord "B" "hello world today";
                  MessageRecord "A" "one two three four five six seven";
                  MessageRecord "A" "one two three four five six seven";
                  MessageRecord "B" "un deux trois quatre cinq six sept";
                  MessageRecord "B" "un deux trois quatre cinq six sept"])
  = (["Same messages is finding..."; "Frequency dictionary is creating..."; "";
      "Twins accounts:"; "Possibly was detected 0 pairs of twins accounts";
      "---------------"], Ok ()).
Proof.
  rewrite (find_twins_accounts_from_order float elements_order order).
  by vm_compute.
Qed.

Example no_records_no_twins (order : set_order) :
  find_twins_accounts_from float order []
  = (["Same messages is finding..."; "Frequency dictionary is creating..."; "";
      "Twins accounts:"; "Possibly was detected 0 pairs of twins accounts";
      "---------------"], Ok ()).
Proof.
  rewrite (find_twins_accounts_from_order float elements_order order).
  by vm_compute.
Qed.
